(** * DonationParserBot: the forum donation scraper, embedded and verified

    The development follows [forum_donation_scraper.js] (class
    [ForumDonationScraper] and [processTelegramRequest]) in its axios/cheerio
    variant; the older puppeteer variant shares [parseDonationMessage],
    the sort comparator, [filterDonationsByComments] and the report code.

    JavaScript strings are sequences of UTF-16 code units, regular
    expressions are run by a backtracking matcher that follows the
    ECMAScript pattern semantics, amounts are IEEE-754 binary64 values,
    page numbers and time values are integers (the Numbers of the code as
    long as they stay below 2^53), and the asynchronous methods are
    programs of a state-and-exception monad over an explicit world (clock,
    network script, event log).  What the language leaves to the engine -
    the reading of a date text that is not in the ISO format, the order a
    sort gives when its comparator is not consistent - and what the
    libraries do are parameters of the development. *)

From Stdlib Require Import String Ascii.
From Stdlib Require Import ZArith NArith Arith List Bool Lia.
From Stdlib Require Import Sorted Permutation.
From Stdlib Require Import Floats.SpecFloat.
From Stdlib Require DecimalString DecimalPos.
Import ListNotations.

Set Implicit Arguments.

(* ===================================================================== *)
(** * 1. Strings                                                          *)
(* ===================================================================== *)

(** A UTF-16 code unit, and a JavaScript string. *)
Definition char := N.
Definition str := list char.

(** Source text in this file is UTF-8; [ustr] decodes a literal into the
    code units the JavaScript engine sees. *)
Fixpoint utf8_decode (bs : list N) : list N :=
  match bs with
  | [] => []
  | b0 :: t0 =>
    if (b0 <? 128)%N then b0 :: utf8_decode t0
    else match t0 with
    | [] => []
    | b1 :: t1 =>
      if (b0 <? 224)%N
      then ((b0 mod 32) * 64 + b1 mod 64)%N :: utf8_decode t1
      else match t1 with
      | [] => []
      | b2 :: t2 =>
        if (b0 <? 240)%N
        then ((b0 mod 16) * 4096 + (b1 mod 64) * 64 + b2 mod 64)%N
             :: utf8_decode t2
        else match t2 with
        | [] => []
        | b3 :: t3 =>
          ((b0 mod 8) * 262144 + (b1 mod 64) * 4096
           + (b2 mod 64) * 64 + b3 mod 64)%N :: utf8_decode t3
        end
      end
    end
  end.

Definition utf16_units (cp : N) : list char :=
  if (cp <? 65536)%N then [cp]
  else let v := (cp - 65536)%N in
       [(55296 + v / 1024)%N; (56320 + v mod 1024)%N].

Definition ustr (s : string) : str :=
  flat_map utf16_units
    (utf8_decode (map N_of_ascii (list_ascii_of_string s))).

Definition str_eqb (a b : str) : bool :=
  if list_eq_dec N.eq_dec a b then true else false.

Lemma str_eqb_eq a b : str_eqb a b = true <-> a = b.
Proof.
  unfold str_eqb. destruct (list_eq_dec N.eq_dec a b); split; congruence.
Qed.

(** [\s] of a pattern and the characters removed by [String.prototype.trim]:
    WhiteSpace and LineTerminator of ECMAScript. *)
Definition isWhiteSpace (c : char) : bool :=
  ((9 <=? c) && (c <=? 13) || (c =? 32) || (c =? 160) || (c =? 5760)
   || (8192 <=? c) && (c <=? 8202) || (c =? 8232) || (c =? 8233)
   || (c =? 8239) || (c =? 8287) || (c =? 12288) || (c =? 65279))%N.

Definition isLineTerminator (c : char) : bool :=
  ((c =? 10) || (c =? 13) || (c =? 8232) || (c =? 8233))%N.

(** [\d] *)
Definition isDigit (c : char) : bool := ((48 <=? c) && (c <=? 57))%N.

(** [.] without the [s] flag *)
Definition isDot (c : char) : bool := negb (isLineTerminator c).

Definition SPACE : char := 32%N.

Fixpoint dropWhile (p : char -> bool) (s : str) : str :=
  match s with
  | [] => []
  | a :: s' => if p a then dropWhile p s' else s
  end.

(** [String.prototype.trim] *)
Definition trimStart (s : str) : str := dropWhile isWhiteSpace s.
Definition trimEnd (s : str) : str := rev (dropWhile isWhiteSpace (rev s)).
Definition trim (s : str) : str := trimEnd (trimStart s).

Fixpoint isPrefixOf (p s : str) : bool :=
  match p, s with
  | [], _ => true
  | _ :: _, [] => false
  | a :: p', b :: s' => (a =? b)%N && isPrefixOf p' s'
  end.

(** [String.prototype.includes] *)
Fixpoint includes (s t : str) : bool :=
  isPrefixOf t s ||
  match s with
  | [] => false
  | _ :: s' => includes s' t
  end.

(* ===================================================================== *)
(** * 2. Regular expressions                                              *)
(* ===================================================================== *)

(** The pattern syntax the repository uses.  [Star g r] is [r*] ([g = true])
    or [r*?]; [Group i r] is the i-th capturing group; [EndAnchor] is [$]
    (no [m] flag anywhere in the sources). *)
Inductive regex : Type :=
| Empty
| Class (p : char -> bool)
| Seq (r1 r2 : regex)
| Alt (r1 r2 : regex)
| Star (greedy : bool) (r : regex)
| Group (i : nat) (r : regex)
| EndAnchor.

Declare Scope regex_scope.
Delimit Scope regex_scope with re.
Bind Scope regex_scope with regex.
Infix ";;" := Seq (at level 61, right associativity) : regex_scope.

Definition Plus (r : regex) : regex := Seq r (Star true r).
Definition Opt (r : regex) : regex := Alt r Empty.
Definition Chr (c : char) : regex := Class (N.eqb c).
Definition Lit (s : str) : regex := fold_right (fun c r => Seq (Chr c) r) Empty s.

(** Captures: the most recent binding of a group comes first. *)
Definition caps := list (nat * str).

Fixpoint capture (i : nat) (c : caps) : option str :=
  match c with
  | [] => None
  | (j, w) :: c' => if Nat.eqb i j then Some w else capture i c'
  end.

Fixpoint groups (r : regex) : list nat :=
  match r with
  | Seq r1 r2 | Alt r1 r2 => groups r1 ++ groups r2
  | Star _ r1 => groups r1
  | Group i r1 => i :: groups r1
  | _ => []
  end.

(** Entering an iteration of a quantifier resets the groups inside it. *)
Definition clear (gs : list nat) (c : caps) : caps :=
  filter (fun b => negb (existsb (Nat.eqb (fst b)) gs)) c.

Definition cont := str -> caps -> option (caps * str).

Definition orElse {A} (x y : option A) : option A :=
  match x with Some _ => x | None => y end.

(** RepeatMatcher with min = 0 and max = infinity: an iteration that
    consumes nothing is rejected, so [length s] iterations are enough. *)
Fixpoint repeat_matcher (step : str -> caps -> cont -> option (caps * str))
    (greedy : bool) (fuel : nat) (s : str) (c : caps) (k : cont)
    : option (caps * str) :=
  match fuel with
  | O => k s c
  | S fuel' =>
    let again :=
      step s c (fun s' c' =>
        if (length s' <? length s)%nat
        then repeat_matcher step greedy fuel' s' c' k
        else None) in
    if greedy then orElse again (k s c) else orElse (k s c) again
  end.

(** The backtracking matcher in continuation-passing style: [rmatch r s c k]
    matches [r] at the head of the remaining input [s] and then runs [k] on
    what is left; alternatives are tried in the order of the ECMAScript
    semantics and the first success wins. *)
Fixpoint rmatch (r : regex) (s : str) (c : caps) (k : cont)
    : option (caps * str) :=
  match r with
  | Empty => k s c
  | Class p =>
    match s with
    | a :: s' => if p a then k s' c else None
    | [] => None
    end
  | Seq r1 r2 => rmatch r1 s c (fun s' c' => rmatch r2 s' c' k)
  | Alt r1 r2 => orElse (rmatch r1 s c k) (rmatch r2 s c k)
  | Star g r1 =>
    repeat_matcher (fun s0 c0 k0 => rmatch r1 s0 (clear (groups r1) c0) k0)
      g (length s) s c k
  | Group i r1 =>
    rmatch r1 s c
      (fun s' c' => k s' ((i, firstn (length s - length s') s) :: c'))
  | EndAnchor =>
    match s with
    | [] => k s c
    | _ :: _ => None
    end
  end.

Definition accept : cont := fun s c => Some (c, s).

(** The result of [RegExp.prototype.exec]: where the match starts, the
    matched text, the captures and the input after the match. *)
Record match_result : Type := MatchResult {
  m_index : nat;
  m_whole : str;
  m_caps : caps;
  m_rest : str
}.

(** An unanchored search tries every start index from left to right. *)
Fixpoint search (r : regex) (i : nat) (s : str) : option match_result :=
  match rmatch r s [] accept with
  | Some (c, rest) =>
    Some (MatchResult i (firstn (length s - length rest) s) c rest)
  | None =>
    match s with
    | [] => None
    | _ :: s' => search r (S i) s'
    end
  end.

(** [s.match(r)] for a pattern without the [g] flag *)
Definition str_match (s : str) (r : regex) : option match_result :=
  search r 0 s.

(** [r.test(s)] for a pattern that starts with [^]: only index 0 is tried. *)
Definition test_from_start (r : regex) (s : str) : bool :=
  match rmatch r s [] accept with Some _ => true | None => false end.

(** [s.replace(r, rep)] for a pattern without the [g] flag and a
    replacement text without [$] references. *)
Definition replace_first (s : str) (r : regex) (rep : str) : str :=
  match str_match s r with
  | Some m => firstn (m_index m) s ++ rep ++ m_rest m
  | None => s
  end.

(** [s.replace(r, rep)] for a pattern with the [g] flag: matches are
    replaced from left to right; after an empty match the scan moves on by
    one code unit. *)
Fixpoint replace_all_loop (fuel : nat) (r : regex) (rep : str) (s : str)
    : str :=
  match fuel with
  | O => s
  | S fuel' =>
    match rmatch r s [] accept with
    | Some (_, rest) =>
      if (length rest <? length s)%nat
      then rep ++ replace_all_loop fuel' r rep rest
      else match s with
           | [] => rep
           | a :: s' => rep ++ a :: replace_all_loop fuel' r rep s'
           end
    | None =>
      match s with
      | [] => []
      | a :: s' => a :: replace_all_loop fuel' r rep s'
      end
    end
  end.

Definition replace_all (s : str) (r : regex) (rep : str) : str :=
  replace_all_loop (S (length s)) r rep s.

(** Character classes and the pieces the patterns are built from. *)
Definition ws : regex := Class isWhiteSpace.
Definition digit : regex := Class isDigit.
Definition anychar : regex := Class isDot.
Definition DOT : char := 46%N.
Definition COLON : char := 58%N.

(** [\d+\.?\d*] *)
Definition number_re : regex :=
  (Plus digit ;; Opt (Chr DOT) ;; Star true digit)%re.

(* ===================================================================== *)
(** * 3. Numbers                                                          *)
(* ===================================================================== *)

(** A JavaScript Number is an IEEE-754 binary64 value. *)
Definition prec : Z := 53.
Definition emax : Z := 1024.
Definition number : Type := spec_float.

(** The Number value for the decimal [(-1)^neg * m * 10^e]: the nearest
    binary64 value, ties to even. *)
Definition decimal_to_number (neg : bool) (m : N) (e : Z) : number :=
  match m with
  | N0 => S754_zero neg
  | Npos p =>
    match e with
    | Zneg k =>
      SFdiv prec emax (S754_finite neg p 0)
                      (S754_finite false (Pos.pow 10 k) 0)
    | _ => binary_normalize prec emax ((if neg then Zneg p else Zpos p) * 10 ^ e) 0 neg
    end
  end.

Fixpoint span (p : char -> bool) (s : str) : str * str :=
  match s with
  | [] => ([], [])
  | a :: s' =>
    if p a then let (x, y) := span p s' in (a :: x, y) else ([], s)
  end.

Definition digit_value (c : char) : N := (c - 48)%N.

Definition digits_value (ds : str) : N :=
  fold_left (fun acc c => (acc * 10 + digit_value c)%N) ds 0%N.

(** The exponent part [e[+-]?\d+] of a decimal literal, when present. *)
Definition exponent_part (s : str) : Z :=
  match s with
  | c :: t =>
    if ((c =? 101) || (c =? 69))%N then
      let '(neg, t') :=
        match t with
        | sg :: u =>
          if (sg =? 45)%N then (true, u)
          else if (sg =? 43)%N then (false, u) else (false, t)
        | [] => (false, t)
        end in
      let v := Z.of_N (digits_value (fst (span isDigit t'))) in
      if neg then (- v)%Z else v
    else 0%Z
  | [] => 0%Z
  end.

(** The global [parseFloat]: leading white space is skipped, the longest
    prefix that is a StrDecimalLiteral is read, and its mathematical value
    is rounded to a Number; [NaN] when there is no such prefix. *)
Definition parseFloat (input : str) : number :=
  let s0 := trimStart input in
  let '(neg, s1) :=
    match s0 with
    | c :: t =>
      if (c =? 45)%N then (true, t)
      else if (c =? 43)%N then (false, t) else (false, s0)
    | [] => (false, s0)
    end in
  if isPrefixOf (ustr "Infinity") s1 then S754_infinity neg
  else
    let '(ip, s2) := span isDigit s1 in
    let '(fp, s3) :=
      match s2 with
      | c :: t => if (c =? DOT)%N then span isDigit t else ([], s2)
      | [] => ([], s2)
      end in
    match ip ++ fp with
    | [] => S754_nan
    | ds =>
      decimal_to_number neg (digits_value ds)
        (exponent_part s3 - Z.of_nat (length fp))
    end.

(* ===================================================================== *)
(** * 4. Record parser: [parseDonationMessage]                            *)
(* ===================================================================== *)

Record DonationRecord : Type := mkDonation {
  paymentMethod : str;
  date : str;
  time : str;
  dateTime : str;
  comment : option str;       (* [None] is JavaScript's [null] *)
  grossAmount : number;
  tax : number;
  netAmount : number;
  currency : str
}.

Definition d2 : regex := (digit ;; digit)%re.
Definition d4 : regex := (digit ;; digit ;; digit ;; digit)%re.

(** The pattern of the source, group by group (a blank is written between
    a star and a closing parenthesis):
    [(ЕРИП|WebPay) \s+ (\d{2}\.\d{2}\.\d{4}) \s+ (\d{2}:\d{2}:\d{2}) \s+
     (.*?) \s+ (\d+\.?\d* ) \s+ (\d+\.?\d* ) \s+ (\d+\.?\d* ) \s+ BYN] *)
Definition donationPattern : regex :=
  (Group 1 (Alt (Lit (ustr "ЕРИП")) (Lit (ustr "WebPay"))) ;; Plus ws ;;
   Group 2 (d2 ;; Chr DOT ;; d2 ;; Chr DOT ;; d4) ;; Plus ws ;;
   Group 3 (d2 ;; Chr COLON ;; d2 ;; Chr COLON ;; d2) ;; Plus ws ;;
   Group 4 (Star false anychar) ;; Plus ws ;;
   Group 5 number_re ;; Plus ws ;;
   Group 6 number_re ;; Plus ws ;;
   Group 7 number_re ;; Plus ws ;;
   Lit (ustr "BYN"))%re.

(** [\s+ \d+\.?\d* (\s+\d+\.?\d* )* \s* $] *)
Definition strayNumbers : regex :=
  (Plus ws ;; number_re ;; Star true (Group 1 (Plus ws ;; number_re)) ;;
   Star true ws ;; EndAnchor)%re.

(** [messageText.trim().replace(/\s+/g, " ")] *)
Definition normalize (messageText : str) : str :=
  replace_all (trim messageText) (Plus ws) [SPACE].

(** An element of the array [String.prototype.match] returns; every group
    of [donationPattern] takes part in every match of it. *)
Definition group (i : nat) (m : match_result) : str :=
  match capture i (m_caps m) with
  | Some w => w
  | None => []
  end.

Definition cleanComment (commentPart : str) : option str :=
  let comment := trim commentPart in
  let comment := trim (replace_first comment strayNumbers []) in
  match comment with
  | [] => None
  | _ :: _ => Some comment
  end.

Definition parseDonationMessage (messageText : str) : option DonationRecord :=
  let text := normalize messageText in
  match str_match text donationPattern with
  | None => None
  | Some m =>
    Some {| paymentMethod := group 1 m;
            date := group 2 m;
            time := group 3 m;
            dateTime := group 2 m ++ [SPACE] ++ group 3 m;
            comment := cleanComment (group 4 m);
            grossAmount := parseFloat (group 5 m);
            tax := parseFloat (group 6 m);
            netAmount := parseFloat (group 7 m);
            currency := ustr "BYN" |}
  end.

Definition exampleLine : str :=
  ustr "ЕРИП 13.01.2025 13:46:08 К.Ю. (лошади сено) 30.00 0.06 29.94 BYN".

(* ===================================================================== *)
(** * 5. What a pattern matches                                           *)
(* ===================================================================== *)

(** [Matches r w rest c c']: the pattern [r] can match the word [w] when
    [rest] is the input that follows it, turning the captures [c] into
    [c'].  This is the declarative reading of a pattern; the matcher
    [rmatch] explores it in priority order. *)
Inductive Matches : regex -> str -> str -> caps -> caps -> Prop :=
| MEmpty rest c : Matches Empty [] rest c c
| MClass p a rest c : p a = true -> Matches (Class p) [a] rest c c
| MSeq r1 r2 w1 w2 rest c c1 c2 :
    Matches r1 w1 (w2 ++ rest) c c1 ->
    Matches r2 w2 rest c1 c2 ->
    Matches (Seq r1 r2) (w1 ++ w2) rest c c2
| MAltL r1 r2 w rest c c' :
    Matches r1 w rest c c' -> Matches (Alt r1 r2) w rest c c'
| MAltR r1 r2 w rest c c' :
    Matches r2 w rest c c' -> Matches (Alt r1 r2) w rest c c'
| MStarNil g r rest c : Matches (Star g r) [] rest c c
| MStarCons g r w1 w2 rest c c1 c2 :
    w1 <> [] ->
    Matches r w1 (w2 ++ rest) (clear (groups r) c) c1 ->
    Matches (Star g r) w2 rest c1 c2 ->
    Matches (Star g r) (w1 ++ w2) rest c c2
| MGroup i r w rest c c' :
    Matches r w rest c c' -> Matches (Group i r) w rest c ((i, w) :: c')
| MEnd c : Matches EndAnchor [] [] c c.

#[local] Hint Constructors Matches : core.

Lemma firstn_consumed (w rest : str) :
  firstn (length (w ++ rest) - length rest) (w ++ rest) = w.
Proof.
  rewrite length_app, Nat.add_sub.
  rewrite firstn_app, Nat.sub_diag, firstn_all. simpl. apply app_nil_r.
Qed.

Lemma orElse_Some {A} (x y : option A) v :
  orElse x y = Some v -> x = Some v \/ y = Some v.
Proof. destruct x; simpl; auto. Qed.

Lemma orElse_not_None {A} (x y : option A) :
  x <> None \/ y <> None -> orElse x y <> None.
Proof. destruct x; simpl; intros [H | H]; congruence. Qed.

Section MatcherTheory.

(** Soundness of one quantifier loop, given soundness of its body. *)
Lemma repeat_matcher_sound (r : regex) (g : bool)
  (IH : forall s c k x, rmatch r s c k = Some x ->
        exists w rest c', s = w ++ rest /\ Matches r w rest c c'
                          /\ k rest c' = Some x) :
  forall fuel s c k x,
    repeat_matcher (fun s0 c0 k0 => rmatch r s0 (clear (groups r) c0) k0)
      g fuel s c k = Some x ->
    exists w rest c', s = w ++ rest /\ Matches (Star g r) w rest c c'
                      /\ k rest c' = Some x.
Proof.
  induction fuel as [| fuel IHf]; intros s c k x H; simpl in H.
  - exists [], s, c. auto.
  - assert (Hk : k s c = Some x ->
              exists w rest c', s = w ++ rest /\
                Matches (Star g r) w rest c c' /\ k rest c' = Some x).
    { intros Hk. exists [], s, c. auto. }
    assert (Ha : forall again,
              again = rmatch r s (clear (groups r) c)
                (fun s' c' => if (length s' <? length s)%nat
                   then repeat_matcher
                          (fun s0 c0 k0 => rmatch r s0 (clear (groups r) c0) k0)
                          g fuel s' c' k
                   else None) ->
              again = Some x ->
              exists w rest c', s = w ++ rest /\
                Matches (Star g r) w rest c c' /\ k rest c' = Some x).
    { intros again -> Hr.
      apply IH in Hr. destruct Hr as (w1 & s1 & c1 & Hs & Hm & Hr).
      destruct (length s1 <? length s)%nat eqn:Hlt; [| discriminate].
      apply IHf in Hr. destruct Hr as (w2 & rest & c2 & Hs1 & Hm2 & Hr).
      subst s1. exists (w1 ++ w2), rest, c2.
      split; [rewrite <- app_assoc; exact Hs |]. split; [| exact Hr].
      apply MStarCons with (c1 := c1); auto.
      intros ->. simpl in Hs. subst s.
      apply Nat.ltb_lt in Hlt. lia. }
    destruct g; apply orElse_Some in H; destruct H as [H | H]; eauto.
Qed.

(** Soundness: a successful run of the matcher exhibits a match. *)
Theorem rmatch_sound (r : regex) :
  forall s c k x, rmatch r s c k = Some x ->
    exists w rest c', s = w ++ rest /\ Matches r w rest c c'
                      /\ k rest c' = Some x.
Proof.
  induction r as [| p | r1 IH1 r2 IH2 | r1 IH1 r2 IH2 | g r IH | i r IH |];
    intros s c k x H; simpl in H.
  - exists [], s, c. auto.
  - destruct s as [| a s']; [discriminate |].
    destruct (p a) eqn:Hp; [| discriminate].
    exists [a], s', c. auto.
  - apply IH1 in H. destruct H as (w1 & s1 & c1 & -> & Hm1 & H).
    apply IH2 in H. destruct H as (w2 & rest & c2 & -> & Hm2 & H).
    exists (w1 ++ w2), rest, c2. rewrite <- app_assoc. eauto.
  - apply orElse_Some in H. destruct H as [H | H].
    + apply IH1 in H. destruct H as (w & rest & c' & ? & ? & ?).
      exists w, rest, c'. auto.
    + apply IH2 in H. destruct H as (w & rest & c' & ? & ? & ?).
      exists w, rest, c'. auto.
  - eapply repeat_matcher_sound; eauto.
  - apply IH in H. destruct H as (w & rest & c' & -> & Hm & H).
    rewrite firstn_consumed in H.
    exists w, rest, ((i, w) :: c'). auto.
  - destruct s; [| discriminate]. exists [], [], c. auto.
Qed.

(** Completeness: whenever the pattern can match a prefix of the input and
    the continuation accepts what follows, the matcher succeeds (perhaps on
    another match of higher priority). *)
Theorem rmatch_complete (r : regex) :
  forall w rest c c', Matches r w rest c c' ->
  forall k c0, (forall c1, k rest c1 <> None) ->
    rmatch r (w ++ rest) c0 k <> None.
Proof.
  induction r as [| p | r1 IH1 r2 IH2 | r1 IH1 r2 IH2 | g r IH | i r IH |];
    intros w rest c c' HM k c0 Hk.
  - inversion HM; subst. simpl. apply Hk.
  - inversion HM as [| ? ? ? ? Hp | | | | | | |]; subst. simpl.
    rewrite Hp. apply Hk.
  - inversion HM; subst. simpl. rewrite <- app_assoc.
    eapply IH1; [eassumption |]. intros c3. eapply IH2; eauto.
  - simpl. apply orElse_not_None.
    inversion HM; subst; [left; eapply IH1 | right; eapply IH2]; eauto.
  - simpl.
    assert (G : forall fuel, (length (w ++ rest) <= fuel)%nat ->
      repeat_matcher (fun s0 c2 k0 => rmatch r s0 (clear (groups r) c2) k0)
        g fuel (w ++ rest) c0 k <> None); [| apply G; lia].
    clear -HM Hk IH. revert c0.
    remember (Star g r) as r0 eqn:E.
    induction HM; inversion E; subst; clear E; intros c0 fuel Hf.
    + simpl. destruct fuel; simpl; [apply Hk |].
      destruct g; apply orElse_not_None; [right | left]; apply Hk.
    + destruct fuel as [| fuel].
      { rewrite !length_app in Hf. destruct w1; [congruence | simpl in Hf; lia]. }
      simpl. rewrite <- app_assoc in *.
      assert (L : (length (w2 ++ rest) < length (w1 ++ w2 ++ rest))%nat).
      { rewrite (length_app w1). destruct w1; [congruence | simpl; lia]. }
      assert (A : rmatch r (w1 ++ w2 ++ rest) (clear (groups r) c0)
                (fun s' c' =>
                   if (length s' <? length (w1 ++ w2 ++ rest))%nat
                   then repeat_matcher
                     (fun s0 c3 k0 => rmatch r s0 (clear (groups r) c3) k0)
                     g fuel s' c' k
                   else None) <> None).
      { eapply IH; [eassumption |].
        intros c3. apply Nat.ltb_lt in L. rewrite L.
        apply IHHM2; auto.
        apply Nat.ltb_lt in L. simpl in Hf. lia. }
      destruct g; apply orElse_not_None; [left | right]; exact A.
  - inversion HM; subst. simpl. eapply IH; eauto.
  - inversion HM; subst. simpl. apply Hk.
Qed.

End MatcherTheory.

(** ** Unanchored search *)

(** The pattern matches at the head of [s]. *)
Definition MatchesAt (r : regex) (s : str) : Prop :=
  exists w rest c, s = w ++ rest /\ Matches r w rest [] c.

Lemma rmatch_accept_None (r : regex) (s : str) :
  rmatch r s [] accept = None -> ~ MatchesAt r s.
Proof.
  intros H (w & rest & c & -> & HM).
  eapply rmatch_complete in HM; [apply HM; exact H |].
  intros c1. unfold accept. discriminate.
Qed.

Lemma rmatch_accept_Some (r : regex) (s : str) c rest :
  rmatch r s [] accept = Some (c, rest) ->
  exists w, s = w ++ rest /\ Matches r w rest [] c.
Proof.
  intros H. apply rmatch_sound in H.
  destruct H as (w & rest' & c' & -> & HM & Hk).
  unfold accept in Hk. inversion Hk; subst. eauto.
Qed.

Lemma Some_inj {A} (x y : A) : Some x = Some y -> x = y.
Proof. congruence. Qed.

Lemma search_eq (r : regex) (i : nat) (s : str) :
  search r i s =
  match rmatch r s [] accept with
  | Some (c, rest) =>
    Some (MatchResult i (firstn (length s - length rest) s) c rest)
  | None =>
    match s with
    | [] => None
    | _ :: s' => search r (S i) s'
    end
  end.
Proof. destruct s; reflexivity. Qed.

(** A successful search returns the leftmost position where the pattern
    matches, together with a match there. *)
Lemma search_Some (r : regex) :
  forall s i m, search r i s = Some m ->
  exists pre,
    s = pre ++ m_whole m ++ m_rest m /\
    m_index m = (i + length pre)%nat /\
    Matches r (m_whole m) (m_rest m) [] (m_caps m) /\
    (forall pre1 s1, s = pre1 ++ s1 -> (length pre1 < length pre)%nat ->
       ~ MatchesAt r s1).
Proof.
  induction s as [| a s IH]; intros i m H; rewrite search_eq in H.
  - destruct (rmatch r [] [] accept) as [[c rest] |] eqn:E; [| discriminate].
    inversion H; subst; clear H. simpl.
    apply rmatch_accept_Some in E. destruct E as (w & E & HM).
    exists []. simpl. destruct w; [| discriminate]. simpl in E. subst rest.
    repeat split; auto. intros; simpl in *; lia.
  - destruct (rmatch r (a :: s) [] accept) as [[c rest] |] eqn:E.
    + apply Some_inj in H. subst m.
      apply rmatch_accept_Some in E. destruct E as (w & E & HM).
      exists []. cbn [m_whole m_index m_rest m_caps].
      rewrite E, firstn_consumed. simpl.
      repeat split; auto. intros; simpl in *; lia.
    + apply IH in H. destruct H as (pre & Hs & Hi & HM & Hleft).
      exists (a :: pre). simpl. repeat split; auto.
      * congruence.
      * lia.
      * intros pre1 s1 Hs1 Hlen. destruct pre1 as [| b pre1]; simpl in *.
        -- subst s1. apply rmatch_accept_None. exact E.
        -- inversion Hs1; subst. eapply Hleft; eauto. lia.
Qed.

Lemma search_None (r : regex) :
  forall s i, search r i s = None ->
  forall pre1 s1, s = pre1 ++ s1 -> ~ MatchesAt r s1.
Proof.
  induction s as [| a s IH]; intros i H pre1 s1 Hs; simpl in H.
  - destruct (rmatch r [] [] accept) as [[c rest] |] eqn:E; [discriminate |].
    destruct pre1; [| discriminate]. simpl in Hs. subst s1.
    apply rmatch_accept_None. exact E.
  - destruct (rmatch r (a :: s) [] accept) as [[c rest] |] eqn:E;
      [discriminate |].
    destruct pre1 as [| b pre1]; simpl in Hs.
    + subst s1. apply rmatch_accept_None. exact E.
    + inversion Hs; subst. eapply IH; eauto.
Qed.

Lemma search_complete (r : regex) (pre s1 : str) :
  MatchesAt r s1 -> str_match (pre ++ s1) r <> None.
Proof.
  intros HM H. unfold str_match in H.
  eapply search_None in H; eauto.
Qed.

Lemma replace_first_Some (s : str) (r : regex) (rep : str) m :
  str_match s r = Some m ->
  exists pre, s = pre ++ m_whole m ++ m_rest m /\
              replace_first s r rep = pre ++ rep ++ m_rest m.
Proof.
  intros H. unfold replace_first. rewrite H.
  apply search_Some in H. destruct H as (pre & Hs & Hi & _).
  exists pre. split; [exact Hs |].
  simpl in Hi. rewrite Hi. rewrite Hs at 1.
  rewrite firstn_app, Nat.sub_diag, firstn_all. simpl.
  rewrite app_nil_r. reflexivity.
Qed.

(** ** Inversion of matches, and the language of the building blocks *)

Lemma Matches_Seq_inv r1 r2 w rest c c2 :
  Matches (Seq r1 r2) w rest c c2 ->
  exists w1 w2 c1, w = w1 ++ w2 /\ Matches r1 w1 (w2 ++ rest) c c1
                   /\ Matches r2 w2 rest c1 c2.
Proof. inversion 1; subst; eauto 7. Qed.

Lemma Matches_Group_inv i r w rest c c2 :
  Matches (Group i r) w rest c c2 ->
  exists c1, c2 = (i, w) :: c1 /\ Matches r w rest c c1.
Proof. inversion 1; subst; eauto. Qed.

Lemma Matches_Alt_inv r1 r2 w rest c c2 :
  Matches (Alt r1 r2) w rest c c2 ->
  Matches r1 w rest c c2 \/ Matches r2 w rest c c2.
Proof. inversion 1; subst; auto. Qed.

Lemma Matches_Empty_inv w rest c c2 :
  Matches Empty w rest c c2 -> w = [] /\ c2 = c.
Proof. inversion 1; subst; auto. Qed.

Lemma Matches_Class_inv p w rest c c2 :
  Matches (Class p) w rest c c2 -> exists a, w = [a] /\ p a = true /\ c2 = c.
Proof. inversion 1; subst; eauto. Qed.

Lemma Matches_End_inv w rest c c2 :
  Matches EndAnchor w rest c c2 -> w = [] /\ rest = [] /\ c2 = c.
Proof. inversion 1; subst; auto. Qed.

Lemma clear_nil (c : caps) : clear [] c = c.
Proof.
  induction c as [| b c IH]; [reflexivity |].
  unfold clear in *. simpl in *. now rewrite IH.
Qed.

Lemma Matches_Chr a w rest c c2 :
  Matches (Chr a) w rest c c2 <-> w = [a] /\ c2 = c.
Proof.
  split.
  - intros H. apply Matches_Class_inv in H. destruct H as (b & -> & Hb & ->).
    apply N.eqb_eq in Hb. subst. auto.
  - intros [-> ->]. constructor. apply N.eqb_refl.
Qed.

Lemma Matches_Lit s w rest c c2 :
  Matches (Lit s) w rest c c2 <-> w = s /\ c2 = c.
Proof.
  revert w c c2. induction s as [| a s IH]; intros w c c2; simpl.
  - split; [apply Matches_Empty_inv |]. intros [-> ->]. constructor.
  - split.
    + intros H. apply Matches_Seq_inv in H.
      destruct H as (w1 & w2 & c1 & -> & H1 & H2).
      apply Matches_Chr in H1. destruct H1 as [-> ->].
      apply IH in H2. destruct H2 as [-> ->]. auto.
    + intros [-> ->]. change (a :: s) with ([a] ++ s).
      econstructor; [apply Matches_Chr; eauto | apply IH; auto].
Qed.

Lemma Matches_StarClass g p w rest c c2 :
  Matches (Star g (Class p)) w rest c c2 <-> forallb p w = true /\ c2 = c.
Proof.
  split.
  - intros H. remember (Star g (Class p)) as r eqn:E.
    induction H; inversion E; subst; clear E; auto.
    match goal with H : Matches (Class _) _ _ _ _ |- _ =>
      apply Matches_Class_inv in H; destruct H as (a & -> & Ha & ->) end.
    destruct IHMatches2 as [Hw ->]; auto.
    simpl. rewrite Ha, Hw, clear_nil. auto.
  - intros [H ->]. revert H. induction w as [| a w IH]; intros H.
    + constructor.
    + simpl in H. apply andb_true_iff in H. destruct H as [Ha Hw].
      change (a :: w) with ([a] ++ w).
      eapply MStarCons with (c1 := c); [discriminate | | auto].
      simpl. rewrite clear_nil. constructor. exact Ha.
Qed.

Lemma Matches_PlusClass p w rest c c2 :
  Matches (Plus (Class p)) w rest c c2 <->
  w <> [] /\ forallb p w = true /\ c2 = c.
Proof.
  unfold Plus. split.
  - intros H. apply Matches_Seq_inv in H.
    destruct H as (w1 & w2 & c1 & -> & H1 & H2).
    apply Matches_Class_inv in H1. destruct H1 as (a & -> & Ha & ->).
    apply Matches_StarClass in H2. destruct H2 as [Hw ->].
    simpl. rewrite Ha, Hw. repeat split; auto. discriminate.
  - intros (Hne & H & ->). destruct w as [| a w]; [congruence |].
    simpl in H. apply andb_true_iff in H. destruct H as [Ha Hw].
    change (a :: w) with ([a] ++ w).
    econstructor; [constructor; exact Ha | apply Matches_StarClass; auto].
Qed.

(** A run of white space, and a numeral [\d+\.?\d*]. *)
Definition WsRun (w : str) : Prop :=
  w <> [] /\ forallb isWhiteSpace w = true.

Definition Decimal (a : str) : Prop :=
  exists ip fp, ip <> [] /\ forallb isDigit ip = true /\
                forallb isDigit fp = true /\
                (a = ip ++ fp \/ a = ip ++ DOT :: fp).

Lemma Matches_ws_plus w rest c c2 :
  Matches (Plus ws) w rest c c2 <-> WsRun w /\ c2 = c.
Proof. unfold ws, WsRun. rewrite Matches_PlusClass. tauto. Qed.

Lemma Matches_number w rest c c2 :
  Matches number_re w rest c c2 <-> Decimal w /\ c2 = c.
Proof.
  unfold number_re, digit, Opt. split.
  - intros H. apply Matches_Seq_inv in H.
    destruct H as (ip & w2 & c1 & -> & H1 & H).
    apply Matches_PlusClass in H1. destruct H1 as (Hne & Hip & ->).
    apply Matches_Seq_inv in H.
    destruct H as (dt & fp & c1 & -> & H2 & H3).
    apply Matches_StarClass in H3. destruct H3 as [Hfp ->].
    apply Matches_Alt_inv in H2. destruct H2 as [H2 | H2].
    + apply Matches_Chr in H2. destruct H2 as [-> ->].
      split; auto. exists ip, fp. simpl. auto.
    + apply Matches_Empty_inv in H2. destruct H2 as [-> ->].
      split; auto. exists ip, fp. simpl. auto.
  - intros [(ip & fp & Hne & Hip & Hfp & [-> | ->]) ->].
    + econstructor; [apply Matches_PlusClass; eauto |].
      change fp with ([] ++ fp).
      econstructor; [apply MAltR; constructor | apply Matches_StarClass; auto].
    + econstructor; [apply Matches_PlusClass; eauto |].
      change (DOT :: fp) with ([DOT] ++ fp).
      econstructor; [apply MAltL; apply Matches_Chr; eauto
                    | apply Matches_StarClass; auto].
Qed.

(* ===================================================================== *)
(** * 6. The donation shape                                               *)
(* ===================================================================== *)

Definition Digits (n : nat) (w : str) : Prop :=
  length w = n /\ forallb isDigit w = true.

Definition PaymentToken (pm : str) : Prop :=
  pm = ustr "ЕРИП" \/ pm = ustr "WebPay".

(** [DD.MM.YYYY] and [HH:MM:SS] *)
Definition DateText (d : str) : Prop :=
  exists dd mm yyyy, Digits 2 dd /\ Digits 2 mm /\ Digits 4 yyyy /\
                     d = dd ++ [DOT] ++ mm ++ [DOT] ++ yyyy.

Definition TimeText (t : str) : Prop :=
  exists hh mi ss, Digits 2 hh /\ Digits 2 mi /\ Digits 2 ss /\
                   t = hh ++ [COLON] ++ mi ++ [COLON] ++ ss.

Definition FreeText (cm : str) : Prop := forallb isDot cm = true.

(** The fixed shape of a donation line: payment-method token, date, time,
    free text, three decimal amounts and the currency literal, separated by
    white space; [w] is the matched part of the text. *)
Inductive DonationMatch (w : str)
  (pm d t cm a1 a2 a3 : str) : Prop :=
| donation_match w1 w2 w3 w4 w5 w6 w7 :
    w = pm ++ w1 ++ d ++ w2 ++ t ++ w3 ++ cm ++ w4 ++ a1 ++ w5 ++ a2 ++ w6
           ++ a3 ++ w7 ++ ustr "BYN" ->
    PaymentToken pm -> DateText d -> TimeText t -> FreeText cm ->
    Decimal a1 -> Decimal a2 -> Decimal a3 ->
    WsRun w1 -> WsRun w2 -> WsRun w3 -> WsRun w4 -> WsRun w5 -> WsRun w6 ->
    WsRun w7 ->
    DonationMatch w pm d t cm a1 a2 a3.

(** A text has the donation shape when some part of it does. *)
Definition DonationShape (text : str) (pm d t cm a1 a2 a3 : str) : Prop :=
  exists pre w post, text = pre ++ w ++ post /\
                     DonationMatch w pm d t cm a1 a2 a3.

Lemma Matches_d2 w rest c c2 :
  Matches d2 w rest c c2 <-> Digits 2 w /\ c2 = c.
Proof.
  unfold d2, digit, Digits. split.
  - intros H. apply Matches_Seq_inv in H.
    destruct H as (w1 & w2 & c1 & -> & H1 & H2).
    apply Matches_Class_inv in H1. destruct H1 as (a & -> & Ha & ->).
    apply Matches_Class_inv in H2. destruct H2 as (b & -> & Hb & ->).
    simpl. rewrite Ha, Hb. auto.
  - intros [[Hl Hd] ->].
    destruct w as [| a [| b [| x w]]]; try discriminate.
    simpl in Hd. rewrite andb_true_r in Hd.
    apply andb_true_iff in Hd. destruct Hd as [Ha Hb].
    change [a; b] with ([a] ++ [b]).
    apply MSeq with (c1 := c); constructor; assumption.
Qed.

Lemma Matches_d4 w rest c c2 :
  Matches d4 w rest c c2 <-> Digits 4 w /\ c2 = c.
Proof.
  unfold d4, digit, Digits. split.
  - intros H.
    repeat match goal with
    | H : Matches (Seq _ _) _ _ _ _ |- _ =>
      apply Matches_Seq_inv in H; destruct H as (? & ? & ? & -> & ? & ?)
    | H : Matches (Class _) _ _ _ _ |- _ =>
      apply Matches_Class_inv in H; destruct H as (? & -> & ? & ->)
    end.
    simpl.
    repeat match goal with H : isDigit _ = true |- _ => rewrite H; clear H end.
    auto.
  - intros [[Hl Hd] ->].
    destruct w as [| a [| b [| x [| y [| z w]]]]]; try discriminate.
    simpl in Hd. rewrite andb_true_r in Hd.
    do 3 (apply andb_true_iff in Hd; destruct Hd as [? Hd]).
    change [a; b; x; y] with ([a] ++ [b] ++ [x] ++ [y]).
    repeat (apply MSeq with (c1 := c); [constructor; assumption |]).
    constructor; assumption.
Qed.

Lemma Matches_dots w rest c c2 :
  Matches (Star false anychar) w rest c c2 <-> FreeText w /\ c2 = c.
Proof. unfold anychar, FreeText. apply Matches_StarClass. Qed.

Ltac inv_matches :=
  repeat match goal with
  | H : Matches (Plus ws) _ _ _ _ |- _ =>
    apply Matches_ws_plus in H; destruct H as [? ->]
  | H : Matches number_re _ _ _ _ |- _ =>
    apply Matches_number in H; destruct H as [? ->]
  | H : Matches d2 _ _ _ _ |- _ =>
    apply Matches_d2 in H; destruct H as [? ->]
  | H : Matches d4 _ _ _ _ |- _ =>
    apply Matches_d4 in H; destruct H as [? ->]
  | H : Matches (Star false anychar) _ _ _ _ |- _ =>
    apply Matches_dots in H; destruct H as [? ->]
  | H : Matches (Star true ws) _ _ _ _ |- _ =>
    apply Matches_StarClass in H; destruct H as [? ->]
  | H : Matches (Lit _) _ _ _ _ |- _ =>
    apply Matches_Lit in H; destruct H as [-> ->]
  | H : Matches (Chr _) _ _ _ _ |- _ =>
    apply Matches_Chr in H; destruct H as [-> ->]
  | H : Matches EndAnchor _ _ _ _ |- _ =>
    apply Matches_End_inv in H; destruct H as (-> & ? & ->)
  | H : Matches (Group _ _) _ _ _ _ |- _ =>
    apply Matches_Group_inv in H; destruct H as (? & -> & H)
  | H : Matches (Seq _ _) _ _ _ _ |- _ =>
    apply Matches_Seq_inv in H; destruct H as (? & ? & ? & -> & ? & ?)
  end.

(** The captures of a match of [donationPattern], innermost last. *)
Definition donationCaps (pm d t cm a1 a2 a3 : str) : caps :=
  [(7, a3); (6, a2); (5, a1); (4, cm); (3, t); (2, d); (1, pm)]%nat.

Lemma donationPattern_sound w rest c :
  Matches donationPattern w rest [] c ->
  exists pm d t cm a1 a2 a3,
    DonationMatch w pm d t cm a1 a2 a3 /\
    c = donationCaps pm d t cm a1 a2 a3.
Proof.
  unfold donationPattern. intros H. inv_matches.
  match goal with H : Matches (Alt _ _) ?pm _ _ ?c2 |- _ =>
    assert (Hpm : PaymentToken pm /\ c2 = [])
  end.
  { apply Matches_Alt_inv in H. destruct H as [H | H]; inv_matches;
      (split; [| reflexivity]); [left | right]; reflexivity. }
  destruct Hpm as [Hpm ->].
  do 7 eexists. split; [| reflexivity].
  eapply donation_match; [reflexivity | ..]; try eassumption.
  - refine (ex_intro _ _ (ex_intro _ _ (ex_intro _ _
      (conj _ (conj _ (conj _ eq_refl)))))); assumption.
  - refine (ex_intro _ _ (ex_intro _ _ (ex_intro _ _
      (conj _ (conj _ (conj _ eq_refl)))))); assumption.
Qed.

Ltac build_leaf :=
  first
  [ apply Matches_ws_plus; split; [eassumption | reflexivity]
  | apply Matches_number; split; [eassumption | reflexivity]
  | apply Matches_d2; split; [eassumption | reflexivity]
  | apply Matches_d4; split; [eassumption | reflexivity]
  | apply Matches_dots; split; [eassumption | reflexivity]
  | apply Matches_Chr; split; reflexivity
  | apply Matches_Lit; split; reflexivity ].

Ltac build_matches :=
  repeat first
  [ build_leaf
  | apply MGroup
  | eapply MSeq ].

Lemma donationPattern_complete w pm d t cm a1 a2 a3 rest :
  DonationMatch w pm d t cm a1 a2 a3 ->
  Matches donationPattern w rest [] (donationCaps pm d t cm a1 a2 a3).
Proof.
  intros [w1 w2 w3 w4 w5 w6 w7 -> Hpm
            (dd & mm & yy & Hdd & Hmm & Hyy & ->)
            (hh & mi & ss & Hhh & Hmi & Hss & ->)
            Hcm Ha1 Ha2 Ha3 H1 H2 H3 H4 H5 H6 H7].
  unfold donationPattern, donationCaps.
  eapply MSeq.
  { apply MGroup.
    destruct Hpm as [-> | ->]; [apply MAltL | apply MAltR]; build_leaf. }
  build_matches.
Qed.

Lemma DonationShape_accepted text pm d t cm a1 a2 a3 :
  DonationShape text pm d t cm a1 a2 a3 ->
  str_match text donationPattern <> None.
Proof.
  intros (pre & w & post & -> & H).
  apply search_complete. exists w, post. eexists. split; [reflexivity |].
  apply donationPattern_complete. exact H.
Qed.

Lemma str_match_donation text m :
  str_match text donationPattern = Some m ->
  exists pm d t cm a1 a2 a3,
    DonationShape text pm d t cm a1 a2 a3 /\
    m_caps m = donationCaps pm d t cm a1 a2 a3.
Proof.
  intros H. apply search_Some in H. destruct H as (pre & Hs & _ & HM & _).
  apply donationPattern_sound in HM.
  destruct HM as (pm & d & t & cm & a1 & a2 & a3 & HD & Hc).
  exists pm, d, t, cm, a1, a2, a3. split; [| exact Hc].
  exists pre, (m_whole m), (m_rest m). auto.
Qed.

(* ===================================================================== *)
(** * 7. [parseFloat] on the numerals of the pattern                      *)
(* ===================================================================== *)

(** The Number a numeral [\d+\.?\d*] denotes: its digits read as a natural
    number, scaled down by ten for every digit after the point, and rounded
    to the nearest binary64 value. *)
Definition fractionLength (a : str) : nat :=
  length (snd (span isDigit a)) - 1.

Definition exactNumber (a : str) : number :=
  decimal_to_number false (digits_value (filter isDigit a))
                    (- Z.of_nat (fractionLength a)).

Lemma isDigit_bounds c : isDigit c = true -> (48 <= c <= 57)%N.
Proof.
  unfold isDigit. intros H. apply andb_true_iff in H.
  destruct H as [H1 H2]. apply N.leb_le in H1, H2. lia.
Qed.

Lemma digit_not_ws c : isDigit c = true -> isWhiteSpace c = false.
Proof.
  intros H. apply isDigit_bounds in H. unfold isWhiteSpace.
  repeat (apply orb_false_iff; split);
    try (apply N.eqb_neq; lia);
    apply andb_false_iff; [right | left]; apply N.leb_gt; lia.
Qed.

Lemma digit_neqb c d :
  isDigit c = true -> (d < 48 \/ 57 < d)%N -> (c =? d)%N = false.
Proof. intros H Hd. apply isDigit_bounds in H. apply N.eqb_neq. lia. Qed.

Lemma span_all p s : forallb p s = true -> span p s = (s, []).
Proof.
  induction s as [| a s IH]; simpl; [reflexivity |].
  intros H. apply andb_true_iff in H. destruct H as [Ha Hs].
  rewrite Ha, IH; auto.
Qed.

Lemma span_stop p l1 x l2 :
  forallb p l1 = true -> p x = false ->
  span p (l1 ++ x :: l2) = (l1, x :: l2).
Proof.
  induction l1 as [| a l1 IH]; simpl; intros H Hx.
  - now rewrite Hx.
  - apply andb_true_iff in H. destruct H as [Ha Hs].
    rewrite Ha, IH; auto.
Qed.

Lemma filter_all {A} (p : A -> bool) l : forallb p l = true -> filter p l = l.
Proof.
  induction l as [| a l IH]; simpl; [reflexivity |].
  intros H. apply andb_true_iff in H. destruct H as [Ha Hs].
  rewrite Ha, IH; auto.
Qed.

Lemma Infinity_units :
  ustr "Infinity" = [73; 110; 102; 105; 110; 105; 116; 121]%N.
Proof. reflexivity. Qed.

Lemma parseFloat_digit_head x s :
  isDigit x = true ->
  parseFloat (x :: s) =
    let '(ip, s2) := span isDigit (x :: s) in
    let '(fp, s3) :=
      match s2 with
      | c :: t => if (c =? DOT)%N then span isDigit t else ([], s2)
      | [] => ([], s2)
      end in
    match ip ++ fp with
    | [] => S754_nan
    | ds =>
      decimal_to_number false (digits_value ds)
        (exponent_part s3 - Z.of_nat (length fp))
    end.
Proof.
  intros Hx. unfold parseFloat, trimStart.
  cbn [dropWhile]. rewrite (digit_not_ws _ Hx).
  rewrite (@digit_neqb x 45%N Hx), (@digit_neqb x 43%N Hx) by lia.
  rewrite Infinity_units. cbn [isPrefixOf].
  rewrite N.eqb_sym, (@digit_neqb x 73%N Hx) by lia. reflexivity.
Qed.

(** On a numeral of the pattern [parseFloat] reads every character: the
    result is the exact decimal, rounded once. *)
Lemma parseFloat_Decimal a : Decimal a -> parseFloat a = exactNumber a.
Proof.
  intros (ip & fp & Hne & Hip & Hfp & Ha).
  destruct ip as [| x ip]; [congruence |]. clear Hne.
  assert (Hx : isDigit x = true).
  { simpl in Hip. apply andb_true_iff in Hip. tauto. }
  unfold exactNumber, fractionLength.
  destruct Ha as [-> | ->].
  - assert (Hall : forallb isDigit ((x :: ip) ++ fp) = true).
    { rewrite forallb_app, Hip, Hfp. reflexivity. }
    change ((x :: ip) ++ fp) with (x :: ip ++ fp) in *.
    rewrite parseFloat_digit_head by exact Hx.
    rewrite (span_all _ _ Hall), (filter_all _ _ Hall).
    cbn [snd length Nat.sub app]. rewrite app_nil_r. reflexivity.
  - change ((x :: ip) ++ DOT :: fp) with (x :: ip ++ DOT :: fp).
    rewrite parseFloat_digit_head by exact Hx.
    change (x :: ip ++ DOT :: fp) with ((x :: ip) ++ DOT :: fp).
    rewrite (span_stop isDigit (x :: ip) DOT fp Hip eq_refl).
    rewrite N.eqb_refl, (span_all _ _ Hfp).
    rewrite filter_app, (filter_all _ _ Hip).
    cbn [filter snd length]. change (isDigit DOT) with false. cbn iota.
    rewrite (filter_all _ _ Hfp).
    replace (S (length fp) - 1)%nat with (length fp) by lia.
    cbn [app exponent_part]. reflexivity.
Qed.

(* ===================================================================== *)
(** * 8. Properties of the record parser                                  *)
(* ===================================================================== *)

(** The Number a decimal literal of the JavaScript source denotes. *)
Definition numberLiteral (s : string) : number := exactNumber (ustr s).

Definition exampleRecord : DonationRecord :=
  {| paymentMethod := ustr "ЕРИП";
     date := ustr "13.01.2025";
     time := ustr "13:46:08";
     dateTime := ustr "13.01.2025 13:46:08";
     comment := Some (ustr "К.Ю. (лошади сено)");
     grossAmount := numberLiteral "30.00";
     tax := numberLiteral "0.06";
     netAmount := numberLiteral "29.94";
     currency := ustr "BYN" |}.

Lemma parse_of_match line m pm d t cm a1 a2 a3 :
  str_match (normalize line) donationPattern = Some m ->
  m_caps m = donationCaps pm d t cm a1 a2 a3 ->
  parseDonationMessage line =
    Some {| paymentMethod := pm; date := d; time := t;
            dateTime := d ++ [SPACE] ++ t;
            comment := cleanComment cm;
            grossAmount := parseFloat a1;
            tax := parseFloat a2;
            netAmount := parseFloat a3;
            currency := ustr "BYN" |}.
Proof.
  intros E Hc. unfold parseDonationMessage. rewrite E.
  unfold group. rewrite Hc. reflexivity.
Qed.

Lemma DonationShape_decimals text pm d t cm a1 a2 a3 :
  DonationShape text pm d t cm a1 a2 a3 ->
  Decimal a1 /\ Decimal a2 /\ Decimal a3.
Proof. intros (pre & w & post & _ & []). auto. Qed.

(** C1.  Every line whose normalised text has the donation shape is parsed
    into a record, and the record's [grossAmount], [tax] and [netAmount]
    are the three matched numerals converted exactly (one rounding to the
    nearest binary64 value); the example line of the specification parses
    to the record the specification gives, whose amounts are the Numbers
    30, 0.06 and 29.94. *)
Theorem parseDonationMessage_amounts_exact :
  (forall line pm d t cm a1 a2 a3,
     DonationShape (normalize line) pm d t cm a1 a2 a3 ->
     exists r pm' d' t' cm' g x n,
       parseDonationMessage line = Some r /\
       DonationShape (normalize line) pm' d' t' cm' g x n /\
       paymentMethod r = pm' /\ date r = d' /\ time r = t' /\
       currency r = ustr "BYN" /\
       grossAmount r = exactNumber g /\
       tax r = exactNumber x /\
       netAmount r = exactNumber n) /\
  parseDonationMessage exampleLine = Some exampleRecord /\
  grossAmount exampleRecord = S754_finite false 8444249301319680 (-48) /\
  tax exampleRecord = S754_finite false 8646911284551352 (-57) /\
  netAmount exampleRecord = S754_finite false 8427360802717041 (-48).
Proof.
  split.
  - intros line pm d t cm a1 a2 a3 HS.
    destruct (str_match (normalize line) donationPattern) as [m |] eqn:E.
    + destruct (str_match_donation _ E)
        as (pm' & d' & t' & cm' & g & x & n & HS' & Hc).
      destruct (DonationShape_decimals HS') as (Hg & Hx & Hn).
      eexists. exists pm', d', t', cm', g, x, n.
      split; [eapply parse_of_match; eauto |]. cbn.
      rewrite !parseFloat_Decimal by assumption. repeat split; auto.
    + exfalso. eapply DonationShape_accepted; eauto.
  - repeat split; vm_compute; reflexivity.
Qed.

Lemma parseDonationMessage_amounts_exact_witness :
  exists r pm' d' t' cm' g x n,
    parseDonationMessage exampleLine = Some r /\
    DonationShape (normalize exampleLine) pm' d' t' cm' g x n /\
    paymentMethod r = pm' /\ date r = d' /\ time r = t' /\
    currency r = ustr "BYN" /\
    grossAmount r = exactNumber g /\
    tax r = exactNumber x /\
    netAmount r = exactNumber n.
Proof.
  apply (proj1 parseDonationMessage_amounts_exact exampleLine
           (ustr "ЕРИП") (ustr "13.01.2025") (ustr "13:46:08")
           (ustr "К.Ю. (лошади сено)")
           (ustr "30.00") (ustr "0.06") (ustr "29.94")).
  exists [], exampleLine, []. split; [vm_compute; reflexivity |].
  apply donation_match with (w1 := [SPACE]) (w2 := [SPACE]) (w3 := [SPACE])
    (w4 := [SPACE]) (w5 := [SPACE]) (w6 := [SPACE]) (w7 := [SPACE]).
  - vm_compute; reflexivity.
  - left; reflexivity.
  - exists (ustr "13"), (ustr "01"), (ustr "2025").
    repeat split; vm_compute; reflexivity.
  - exists (ustr "13"), (ustr "46"), (ustr "08").
    repeat split; vm_compute; reflexivity.
  - vm_compute; reflexivity.
  - exists (ustr "30"), (ustr "00").
    repeat split; try (vm_compute; reflexivity); [discriminate | right; reflexivity].
  - exists (ustr "0"), (ustr "06").
    repeat split; try (vm_compute; reflexivity); [discriminate | right; reflexivity].
  - exists (ustr "29"), (ustr "94").
    repeat split; try (vm_compute; reflexivity); [discriminate | right; reflexivity].
  - split; [discriminate | reflexivity].
  - split; [discriminate | reflexivity].
  - split; [discriminate | reflexivity].
  - split; [discriminate | reflexivity].
  - split; [discriminate | reflexivity].
  - split; [discriminate | reflexivity].
  - split; [discriminate | reflexivity].
Defined.

(* ===================================================================== *)
(** * 9. White-space normalisation                                        *)
(* ===================================================================== *)

(** The specification's wording of the normal form: leading and trailing
    white space trimmed and every white-space run inside replaced by one
    space.  [squeeze inRun] copies the text and writes a single space at the
    start of each run. *)
Fixpoint squeeze (inRun : bool) (s : str) : str :=
  match s with
  | [] => []
  | a :: s' =>
    if isWhiteSpace a
    then if inRun then squeeze true s' else SPACE :: squeeze true s'
    else a :: squeeze false s'
  end.

Definition collapsed (s : str) : str := squeeze false (trim s).

Definition starts_ws (s : str) : bool :=
  match s with
  | [] => false
  | a :: _ => isWhiteSpace a
  end.

Fixpoint ends_ws (s : str) : bool :=
  match s with
  | [] => false
  | a :: s' =>
    match s' with
    | [] => isWhiteSpace a
    | _ :: _ => ends_ws s'
    end
  end.

(** Every white-space character is a space that no white space follows. *)
Fixpoint single (s : str) : Prop :=
  match s with
  | [] => True
  | a :: s' =>
    (isWhiteSpace a = true -> a = SPACE /\ starts_ws s' = false) /\ single s'
  end.

Lemma repeat_ws_greedy fuel : forall s c,
  (length s <= fuel)%nat ->
  repeat_matcher (fun s0 c0 k0 => rmatch ws s0 (clear (groups ws) c0) k0)
    true fuel s c accept = Some (c, dropWhile isWhiteSpace s).
Proof.
  induction fuel as [| fuel IH]; intros s c Hl.
  - destruct s; [reflexivity | simpl in Hl; lia].
  - cbn [repeat_matcher]. destruct s as [| a s]; [reflexivity |].
    cbn [rmatch ws dropWhile groups]. rewrite clear_nil.
    destruct (isWhiteSpace a) eqn:Ha; [| reflexivity].
    replace (length s <? length (a :: s))%nat with true
      by (symmetry; apply Nat.ltb_lt; simpl; lia).
    rewrite IH by (simpl in Hl; lia). reflexivity.
Qed.

Lemma rmatch_ws_plus (s : str) :
  rmatch (Plus ws) s [] accept =
  match s with
  | [] => None
  | a :: s' =>
    if isWhiteSpace a then Some ([], dropWhile isWhiteSpace s') else None
  end.
Proof.
  unfold Plus. cbn [rmatch]. destruct s as [| a s]; [reflexivity |].
  unfold ws at 1. cbn [rmatch].
  destruct (isWhiteSpace a); [| reflexivity].
  apply repeat_ws_greedy. lia.
Qed.

Lemma length_dropWhile p s : (length (dropWhile p s) <= length s)%nat.
Proof.
  induction s as [| a s IH]; simpl; [lia |].
  destruct (p a); simpl; lia.
Qed.

Lemma squeeze_true_dropWhile s :
  squeeze true s = squeeze false (dropWhile isWhiteSpace s).
Proof.
  induction s as [| a s IH]; simpl; [reflexivity |].
  destruct (isWhiteSpace a) eqn:Ha; [exact IH |].
  simpl. now rewrite Ha.
Qed.

(** The global replacement of [\s+] by one space is [squeeze]. *)
Lemma replace_ws_squeeze fuel : forall s,
  (length s < fuel)%nat ->
  replace_all_loop fuel (Plus ws) [SPACE] s = squeeze false s.
Proof.
  induction fuel as [| fuel IH]; intros s Hl; [lia |].
  cbn [replace_all_loop]. rewrite rmatch_ws_plus.
  destruct s as [| a s]; [reflexivity |].
  cbn [squeeze]. destruct (isWhiteSpace a) eqn:Ha.
  - pose proof (length_dropWhile isWhiteSpace s) as Hd.
    replace (length (dropWhile isWhiteSpace s) <? length (a :: s))%nat
      with true by (symmetry; apply Nat.ltb_lt; simpl; lia).
    rewrite IH by (simpl in Hl; lia).
    rewrite squeeze_true_dropWhile. reflexivity.
  - rewrite IH by (simpl in Hl; lia). reflexivity.
Qed.

Lemma normalize_collapsed s : normalize s = collapsed s.
Proof.
  unfold normalize, collapsed, replace_all.
  apply replace_ws_squeeze. lia.
Qed.

Lemma dropWhile_id s : starts_ws s = false -> dropWhile isWhiteSpace s = s.
Proof. destruct s as [| a s]; simpl; [reflexivity |]. now intros ->. Qed.

Lemma starts_ws_dropWhile s : starts_ws (dropWhile isWhiteSpace s) = false.
Proof.
  induction s as [| a s IH]; simpl; [reflexivity |].
  destruct (isWhiteSpace a) eqn:Ha; [exact IH | simpl; exact Ha].
Qed.

Lemma dropWhile_app_stop p l a :
  p a = false -> dropWhile p (l ++ [a]) = dropWhile p l ++ [a].
Proof.
  intros Ha. induction l as [| b l IH]; simpl.
  - now rewrite Ha.
  - destruct (p b); [exact IH | reflexivity].
Qed.

Lemma trimEnd_cons a x :
  isWhiteSpace a = false -> trimEnd (a :: x) = a :: trimEnd x.
Proof.
  intros Ha. unfold trimEnd. simpl rev.
  rewrite dropWhile_app_stop by exact Ha.
  rewrite rev_app_distr. reflexivity.
Qed.

Lemma starts_ws_trimEnd x : starts_ws x = false -> starts_ws (trimEnd x) = false.
Proof.
  destruct x as [| a x]; [reflexivity |]. simpl. intros Ha.
  rewrite trimEnd_cons by exact Ha. exact Ha.
Qed.

Lemma starts_ws_app l m : l <> [] -> starts_ws (l ++ m) = starts_ws l.
Proof. destruct l; [congruence | reflexivity]. Qed.

Lemma ends_ws_rev s : ends_ws s = starts_ws (rev s).
Proof.
  induction s as [| a s IH]; [reflexivity |].
  destruct s as [| b s]; [reflexivity |].
  change (ends_ws (a :: b :: s)) with (ends_ws (b :: s)). rewrite IH.
  change (rev (a :: b :: s)) with (rev (b :: s) ++ [a]).
  rewrite starts_ws_app; [reflexivity |].
  simpl. destruct (rev s); discriminate.
Qed.

Lemma ends_ws_trimEnd x : ends_ws (trimEnd x) = false.
Proof.
  unfold trimEnd. rewrite ends_ws_rev, rev_involutive.
  apply starts_ws_dropWhile.
Qed.

Lemma trimEnd_id u : ends_ws u = false -> trimEnd u = u.
Proof.
  intros H. unfold trimEnd. rewrite ends_ws_rev in H.
  rewrite dropWhile_id by exact H. apply rev_involutive.
Qed.

Lemma trim_id u : starts_ws u = false -> ends_ws u = false -> trim u = u.
Proof.
  intros H1 H2. unfold trim, trimStart.
  rewrite dropWhile_id by exact H1. apply trimEnd_id. exact H2.
Qed.

Lemma starts_ws_trim s : starts_ws (trim s) = false.
Proof. apply starts_ws_trimEnd, starts_ws_dropWhile. Qed.

Lemma ends_ws_trim s : ends_ws (trim s) = false.
Proof. apply ends_ws_trimEnd. Qed.

Lemma starts_ws_squeeze_false t : starts_ws (squeeze false t) = starts_ws t.
Proof.
  destruct t as [| a t]; [reflexivity |]. simpl.
  destruct (isWhiteSpace a) eqn:Ha; simpl; [reflexivity | exact Ha].
Qed.

Lemma starts_ws_squeeze_true t : starts_ws (squeeze true t) = false.
Proof.
  induction t as [| a t IH]; [reflexivity |]. simpl.
  destruct (isWhiteSpace a) eqn:Ha; simpl; [exact IH | exact Ha].
Qed.

Lemma squeeze_nonempty t : forall b,
  t <> [] -> ends_ws t = false -> squeeze b t <> [].
Proof.
  induction t as [| a t IH]; intros b Hne He; [congruence |].
  simpl. destruct (isWhiteSpace a) eqn:Ha; [| discriminate].
  destruct t as [| c t]; [simpl in He; congruence |].
  destruct b; [| discriminate].
  apply IH; [discriminate | exact He].
Qed.

Lemma ends_ws_squeeze t : forall b,
  ends_ws t = false -> ends_ws (squeeze b t) = false.
Proof.
  induction t as [| a t IH]; intros b He; [reflexivity |].
  destruct t as [| c t].
  - simpl in He. simpl. rewrite He. simpl. exact He.
  - change (ends_ws (a :: c :: t)) with (ends_ws (c :: t)) in He.
    change (squeeze b (a :: c :: t)) with
      (if isWhiteSpace a
       then if b then squeeze true (c :: t) else SPACE :: squeeze true (c :: t)
       else a :: squeeze false (c :: t)).
    assert (N : forall b', squeeze b' (c :: t) <> []).
    { intros b'. apply squeeze_nonempty; [discriminate | exact He]. }
    assert (E : forall x b', ends_ws (x :: squeeze b' (c :: t)) = false).
    { intros x b'. specialize (N b'). specialize (IH b' He).
      destruct (squeeze b' (c :: t)); [congruence | exact IH]. }
    destruct (isWhiteSpace a); [destruct b |]; auto.
Qed.

Lemma single_squeeze t : forall b, single (squeeze b t).
Proof.
  induction t as [| a t IH]; intros b; simpl; [exact I |].
  destruct (isWhiteSpace a) eqn:Ha.
  - destruct b; [apply IH |]. simpl. split; [| apply IH].
    intros _. split; [reflexivity | apply starts_ws_squeeze_true].
  - simpl. split; [| apply IH]. rewrite Ha. discriminate.
Qed.

Lemma squeeze_single t : single t -> squeeze false t = t.
Proof.
  induction t as [| a t IH]; simpl; [reflexivity |].
  intros [Ha Ht]. destruct (isWhiteSpace a) eqn:E.
  - destruct (Ha eq_refl) as [-> Hs].
    rewrite squeeze_true_dropWhile, dropWhile_id by exact Hs.
    now rewrite IH.
  - now rewrite IH.
Qed.

Lemma collapsed_idempotent s : collapsed (collapsed s) = collapsed s.
Proof.
  unfold collapsed at 1.
  rewrite trim_id.
  - apply squeeze_single. apply single_squeeze.
  - unfold collapsed. rewrite starts_ws_squeeze_false. apply starts_ws_trim.
  - unfold collapsed. apply ends_ws_squeeze, ends_ws_trim.
Qed.

(** C10.  Parsing is invariant under white-space collapsing: a text and its
    collapsed form (trimmed, every white-space run replaced by one space)
    are parsed to the same record or are both rejected. *)
Theorem parseDonationMessage_collapse_invariant (s : str) :
  parseDonationMessage (collapsed s) = parseDonationMessage s.
Proof.
  unfold parseDonationMessage.
  rewrite !normalize_collapsed, collapsed_idempotent. reflexivity.
Qed.

(* ===================================================================== *)
(** * 10. The comment of a parsed line                                    *)
(* ===================================================================== *)

(** The free-text span the pattern captures (its fourth group). *)
Definition capturedText (line : str) : option str :=
  match str_match (normalize line) donationPattern with
  | Some m => Some (group 4 m)
  | None => None
  end.

(** ** The specification's wording *)

(** The white-space separated tokens of a text; [cur] is the token being
    read, reversed. *)
Fixpoint wordsFrom (cur : str) (s : str) : list str :=
  match s with
  | [] => match cur with [] => [] | _ :: _ => [rev cur] end
  | a :: s' =>
    if isWhiteSpace a
    then match cur with
         | [] => wordsFrom [] s'
         | _ :: _ => rev cur :: wordsFrom [] s'
         end
    else wordsFrom (a :: cur) s'
  end.

Definition words (s : str) : list str := wordsFrom [] s.

(** A token that looks like a number: digits, then perhaps a point and
    more digits. *)
Definition numericLooking (tok : str) : bool :=
  let '(ip, r) := span isDigit tok in
  match ip with
  | [] => false
  | _ :: _ =>
    match r with
    | [] => true
    | c :: fp => (c =? DOT)%N && forallb isDigit fp
    end
  end.

(** Remove every numeric-looking token at the end of a token list. *)
Fixpoint stripTrailing (toks : list str) : list str :=
  match toks with
  | [] => []
  | t :: ts =>
    match stripTrailing ts with
    | [] => if numericLooking t then [] else [t]
    | ts' => t :: ts'
    end
  end.

Fixpoint unwords (toks : list str) : str :=
  match toks with
  | [] => []
  | t :: ts =>
    match ts with
    | [] => t
    | _ :: _ => t ++ SPACE :: unwords ts
    end
  end.

(** The comment as the specification words it: the captured span with any
    trailing white-space separated numeric-looking tokens stripped, and
    [null] when nothing is left. *)
Definition commentBySpec (span : str) : option str :=
  match unwords (stripTrailing (words span)) with
  | [] => None
  | c => Some c
  end.

(** ** What the code strips *)

(** One or more numerals, each preceded by a white-space run, and then
    perhaps white space: the texts [strayNumbers] matches up to the end of
    the input. *)
Inductive NumericTail : str -> Prop :=
| NT_last w a e :
    WsRun w -> Decimal a -> forallb isWhiteSpace e = true ->
    NumericTail (w ++ a ++ e)
| NT_more w a tl :
    WsRun w -> Decimal a -> NumericTail tl -> NumericTail (w ++ a ++ tl).

Lemma NumericTail_starts_ws tl : NumericTail tl -> starts_ws tl = true.
Proof.
  assert (F : forall w x, WsRun w -> starts_ws (w ++ x) = true).
  { intros w x [Hne Hw]. destruct w as [| a w]; [congruence |].
    simpl in *. apply andb_true_iff in Hw. tauto. }
  destruct 1; apply F; assumption.
Qed.

Definition strayGroup : regex := Group 1 (Plus ws ;; number_re).

Lemma strayGroups_tail x rest c c' :
  Matches (Star true strayGroup) x rest c c' ->
  forall w a e, WsRun w -> Decimal a -> forallb isWhiteSpace e = true ->
    NumericTail (w ++ a ++ x ++ e).
Proof.
  intros H. remember (Star true strayGroup) as r eqn:E.
  induction H; inversion E; subst; clear E; intros w a e Hw Ha He.
  - simpl. apply NT_last; assumption.
  - clear IHMatches1. unfold strayGroup in H0. inv_matches.
    rewrite <- !app_assoc.
    apply (NT_more Hw Ha). apply (IHMatches2 eq_refl); assumption.
Qed.

Lemma strayNumbers_sound w rest c c' :
  Matches strayNumbers w rest c c' -> rest = [] /\ NumericTail w.
Proof.
  unfold strayNumbers. fold strayGroup. intros H.
  apply Matches_Seq_inv in H. destruct H as (w1 & x & c1 & -> & H1 & H).
  apply Matches_Seq_inv in H. destruct H as (a & y & c2 & -> & H2 & H).
  apply Matches_Seq_inv in H. destruct H as (g & z & c3 & -> & H3 & H).
  apply Matches_Seq_inv in H. destruct H as (e & z' & c4 & -> & H4 & H).
  inv_matches. split; [assumption |].
  rewrite app_nil_r. eapply strayGroups_tail; eauto.
Qed.

Lemma NumericTail_split tl :
  NumericTail tl ->
  exists w a x e, tl = w ++ a ++ x ++ e /\ WsRun w /\ Decimal a /\
    forallb isWhiteSpace e = true /\
    forall rest c, exists c', Matches (Star true strayGroup) x rest c c'.
Proof.
  induction 1 as [w a e Hw Ha He | w a tl Hw Ha Htl IH].
  - exists w, a, [], e. simpl. do 4 (split; [auto |]).
    intros rest c. exists c. constructor.
  - destruct IH as (w' & a' & x & e & -> & Hw' & Ha' & He & Hx).
    exists w, a, ((w' ++ a') ++ x), e.
    rewrite <- !app_assoc. do 4 (split; [auto |]).
    intros rest c. destruct (Hx rest ((1%nat, w' ++ a') :: clear [1%nat] c))
      as (c' & Hc').
    exists c'. rewrite app_assoc. eapply MStarCons; [| | exact Hc'].
    + destruct Hw' as [Hne _]. destruct w'; [congruence | discriminate].
    + unfold strayGroup. apply MGroup. build_matches.
Qed.

Lemma strayNumbers_complete tl : NumericTail tl -> MatchesAt strayNumbers tl.
Proof.
  intros H. apply NumericTail_split in H.
  destruct H as (w & a & x & e & -> & Hw & Ha & He & Hx).
  destruct (Hx (e ++ []) []) as (c' & Hc').
  exists (w ++ a ++ x ++ e), [], c'. split; [now rewrite app_nil_r |].
  unfold strayNumbers. fold strayGroup.
  eapply MSeq; [build_leaf |].
  eapply MSeq; [build_leaf |].
  eapply MSeq; [exact Hc' |].
  rewrite <- (app_nil_r e) at 1.
  eapply MSeq; [apply Matches_StarClass; split; [exact He | reflexivity] |].
  constructor.
Qed.

(** The replacement removes the longest numeric tail, if there is one. *)
Lemma replace_strayNumbers (s : str) :
  exists keep tail,
    s = keep ++ tail /\
    (tail = [] \/ NumericTail tail) /\
    (forall keep' tail', s = keep' ++ tail' -> NumericTail tail' ->
       (length tail' <= length tail)%nat) /\
    replace_first s strayNumbers [] = keep.
Proof.
  destruct (str_match s strayNumbers) as [m |] eqn:E.
  - destruct (@replace_first_Some s strayNumbers [] m E) as (pre & Hs & Hr).
    apply search_Some in E. destruct E as (pre' & Hs' & _ & HM & Hleft).
    assert (pre' = pre).
    { rewrite Hs in Hs' at 1. apply app_inv_tail in Hs'. auto. }
    subst pre'. apply strayNumbers_sound in HM. destruct HM as [Hrest HT].
    rewrite Hrest in *. rewrite app_nil_r in *. simpl in Hr.
    exists pre, (m_whole m). repeat split; auto.
    intros keep' tail' Hs2 HT'.
    destruct (Nat.le_gt_cases (length tail') (length (m_whole m)))
      as [L | L]; [exact L | exfalso].
    apply (Hleft keep' tail' Hs2).
    + assert (length (keep' ++ tail') = length (pre ++ m_whole m))
        by congruence.
      rewrite !length_app in *. lia.
    + apply strayNumbers_complete. exact HT'.
  - exists s, []. rewrite app_nil_r. unfold replace_first. rewrite E.
    repeat split; auto.
    intros keep' tail' Hs2 HT'. exfalso.
    eapply search_None; eauto. apply strayNumbers_complete. exact HT'.
Qed.

(** ** The captured span inside a normalised text *)

Lemma single_app_r l m : single (l ++ m) -> single m.
Proof. induction l as [| a l IH]; simpl; [auto | tauto]. Qed.

Lemma single_app_l l m : single (l ++ m) -> single l.
Proof.
  induction l as [| a l IH]; simpl; [auto |].
  intros [Ha Hs]. split; [| auto].
  intros Hw. destruct (Ha Hw) as [-> Hn]. split; [reflexivity |].
  destruct l; [reflexivity | exact Hn].
Qed.

Lemma single_before m z :
  single (m ++ z) -> starts_ws z = true -> ends_ws m = false.
Proof.
  induction m as [| a m IH]; intros Hs Hz; [reflexivity |].
  destruct m as [| b m].
  - simpl in *. destruct Hs as [Ha _].
    destruct (isWhiteSpace a); [| reflexivity].
    destruct (Ha eq_refl) as [_ Hn]. congruence.
  - change (ends_ws (a :: b :: m)) with (ends_ws (b :: m)).
    apply IH; [| exact Hz]. simpl in Hs. simpl. tauto.
Qed.

Lemma WsRun_starts w x : WsRun w -> starts_ws (w ++ x) = true.
Proof.
  intros [Hne Hw]. destruct w as [| a w]; [congruence |].
  simpl in *. apply andb_true_iff in Hw. tauto.
Qed.

Lemma WsRun_ends w : WsRun w -> ends_ws w = true.
Proof.
  intros [Hne Hw]. induction w as [| a w IH]; [congruence |].
  simpl in Hw. apply andb_true_iff in Hw. destruct Hw as [Ha Hw].
  destruct w as [| b w]; [exact Ha |].
  change (ends_ws (a :: b :: w)) with (ends_ws (b :: w)).
  apply IH; [discriminate | exact Hw].
Qed.

Lemma single_after w m :
  single (w ++ m) -> ends_ws w = true -> starts_ws m = false.
Proof.
  induction w as [| a w IH]; intros Hs He; [discriminate |].
  destruct w as [| b w].
  - simpl in *. destruct Hs as [Ha _]. destruct (Ha He). assumption.
  - apply IH; [simpl in Hs; simpl; tauto | exact He].
Qed.

Lemma single_normalize line : single (normalize line).
Proof. rewrite normalize_collapsed. apply single_squeeze. Qed.

(** In a normalised text the captured span is not empty and neither
    starts nor ends with white space. *)
Lemma captured_span_tidy text pm d t cm a1 a2 a3 :
  single text -> DonationShape text pm d t cm a1 a2 a3 ->
  cm <> [] /\ starts_ws cm = false /\ ends_ws cm = false /\ single cm.
Proof.
  intros Hs (pre & w & post & -> & [w1 w2 w3 w4 w5 w6 w7 -> _ _ _ _ _ _ _
                                      _ _ H3 H4 _ _ _]).
  set (z := a1 ++ w5 ++ a2 ++ w6 ++ a3 ++ w7 ++ ustr "BYN") in *.
  assert (E : pre ++ (pm ++ w1 ++ d ++ w2 ++ t ++ w3 ++ cm ++ w4 ++ z) ++ post
              = (pre ++ pm ++ w1 ++ d ++ w2 ++ t) ++ w3 ++ cm ++ w4 ++ z ++ post).
  { rewrite <- !app_assoc. reflexivity. }
  rewrite E in Hs. clear E. apply single_app_r in Hs.
  assert (S1 : starts_ws (cm ++ w4 ++ z ++ post) = false).
  { apply (single_after _ _ Hs). apply WsRun_ends. exact H3. }
  apply single_app_r in Hs.
  assert (S2 : ends_ws cm = false).
  { apply (single_before _ _ Hs). apply WsRun_starts. exact H4. }
  apply single_app_l in Hs.
  destruct cm as [| c0 cm].
  - simpl in S1. rewrite (WsRun_starts _ H4) in S1. discriminate.
  - split; [discriminate |]. split; [exact S1 |]. split; [exact S2 | exact Hs].
Qed.

Lemma cleanComment_tidy cm :
  cm <> [] -> starts_ws cm = false -> ends_ws cm = false -> single cm ->
  exists keep tail,
    cm = keep ++ tail /\
    (tail = [] \/ NumericTail tail) /\
    (forall keep' tail', cm = keep' ++ tail' -> NumericTail tail' ->
       (length tail' <= length tail)%nat) /\
    keep <> [] /\
    cleanComment cm = Some keep.
Proof.
  intros Hne Hst Hen Hsi. unfold cleanComment.
  rewrite (trim_id _ Hst Hen).
  destruct (replace_strayNumbers cm) as (keep & tail & Hs & Ht & Hmax & Hr).
  rewrite Hr. exists keep, tail. do 3 (split; [assumption |]).
  assert (K : keep <> [] /\ trim keep = keep).
  { destruct Ht as [-> | Ht].
    - rewrite app_nil_r in Hs. subst keep. split; [assumption |].
      apply trim_id; assumption.
    - apply NumericTail_starts_ws in Ht.
      assert (Hk : keep <> []).
      { intros ->. simpl in Hs. subst tail. congruence. }
      split; [exact Hk |]. apply trim_id.
      + rewrite Hs, starts_ws_app in Hst by exact Hk. exact Hst.
      + rewrite Hs in Hsi. apply (single_before _ _ Hsi Ht). }
  destruct K as [Hk ->]. split; [exact Hk |].
  destruct keep; [congruence | reflexivity].
Qed.

(** C2 (as amended).  For every accepted line the comment is the captured
    free-text span with its longest tail of numerals, each preceded by
    white space, removed (the tail is empty when there is none); what is
    kept is never empty, so the comment of an accepted line is never
    [null]. *)
Theorem comment_strips_numeric_tail (line : str) (r : DonationRecord) :
  parseDonationMessage line = Some r ->
  exists span keep tail,
    capturedText line = Some span /\
    span = keep ++ tail /\
    (tail = [] \/ NumericTail tail) /\
    (forall keep' tail', span = keep' ++ tail' -> NumericTail tail' ->
       (length tail' <= length tail)%nat) /\
    keep <> [] /\
    comment r = Some keep.
Proof.
  intros H. unfold capturedText.
  destruct (str_match (normalize line) donationPattern) as [m |] eqn:E.
  - destruct (str_match_donation _ E)
      as (pm & d & t & cm & a1 & a2 & a3 & HS & Hc).
    rewrite (parse_of_match _ E Hc) in H. apply Some_inj in H. subst r.
    destruct (captured_span_tidy (single_normalize line) HS)
      as (Hne & Hst & Hen & Hsi).
    destruct (cleanComment_tidy Hne Hst Hen Hsi)
      as (keep & tail & Hs & Ht & Hmax & Hk & Hcl).
    exists cm, keep, tail. unfold group. rewrite Hc. cbn.
    repeat split; auto.
  - unfold parseDonationMessage in H. rewrite E in H. discriminate.
Qed.

Definition numericCommentLine : str :=
  ustr "WebPay 13.01.2025 13:46:08 5 6 1.50 0.03 1.47 BYN".

Definition numericCommentRecord : DonationRecord :=
  {| paymentMethod := ustr "WebPay";
     date := ustr "13.01.2025";
     time := ustr "13:46:08";
     dateTime := ustr "13.01.2025 13:46:08";
     comment := Some (ustr "5");
     grossAmount := numberLiteral "1.50";
     tax := numberLiteral "0.03";
     netAmount := numberLiteral "1.47";
     currency := ustr "BYN" |}.

Lemma comment_strips_numeric_tail_witness :
  exists span keep tail,
    capturedText numericCommentLine = Some span /\
    span = keep ++ tail /\
    (tail = [] \/ NumericTail tail) /\
    (forall keep' tail', span = keep' ++ tail' -> NumericTail tail' ->
       (length tail' <= length tail)%nat) /\
    keep <> [] /\
    comment numericCommentRecord = Some keep.
Proof.
  apply (@comment_strips_numeric_tail numericCommentLine numericCommentRecord).
  vm_compute. reflexivity.
Defined.

(** C2 as the specification states it fails on a span made of numerals
    only: the specification's stripping leaves nothing of the span [5 6],
    which would make the comment [null], while the code keeps the first
    token. *)
Lemma comment_first_token_kept :
  parseDonationMessage numericCommentLine = Some numericCommentRecord /\
  capturedText numericCommentLine = Some (ustr "5 6") /\
  commentBySpec (ustr "5 6") = None /\
  comment numericCommentRecord = Some (ustr "5") /\
  comment numericCommentRecord <> commentBySpec (ustr "5 6").
Proof.
  repeat split; try (vm_compute; reflexivity).
  vm_compute. discriminate.
Qed.

(* ===================================================================== *)
(** * 11. Calendar dates and the Date object                              *)
(* ===================================================================== *)

Local Open Scope Z_scope.

(** Day and time arithmetic of ECMAScript (time values are milliseconds
    since the epoch; they are integers far below 2^53, so [Z] is exact). *)
Definition msPerDay : Z := 86400000.

Definition isLeapYear (y : Z) : bool :=
  (y mod 4 =? 0) && (negb (y mod 100 =? 0) || (y mod 400 =? 0)).

Definition leapDay (y : Z) : Z := if isLeapYear y then 1 else 0.

Definition DaysInMonth (y m : Z) : Z :=
  match m with
  | 1 | 3 | 5 | 7 | 8 | 10 | 12 => 31
  | 4 | 6 | 9 | 11 => 30
  | 2 => 28 + leapDay y
  | _ => 0
  end.

Definition DayFromYear (y : Z) : Z :=
  365 * (y - 1970) + (y - 1969) / 4 - (y - 1901) / 100 + (y - 1601) / 400.

Definition daysBeforeMonth (y m : Z) : Z :=
  match m with
  | 1 => 0
  | 2 => 31
  | 3 => 59 + leapDay y
  | 4 => 90 + leapDay y
  | 5 => 120 + leapDay y
  | 6 => 151 + leapDay y
  | 7 => 181 + leapDay y
  | 8 => 212 + leapDay y
  | 9 => 243 + leapDay y
  | 10 => 273 + leapDay y
  | 11 => 304 + leapDay y
  | 12 => 334 + leapDay y
  | _ => 0
  end.

Definition MakeDay (y m d : Z) : Z := DayFromYear y + daysBeforeMonth y m + d - 1.
Definition MakeTime (h mi s : Z) : Z := h * 3600000 + mi * 60000 + s * 1000.
Definition MakeDate (day time : Z) : Z := day * msPerDay + time.

(** A calendar date-time. *)
Record DateTime : Type := mkDateTime {
  year : Z; month : Z; day : Z; hour : Z; minute : Z; second : Z
}.

Definition between (lo x hi : Z) : bool := (lo <=? x) && (x <=? hi).

(** A date-time that exists in the calendar. *)
Definition validDateTime (dt : DateTime) : bool :=
  between 0 (year dt) 9999 &&
  between 1 (month dt) 12 &&
  between 1 (day dt) (DaysInMonth (year dt) (month dt)) &&
  between 0 (hour dt) 23 && between 0 (minute dt) 59 &&
  between 0 (second dt) 59.

(** Chronological order: lexicographic on year, month, day, hour, minute,
    second. *)
Definition earlier (a b : DateTime) : Prop :=
  year a < year b \/ year a = year b /\
  (month a < month b \/ month a = month b /\
  (day a < day b \/ day a = day b /\
  (hour a < hour b \/ hour a = hour b /\
  (minute a < minute b \/ minute a = minute b /\ second a < second b)))).

Definition slice (i n : nat) (s : str) : str := firstn n (skipn i s).

Definition number_at (i n : nat) (s : str) : option Z :=
  let ds := slice i n s in
  if (length ds =? n)%nat && forallb isDigit ds
  then Some (Z.of_N (digits_value ds)) else None.

Definition char_at (i : nat) (s : str) : option char := nth_error s i.

Definition is_char (i : nat) (c : char) (s : str) : bool :=
  match char_at i s with
  | Some a => (a =? c)%N
  | None => false
  end.

Definition HYPHEN : char := 45%N.

(** The calendar reading of the source format [DD.MM.YYYY HH:MM:SS]. *)
Definition calendarOf (s : str) : option DateTime :=
  match number_at 0 2 s, number_at 3 2 s, number_at 6 4 s,
        number_at 11 2 s, number_at 14 2 s, number_at 17 2 s with
  | Some d, Some m, Some y, Some h, Some mi, Some sec =>
    let dt := mkDateTime y m d h mi sec in
    if (length s =? 19)%nat && is_char 2 DOT s && is_char 5 DOT s &&
       is_char 10 SPACE s && is_char 13 COLON s && is_char 16 COLON s &&
       validDateTime dt
    then Some dt else None
  | _, _, _, _, _, _ => None
  end.

(** The comparator of a sort returns a number; [None] is [NaN]. *)
Definition Comparator : Type := DonationRecord -> DonationRecord -> option Z.

Section Host.

(** [new Date(text)] for a text that is not in the date-time format of
    ECMAScript - here [YYYY-MM-DD HH:MM:SS], with a space where the format
    has a [T] - is read by rules of the engine's own.  The language leaves
    them open, and so the reading is a parameter: it depends on the time
    zone of the host and on its clock changes, on what the engine makes of
    a year below 100 or of a day past the end of its month, and on which
    texts it takes for no date at all.  The result is the time value,
    [None] for an Invalid Date. *)
Variable Date_parse : str -> option Z.

(** [Array.prototype.sort] with a comparator.  The language fixes the
    result when the comparator is consistent and leaves the order to the
    engine when it is not, as with a comparator that returns [NaN] for some
    pairs and a number for others. *)
Variable Array_sort : Comparator -> list DonationRecord -> list DonationRecord.

(** [s.replace(r, f)] for a pattern without the [g] flag, where [f]
    builds the replacement from the match (a text with [$n] references). *)
Definition replace_first_with (s : str) (r : regex)
    (rep : match_result -> str) : str :=
  match str_match s r with
  | Some m => firstn (m_index m) s ++ rep m ++ m_rest m
  | None => s
  end.

(** [(\d{2})\.(\d{2})\.(\d{4})] *)
Definition dmyPattern : regex :=
  (Group 1 d2 ;; Chr DOT ;; Group 2 d2 ;; Chr DOT ;; Group 3 d4)%re.

(** [d.dateTime.replace(dmyPattern, "$3-$2-$1")] *)
Definition isoLike (d : DonationRecord) : str :=
  replace_first_with (dateTime d) dmyPattern
    (fun m => group 3 m ++ [HYPHEN] ++ group 2 m ++ [HYPHEN] ++ group 1 m).

(** [new Date(d.dateTime.replace(dmyPattern, "$3-$2-$1"))] *)
Definition dateOf (d : DonationRecord) : option Z := Date_parse (isoLike d).

(** The comparator of the sort: [dateA - dateB], which is [NaN] when one
    of the two is an Invalid Date.  The sort looks at its sign only. *)
Definition compareByDate : Comparator :=
  fun a b =>
    match dateOf a, dateOf b with
    | Some x, Some y => Some (x - y)
    | _, _ => None
    end.

(** [this.donations.sort((a, b) => dateA - dateB)] *)
Definition sortDonations (l : list DonationRecord) : list DonationRecord :=
  Array_sort compareByDate l.

End Host.

(** ** Hosts to run the model on

    A host that reads the six fields as local time, refuses what is not in
    the calendar and takes a four-digit year as written; [offsetAt] is the
    offset of local time from UTC, in milliseconds, that the host applies
    at a local time value. *)
Definition localTimeParse (offsetAt : Z -> Z) (s : str) : option Z :=
  match number_at 0 4 s, number_at 5 2 s, number_at 8 2 s,
        number_at 11 2 s, number_at 14 2 s, number_at 17 2 s with
  | Some y, Some m, Some d, Some h, Some mi, Some sec =>
    if (length s =? 19)%nat && is_char 4 HYPHEN s && is_char 7 HYPHEN s &&
       is_char 10 SPACE s && is_char 13 COLON s && is_char 16 COLON s &&
       validDateTime (mkDateTime y m d h mi sec)
    then let t := MakeDate (MakeDay y m d) (MakeTime h mi sec) in
         Some (t - offsetAt t)
    else None
  | _, _, _, _, _, _ => None
  end.

(** A host whose zone never changes its clocks (Minsk since 2011:
    10800000). *)
Definition fixedOffsetParse (LocalTZA : Z) : str -> option Z :=
  localTimeParse (fun _ => LocalTZA).



(** The time value of a calendar date-time in a zone of constant offset. *)
Definition timeValue (LocalTZA : Z) (dt : DateTime) : Z :=
  MakeDate (MakeDay (year dt) (month dt) (day dt))
           (MakeTime (hour dt) (minute dt) (second dt)) - LocalTZA.

(** A stable sort with which to run the model: it inserts each element,
    from the last to the first, in front of the sorted rest and moves it
    right while it has to come after its neighbour.  A comparator result
    that is positive puts the first argument after the second, and [NaN]
    counts as zero. *)
Definition comesAfter {A} (cmp : A -> A -> option Z) (a b : A) : bool :=
  match cmp a b with
  | Some v => 0 <? v
  | None => false
  end.

Fixpoint insertSorted {A} (cmp : A -> A -> option Z) (a : A) (l : list A)
    : list A :=
  match l with
  | [] => [a]
  | b :: l' => if comesAfter cmp a b then b :: insertSorted cmp a l' else a :: l
  end.

Definition insertionSort {A} (cmp : A -> A -> option Z) (l : list A) : list A :=
  fold_right (insertSorted cmp) [] l.

(** ** The time value grows with the calendar *)

Lemma DayFromYear_step y :
  DayFromYear (y + 1) = DayFromYear y + 365 + leapDay y.
Proof.
  unfold DayFromYear, leapDay, isLeapYear.
  destruct (Z.eqb_spec (y mod 4) 0), (Z.eqb_spec (y mod 100) 0),
           (Z.eqb_spec (y mod 400) 0); cbn [andb orb negb];
    Z.div_mod_to_equations; lia.
Qed.

Lemma DayFromYear_mono y y' :
  y < y' -> DayFromYear y + 365 + leapDay y <= DayFromYear y'.
Proof.
  intros H. rewrite <- DayFromYear_step.
  assert (G : forall n, 0 <= n -> DayFromYear (y + 1) <= DayFromYear (y + 1 + n)).
  { apply natlike_ind; [rewrite Z.add_0_r; lia |].
    intros n Hn IH. replace (y + 1 + Z.succ n) with (y + 1 + n + 1) by lia.
    rewrite (DayFromYear_step (y + 1 + n)). unfold leapDay.
    destruct (isLeapYear (y + 1 + n)); lia. }
  specialize (G (y' - (y + 1))).
  replace (y + 1 + (y' - (y + 1))) with y' in G by lia. apply G. lia.
Qed.

Lemma leapDay_range y : 0 <= leapDay y <= 1.
Proof. unfold leapDay. destruct (isLeapYear y); lia. Qed.

Lemma between_true lo x hi : between lo x hi = true -> lo <= x <= hi.
Proof.
  unfold between. intros H. apply andb_true_iff in H.
  destruct H as [H1 H2]. apply Z.leb_le in H1, H2. lia.
Qed.

Lemma validDateTime_bounds dt :
  validDateTime dt = true ->
  0 <= year dt <= 9999 /\ 1 <= month dt <= 12 /\
  1 <= day dt <= DaysInMonth (year dt) (month dt) /\
  0 <= hour dt <= 23 /\ 0 <= minute dt <= 59 /\ 0 <= second dt <= 59.
Proof.
  unfold validDateTime. intros H.
  do 5 (apply andb_true_iff in H; destruct H as [H ?]).
  repeat match goal with
         | H : between _ _ _ = true |- _ => apply between_true in H
         end.
  tauto.
Qed.

(** The day number within the year, from the month and the day. *)
Lemma day_in_year y m d :
  1 <= m <= 12 -> 1 <= d <= DaysInMonth y m ->
  0 <= daysBeforeMonth y m + d - 1 <= 364 + leapDay y /\
  (forall m' d', m < m' <= 12 -> 1 <= d' ->
     daysBeforeMonth y m + d - 1 < daysBeforeMonth y m' + d' - 1).
Proof.
  intros Hm Hd. pose proof (leapDay_range y) as L.
  assert (C : m = 1 \/ m = 2 \/ m = 3 \/ m = 4 \/ m = 5 \/ m = 6 \/ m = 7 \/
              m = 8 \/ m = 9 \/ m = 10 \/ m = 11 \/ m = 12) by lia.
  split.
  - repeat (destruct C as [-> | C]); try subst m;
      cbn [daysBeforeMonth DaysInMonth] in *; lia.
  - intros m' d' Hm' Hd'.
    assert (C' : m' = 2 \/ m' = 3 \/ m' = 4 \/ m' = 5 \/ m' = 6 \/ m' = 7 \/
              m' = 8 \/ m' = 9 \/ m' = 10 \/ m' = 11 \/ m' = 12) by lia.
    repeat (destruct C as [-> | C]); try subst m;
      cbn [daysBeforeMonth DaysInMonth] in *;
      repeat (destruct C' as [-> | C']); try subst m';
      cbn [daysBeforeMonth] in *; lia.
Qed.

Lemma timeValue_earlier tz a b :
  validDateTime a = true -> validDateTime b = true ->
  earlier a b -> timeValue tz a < timeValue tz b.
Proof.
  intros Ha Hb H.
  apply validDateTime_bounds in Ha, Hb.
  destruct a as [ya ma da ha ia sa], b as [yb mb db hb ib sb].
  unfold earlier, timeValue, MakeDate, MakeDay, MakeTime, msPerDay in *.
  cbn [year month day hour minute second] in *.
  destruct Ha as (Hya & Hma & Hda & Hha & Hia & Hsa).
  destruct Hb as (Hyb & Hmb & Hdb & Hhb & Hib & Hsb).
  destruct (day_in_year ya Hma Hda) as [Ra Ma].
  destruct (day_in_year yb Hmb Hdb) as [Rb Mb].
  destruct H as [H | [-> H]].
  - pose proof (DayFromYear_mono H). lia.
  - destruct H as [H | [-> H]].
    + assert (mak : ma < mb <= 12) by lia.
      pose proof (Ma mb db mak (proj1 Hdb)). lia.
    + destruct H as [H | [-> H]]; [lia |].
      destruct H as [H | [-> H]]; [lia |].
      destruct H as [H | [-> H]]; lia.
Qed.

Lemma earlier_trichotomy a b : earlier a b \/ a = b \/ earlier b a.
Proof.
  destruct a as [ya ma da ha ia sa], b as [yb mb db hb ib sb].
  unfold earlier. cbn [year month day hour minute second].
  destruct (Z.lt_trichotomy ya yb) as [? | [-> | ?]]; [tauto | | tauto].
  destruct (Z.lt_trichotomy ma mb) as [? | [-> | ?]]; [tauto | | tauto].
  destruct (Z.lt_trichotomy da db) as [? | [-> | ?]]; [tauto | | tauto].
  destruct (Z.lt_trichotomy ha hb) as [? | [-> | ?]]; [tauto | | tauto].
  destruct (Z.lt_trichotomy ia ib) as [? | [-> | ?]]; [tauto | | tauto].
  destruct (Z.lt_trichotomy sa sb) as [? | [-> | ?]]; tauto.
Qed.

(** The time value orders valid date-times exactly as the calendar does. *)
Lemma timeValue_order tz a b :
  validDateTime a = true -> validDateTime b = true ->
  (earlier a b <-> timeValue tz a < timeValue tz b) /\
  (a = b <-> timeValue tz a = timeValue tz b).
Proof.
  intros Ha Hb.
  pose proof (@timeValue_earlier tz a b Ha Hb) as F.
  pose proof (@timeValue_earlier tz b a Hb Ha) as G.
  destruct (earlier_trichotomy a b) as [H | [H | H]].
  - pose proof (F H).
    split; split; intros X;
      first [assumption | lia | subst; reflexivity].
  - subst.
    split; split; intros X;
      first [reflexivity | apply F; assumption | lia].
  - pose proof (G H).
    split; split; intros X;
      first [apply F; assumption | lia | subst; reflexivity].
Qed.

(** ** The Date of a record whose text is a calendar date-time *)

Ltac split_digit_tests H :=
  repeat match type of H with
         | context [isDigit ?c] =>
           let E := fresh "Hdig" in
           destruct (isDigit c) eqn:E; cbn [andb] in H; [| discriminate H]
         end.

Lemma dateOf_calendar tz (r : DonationRecord) (dt : DateTime) :
  calendarOf (dateTime r) = Some dt ->
  dateOf (fixedOffsetParse tz) r = Some (timeValue tz dt).
Proof.
  unfold dateOf, isoLike. generalize (dateTime r) as s. clear r. intros s H.
  unfold calendarOf in H.
  destruct (number_at 0 2 s) as [d |] eqn:Ed; [| discriminate].
  destruct (number_at 3 2 s) as [m |] eqn:Em; [| discriminate].
  destruct (number_at 6 4 s) as [y |] eqn:Ey; [| discriminate].
  destruct (number_at 11 2 s) as [h |] eqn:Eh; [| discriminate].
  destruct (number_at 14 2 s) as [mi |] eqn:Ei; [| discriminate].
  destruct (number_at 17 2 s) as [sec |] eqn:Es; [| discriminate].
  match type of H with (if ?c then _ else _) = _ =>
    destruct c eqn:C; [| discriminate] end.
  apply Some_inj in H. subst dt.
  do 6 (apply andb_true_iff in C; destruct C as [C ?]).
  apply Nat.eqb_eq in C.
  do 19 (destruct s as [| ? s]; [simpl in C; lia |]).
  destruct s; [clear C | simpl in C; lia].
  unfold is_char, char_at in *. cbn [nth_error] in *.
  repeat match goal with
         | H : (?a =? ?b)%N = true |- _ => apply N.eqb_eq in H; subst a
         end.
  unfold number_at, slice in *.
  cbn [skipn firstn length Nat.eqb forallb andb] in *.
  split_digit_tests Ed. split_digit_tests Em. split_digit_tests Ey.
  split_digit_tests Eh. split_digit_tests Ei. split_digit_tests Es.
  apply Some_inj in Ed, Em, Ey, Eh, Ei, Es.
  unfold replace_first_with, str_match. rewrite search_eq.
  match goal with |- context [rmatch dmyPattern ?s [] accept] =>
    assert (R : rmatch dmyPattern s [] accept
                = Some ([(3%nat, slice 6 4 s); (2%nat, slice 3 2 s);
                         (1%nat, slice 0 2 s)], skipn 10 s))
  end.
  { unfold dmyPattern, d2, d4, digit, Chr, accept.
    cbn [rmatch]. rewrite ?Hdig, ?Hdig0, ?Hdig1, ?Hdig2, ?Hdig3, ?Hdig4,
      ?Hdig5, ?Hdig6. rewrite !N.eqb_refl. reflexivity. }
  rewrite R. unfold slice, group.
  cbn [m_index m_rest m_caps capture Nat.eqb firstn skipn app length].
  unfold fixedOffsetParse, localTimeParse, number_at, slice, is_char, char_at.
  cbn [skipn firstn length Nat.eqb forallb andb nth_error].
  rewrite ?Hdig, ?Hdig0, ?Hdig1, ?Hdig2, ?Hdig3, ?Hdig4,
      ?Hdig5, ?Hdig6, ?Hdig7, ?Hdig8, ?Hdig9, ?Hdig10, ?Hdig11, ?Hdig12.
  cbn [andb]. rewrite !N.eqb_refl. cbn [andb].
  rewrite Ed, Em, Ey, Eh, Ei, Es.
  match goal with H : validDateTime _ = true |- _ => rewrite H end.
  reflexivity.
Qed.

(* ===================================================================== *)
(** * 12. The sort                                                        *)
(* ===================================================================== *)

(** The sort looks at the sign of a comparator result; [NaN] counts as
    zero. *)
Definition sign (v : option Z) : Z :=
  match v with
  | Some z => Z.sgn z
  | None => 0
  end.

Section SortTheory.

Variable A : Type.
Variable cmp : A -> A -> option Z.
Variable key : A -> Z.

(** On the elements of [l] the comparator orders as the keys do: it is
    then a consistent comparator. *)
Definition Keyed (l : list A) : Prop :=
  forall a b, In a l -> In b l -> sign (cmp a b) = Z.sgn (key a - key b).





Definition keyLe (x y : A) : Prop := key x <= key y.






End SortTheory.

(** What ECMAScript requires of [Array.prototype.sort]: the result is a
    rearrangement of the array, and when the comparator is consistent -
    here: it orders the elements as some key does - the result is in the
    order of the keys and elements of equal keys keep their order. *)
Definition SortContract {A} (sort : (A -> A -> option Z) -> list A -> list A)
    : Prop :=
  forall cmp l,
    Permutation l (sort cmp l) /\
    forall key, Keyed cmp key l ->
      StronglySorted (keyLe key) (sort cmp l) /\
      forall k, filter (fun x => key x =? k) (sort cmp l)
                = filter (fun x => key x =? k) l.





Lemma StronglySorted_impl_In {A} (R R' : A -> A -> Prop) (l : list A) :
  (forall a b, In a l -> In b l -> R a b -> R' a b) ->
  StronglySorted R l -> StronglySorted R' l.
Proof.
  intros H S. induction S as [| a l S IH F]; constructor.
  - apply IH. intros x y Hx Hy. apply H; right; assumption.
  - rewrite Forall_forall in *. intros b Hb.
    apply H; [left; reflexivity | right; exact Hb | apply F; exact Hb].
Qed.


(** ** The sort of the scraped records *)

(** The calendar date-time written in a record. *)
Definition stamp (r : DonationRecord) : option DateTime :=
  calendarOf (dateTime r).

(** [b] is not chronologically earlier than [a]. *)
Definition chronoLe (a b : DonationRecord) : Prop :=
  forall ta tb, stamp a = Some ta -> stamp b = Some tb -> ~ earlier tb ta.


Definition donationAt (when : string) (note : option string) : DonationRecord :=
  {| paymentMethod := ustr "ЕРИП";
     date := firstn 10 (ustr when);
     time := skipn 11 (ustr when);
     dateTime := ustr when;
     comment := option_map ustr note;
     grossAmount := numberLiteral "10.00";
     tax := numberLiteral "0.02";
     netAmount := numberLiteral "9.98";
     currency := ustr "BYN" |}.

Lemma calendarOf_valid s dt : calendarOf s = Some dt -> validDateTime dt = true.
Proof.
  unfold calendarOf.
  destruct (number_at 0 2 s), (number_at 3 2 s), (number_at 6 4 s),
    (number_at 11 2 s), (number_at 14 2 s), (number_at 17 2 s);
    try discriminate.
  match goal with |- (if ?c then _ else _) = _ -> _ =>
    destruct c eqn:C; [| discriminate] end.
  intros H. apply Some_inj in H. subst dt.
  apply andb_true_iff in C. tauto.
Qed.

Section SortedByDate.

Variable Date_parse : str -> option Z.
Variable Array_sort : Comparator -> list DonationRecord -> list DonationRecord.

Local Abbreviation instant := (dateOf Date_parse).
Local Abbreviation sorted := (sortDonations Date_parse Array_sort).

Definition dateKey (r : DonationRecord) : Z :=
  match instant r with
  | Some v => v
  | None => 0
  end.

(** The instant of [a] is not later than that of [b]. *)
Definition instantLe (a b : DonationRecord) : Prop :=
  forall x y, instant a = Some x -> instant b = Some y -> x <= y.


(** The host reads the date-times of the records of [l] in the order of
    the calendar. *)
Definition readsCalendar (l : list DonationRecord) : Prop :=
  forall a b ta tb,
    In a l -> In b l -> stamp a = Some ta -> stamp b = Some tb ->
    earlier ta tb ->
    exists x y, instant a = Some x /\ instant b = Some y /\ x < y.

Lemma dated_Keyed l :
  (forall r, In r l -> instant r <> None) ->
  Keyed (compareByDate Date_parse) dateKey l.
Proof.
  intros H a b Ha Hb. unfold compareByDate, dateKey.
  destruct (instant a) as [x |] eqn:Ea; [| exfalso; exact (H a Ha Ea)].
  destruct (instant b) as [y |] eqn:Eb; [| exfalso; exact (H b Hb Eb)].
  reflexivity.
Qed.

Lemma sortDonations_perm l :
  SortContract Array_sort -> Permutation l (sorted l).
Proof. intros C. apply (C (compareByDate Date_parse) l). Qed.

Lemma sortDonations_sorted l :
  SortContract Array_sort -> (forall r, In r l -> instant r <> None) ->
  StronglySorted instantLe (sorted l).
Proof.
  intros C H. destruct (C (compareByDate Date_parse) l) as [_ K].
  destruct (K dateKey (dated_Keyed l H)) as [S _].
  unfold sortDonations. clear -S. induction S; constructor; auto.
  eapply Forall_impl; [| eassumption].
  intros b L x y Ex Ey. unfold keyLe, dateKey in L.
  rewrite Ex, Ey in L. exact L.
Qed.

Lemma instantLe_chronoLe l a b :
  readsCalendar l -> In a l -> In b l -> instantLe a b -> chronoLe a b.
Proof.
  intros R Ha Hb L ta tb Sa Sb E.
  destruct (R b a tb ta Hb Ha Sb Sa E) as (x & y & Ex & Ey & Lt).
  specialize (L y x Ey Ex). lia.
Qed.

Lemma sortDonations_chronological l :
  SortContract Array_sort -> (forall r, In r l -> instant r <> None) ->
  readsCalendar l -> StronglySorted chronoLe (sorted l).
Proof.
  intros C H R. pose proof (sortDonations_perm l C) as P.
  eapply StronglySorted_impl_In; [| apply sortDonations_sorted; assumption].
  intros a b Ha Hb. apply (instantLe_chronoLe R);
    apply (Permutation_in _ (Permutation_sym P)); assumption.
Qed.

End SortedByDate.

(** A host of constant offset reads every list in the order of the
    calendar. *)
Lemma fixedOffset_readsCalendar tz l : readsCalendar (fixedOffsetParse tz) l.
Proof.
  intros a b ta tb _ _ Sa Sb E.
  exists (timeValue tz ta), (timeValue tz tb).
  split; [apply dateOf_calendar; exact Sa |].
  split; [apply dateOf_calendar; exact Sb |].
  apply timeValue_earlier;
    [eapply calendarOf_valid; eauto | eapply calendarOf_valid; eauto | exact E].
Qed.






(* ===================================================================== *)
(** * 13. The scraper object and its world                                *)
(* ===================================================================== *)

(** Arrays of records live in a heap and are passed around by reference:
    [this.donations] and [this._cache.donations] may name the same array. *)
Definition loc : Type := nat.
Definition Heap : Type := list (list DonationRecord).

Definition deref (h : Heap) (l : loc) : list DonationRecord := nth l h [].

Definition alloc (h : Heap) (v : list DonationRecord) : loc * Heap :=
  (length h, h ++ [v]).

Fixpoint store (h : Heap) (l : loc) (v : list DonationRecord) : Heap :=
  match h, l with
  | [], _ => []
  | _ :: h', O => v :: h'
  | a :: h', S l' => a :: store h' l' v
  end.

(** A sheet of the report: rows of text and number cells. *)
Inductive Cell : Type :=
| CStr (s : str)
| CNum (n : number).

Record Workbook : Type := mkWorkbook {
  sheetName : str;
  rows : list (list Cell);
  colWidths : list Z
}.

(** [this.options]; [maxPages] may be [null]. *)
Record Options : Type := mkOptions {
  delay : Z;
  maxPages : option Z;
  cacheTtl : Z;
  userAgent : str;
  timeout : Z;
  maxRetries : Z
}.

(** The [options] argument of the constructor: a property is [None] when
    the caller's object does not have it. *)
Record UserOptions : Type := mkUserOptions {
  u_delay : option Z;
  u_maxPages : option Z;
  u_cacheTtl : option Z;
  u_userAgent : option str;
  u_timeout : option Z;
  u_maxRetries : option Z
}.

Definition noOptions : UserOptions :=
  mkUserOptions None None None None None None.

Record Cache : Type := mkCache {
  c_donations : option loc;
  c_timestamp : Z;
  c_xlsx : option Workbook
}.

Record Scraper : Type := mkScraper {
  baseUrl : str;
  options : Options;
  donations : loc;
  cache : Cache
}.

(** An [Error] object, and the failure of an axios request. *)
Record JsError : Type := mkError {
  message : str;
  code : option str
}.

Record AxiosError : Type := mkAxiosError {
  e_code : option str;
  e_cause_code : option str;
  e_message : option str
}.

(** What one HTTP request does: it takes some time and yields the page text
    or fails. *)
Inductive Response : Type :=
| RespOk (data : str) (elapsed : Z)
| RespErr (e : AxiosError) (elapsed : Z).

(** What the program does to the outside, in order.  [EvFetchPage] and
    [EvResolve] record the calls of [fetchPageHtml] and
    [determineTotalPages]. *)
Inductive Event : Type :=
| EvHttpGet (url : str)
| EvSleep (ms : Z)
| EvFetchPage (pageNumber : Z)
| EvResolve.

Record World : Type := mkWorld {
  heap : Heap;
  clock : Z;            (* what [Date.now()] returns *)
  requests : nat;       (* HTTP requests made so far *)
  trace : list Event
}.

(** ** The monad of the asynchronous methods *)

Inductive Outcome (A : Type) : Type :=
| Returned (a : A)
| Thrown (e : JsError).

Arguments Returned {A} a.
Arguments Thrown {A} e.

Definition M (A : Type) : Type := Scraper -> World -> Outcome A * Scraper * World.

Definition ret {A} (a : A) : M A := fun this w => (Returned a, this, w).

Definition bind {A B} (m : M A) (f : A -> M B) : M B :=
  fun this w =>
    match m this w with
    | (Returned a, this', w') => f a this' w'
    | (Thrown e, this', w') => (Thrown e, this', w')
    end.

Definition throw {A} (e : JsError) : M A := fun this w => (Thrown e, this, w).

Declare Scope monad_scope.
Delimit Scope monad_scope with monad.
Notation "'let*' x ':=' m 'in' k" := (bind m (fun x => k))
  (at level 10, x name, m at level 100, k at level 200) : monad_scope.
Notation "m >> k" := (bind m (fun _ => k))
  (at level 100, right associativity) : monad_scope.
Local Open Scope monad_scope.

Definition getThis : M Scraper := fun this w => (Returned this, this, w).
Definition setThis (this' : Scraper) : M unit := fun _ w => (Returned tt, this', w).
Definition getWorld : M World := fun this w => (Returned w, this, w).
Definition setWorld (w' : World) : M unit := fun this _ => (Returned tt, this, w').

Definition emit (e : Event) : M unit :=
  fun this w =>
    (Returned tt, this,
     mkWorld (heap w) (clock w) (requests w) (trace w ++ [e])).

(** [Date.now()] *)
Definition Date_now : M Z := fun this w => (Returned (clock w), this, w).

(** [await new Promise(r => setTimeout(r, ms))] *)
Definition sleep (ms : Z) : M unit :=
  fun this w =>
    (Returned tt, this,
     mkWorld (heap w) (clock w + ms) (requests w) (trace w ++ [EvSleep ms])).

Definition newArray (v : list DonationRecord) : M loc :=
  fun this w =>
    let '(l, h) := alloc (heap w) v in
    (Returned l, this, mkWorld h (clock w) (requests w) (trace w)).

Definition readArray (l : loc) : M (list DonationRecord) :=
  fun this w => (Returned (deref (heap w) l), this, w).

Definition writeArray (l : loc) (v : list DonationRecord) : M unit :=
  fun this w =>
    (Returned tt, this,
     mkWorld (store (heap w) l v) (clock w) (requests w) (trace w)).

Definition setDonations (l : loc) : M unit :=
  fun this w =>
    (Returned tt, mkScraper (baseUrl this) (options this) l (cache this), w).

Definition setCache (c : Cache) : M unit :=
  fun this w =>
    (Returned tt, mkScraper (baseUrl this) (options this) (donations this) c, w).

(** JavaScript truthiness of the values the code tests. *)
Definition truthyNum (z : Z) : bool := negb (z =? 0).
Definition truthyStr (s : str) : bool := match s with [] => false | _ => true end.
Definition truthyOptNum (z : option Z) : bool :=
  match z with Some v => truthyNum v | None => false end.
Definition truthyOptStr (s : option str) : bool :=
  match s with Some v => truthyStr v | None => false end.

(** The decimal text of an integer, as a template literal prints it. *)
Definition str_of_Z (z : Z) : str :=
  ustr (DecimalString.NilZero.string_of_int (Z.to_int z)).

(* ===================================================================== *)
(** * 14. The methods of [ForumDonationScraper]                           *)
(* ===================================================================== *)

Fixpoint splitOn (sep : char) (s : str) : list str :=
  match s with
  | [] => [[]]
  | a :: s' =>
    if (a =? sep)%N then [] :: splitOn sep s'
    else match splitOn sep s' with
         | cur :: rest => (a :: cur) :: rest
         | [] => [[a]]
         end
  end.

Fixpoint join (sep : str) (l : list str) : str :=
  match l with
  | [] => []
  | t :: ts =>
    match ts with
    | [] => t
    | _ :: _ => t ++ sep ++ join sep ts
    end
  end.

Definition NL : char := 10%N.
Definition COMMA : char := 44%N.

(** [parseInt(s, 10)] on the digit strings the patterns capture: the
    integer the digits denote.  Page numbers, offsets and counts are
    integers of [Z] in this development.  The code computes with binary64
    Numbers, which are these integers as long as every number read is
    below 2^53; the theorems on page numbers carry that bound
    ([exactNumbers] for the numbers read off a page). *)
Definition parseInt10 (s : str) : Z :=
  Z.of_N (digits_value (fst (span isDigit s))).

(** [/start=\d+/], [/start=(\d+)/], [/^\d+$/] (the [^] is the anchored
    test) and [/(\d+)\s+сообщение/] *)
Definition startPattern : regex := (Lit (ustr "start=") ;; Plus digit)%re.
Definition startCapture : regex :=
  (Lit (ustr "start=") ;; Group 1 (Plus digit))%re.
Definition allDigits : regex := (Plus digit ;; EndAnchor)%re.
Definition countPattern : regex :=
  (Group 1 (Plus digit) ;; Plus ws ;; Lit (ustr "сообщение"))%re.

Definition buildPageUrl (base : str) (pageNumber : Z) : str :=
  if 1 <? pageNumber then
    let startValue := (pageNumber - 1) * 20 in
    if includes base (ustr "?") then
      if includes base (ustr "start=")
      then replace_first base startPattern
             (ustr "start=" ++ str_of_Z startValue)
      else base ++ ustr "&start=" ++ str_of_Z startValue
    else base ++ ustr "?start=" ++ str_of_Z startValue
  else base.

Definition retriableCodes : list str :=
  [ustr "ECONNRESET"; ustr "ETIMEDOUT"; ustr "EAI_AGAIN"].

(** [error.code || (error.cause && error.cause.code)] *)
Definition errorCode (e : AxiosError) : option str :=
  if truthyOptStr (e_code e) then e_code e else e_cause_code e.

(** [error.message || ""] *)
Definition errorMessage (e : AxiosError) : str :=
  match e_message e with Some m => m | None => [] end.

Definition isRetriable (e : AxiosError) : bool :=
  match errorCode e with
  | Some c => existsb (str_eqb c) retriableCodes
  | None => false
  end
  || includes (errorMessage e) (ustr "socket hang up").

(** [message || code || "Неизвестная ошибка"] *)
Definition errorCause (e : AxiosError) : str :=
  if truthyStr (errorMessage e) then errorMessage e
  else match errorCode e with
       | Some c => if truthyStr c then c else ustr "Неизвестная ошибка"
       | None => ustr "Неизвестная ошибка"
       end.

Definition friendlyMessage (pageNumber : Z) (e : AxiosError) : str :=
  ustr "Не удалось загрузить страницу форума (страница "
  ++ str_of_Z pageNumber ++ ustr "). " ++ errorCause e.

Definition finalError (pageNumber : Z) (e : AxiosError) : JsError :=
  mkError (friendlyMessage pageNumber e) (errorCode e).

(** The axios error itself as a thrown value. *)
Definition rawError (e : AxiosError) : JsError :=
  mkError (errorMessage e) (e_code e).

Definition headers : list Cell :=
  map (fun s => CStr (ustr s))
    ["Payment Method"; "Date"; "Time"; "Comment"; "Gross Amount"; "Tax";
     "Net Amount"; "Currency"]%string.

Definition generateXLSX (ds : list DonationRecord) : Workbook :=
  let data :=
    map (fun d =>
      [CStr (paymentMethod d); CStr (date d); CStr (time d);
       CStr (match comment d with Some c => c | None => [] end);
       CNum (grossAmount d); CNum (tax d); CNum (netAmount d);
       CStr (currency d)]) ds in
  mkWorkbook (ustr "Donations") (headers :: data) [15; 12; 10; 30; 12; 10; 12; 8].

Record Totals : Type := mkTotals {
  t_count : Z;
  t_gross : number;
  t_tax : number;
  t_net : number
}.

Definition plus (a b : number) : number := SFadd prec emax a b.

Definition calculateTotals (ds : list DonationRecord) : Totals :=
  fold_left
    (fun tot d =>
       mkTotals (t_count tot + 1)
                (plus (t_gross tot) (grossAmount d))
                (plus (t_tax tot) (tax d))
                (plus (t_net tot) (netAmount d)))
    ds (mkTotals 0 (S754_zero false) (S754_zero false) (S754_zero false)).

Section Scraping.

(** The host and the libraries: Unicode case conversion, the engine's
    reading of dates and its sort, the network, the cheerio selections of a
    page ([.pagination ul li a] with its text and [href], the text of
    [.pagination .responsive-hide], the texts of
    [.postbody .content, .post .content]) and the formatting of numbers and
    dates. *)
Variable toLowerCase : str -> str.
Variable Date_parse : str -> option Z.
Variable Array_sort : Comparator -> list DonationRecord -> list DonationRecord.
Variable network : nat -> str -> Response.
Variable paginationLinks : str -> list (str * option str).
Variable paginationCaption : str -> str.
Variable postContents : str -> list str.
Variable toFixed2 : number -> str.
Variable toLocaleDateString : option Z -> str.

(** [axios.get(url, ...)] *)
Definition axios_get (url : str) : M Response :=
  fun this w =>
    let r := network (requests w) url in
    let elapsed := match r with RespOk _ t | RespErr _ t => t end in
    (Returned r, this,
     mkWorld (heap w) (clock w + elapsed) (S (requests w))
             (trace w ++ [EvHttpGet url])).

(** The body of the retry loop of [fetchPageHtml]; [n] iterations are left
    and [attempt] is the loop counter. *)
Fixpoint fetchAttempts (n : nat) (attempt : Z) (url : str) (pageNumber : Z)
    (attemptError : option AxiosError) : M str :=
  match n with
  | O =>
    throw (match attemptError with
           | Some e => rawError e
           | None => mkError (ustr "Неизвестная ошибка загрузки страницы") None
           end)
  | S n' =>
    let* res := axios_get url in
    let* this := getThis in
    match res with
    | RespOk data _ =>
      (if truthyNum (delay (options this))
       then sleep (delay (options this)) else ret tt) >>
      ret data
    | RespErr error _ =>
      if (attempt =? maxRetries (options this)) || negb (isRetriable error)
      then throw (finalError pageNumber error)
      else sleep (500 * attempt) >>
           fetchAttempts n' (attempt + 1) url pageNumber (Some error)
    end
  end.

Definition fetchPageHtml (pageNumber : Z) : M str :=
  emit (EvFetchPage pageNumber) >>
  let* this := getThis in
  fetchAttempts (Z.to_nat (maxRetries (options this))) 1
    (buildPageUrl (baseUrl this) pageNumber) pageNumber None.

Definition larger (maxPage p : Z) : Z := if maxPage <? p then p else maxPage.

Definition determineTotalPages (html : str) : Z :=
  let maxPage :=
    fold_left
      (fun maxPage (el : str * option str) =>
         let text := trim (fst el) in
         let maxPage :=
           if test_from_start allDigits text
           then larger maxPage (parseInt10 text) else maxPage in
         match snd el with
         | Some href =>
           if truthyStr href then
             match str_match href startCapture with
             | Some m =>
               let startValue := parseInt10 (group 1 m) in
               larger maxPage (startValue / 20 + 1)
             | None => maxPage
             end
           else maxPage
         | None => maxPage
         end)
      (paginationLinks html) 1 in
  match str_match (paginationCaption html) countPattern with
  | Some m =>
    let totalMessages := parseInt10 (group 1 m) in
    let pagesFromCount := (totalMessages + 19) / 20 in
    larger maxPage pagesFromCount
  | None => maxPage
  end.

Definition hasPaymentToken (s : str) : bool :=
  includes s (ustr "ЕРИП") || includes s (ustr "WebPay").

Definition extractDonationsFromHtml (html : str) : list DonationRecord :=
  flat_map
    (fun text =>
       if truthyStr text && hasPaymentToken text then
         flat_map
           (fun line =>
              let cleanLine := trim line in
              if truthyStr cleanLine && includes cleanLine (ustr "BYN")
                 && hasPaymentToken cleanLine
              then match parseDonationMessage cleanLine with
                   | Some parsed => [parsed]
                   | None => []
                   end
              else [])
           (splitOn NL text)
       else [])
    (postContents html).

(** The loop over the pages after the first: [n] pages are left. *)
Fixpoint fetchRemaining (n : nat) (pageNum : Z) : M unit :=
  match n with
  | O => ret tt
  | S n' =>
    let* html := fetchPageHtml pageNum in
    let* this := getThis in
    let* old := readArray (donations this) in
    writeArray (donations this) (old ++ extractDonationsFromHtml html) >>
    fetchRemaining n' (pageNum + 1)
  end.

Definition cacheHit (this : Scraper) (now : Z) : option loc :=
  match c_donations (cache this) with
  | Some l =>
    if now - c_timestamp (cache this) <? cacheTtl (options this)
    then Some l else None
  | None => None
  end.

Definition scrapeAllDonations : M loc :=
  let* now := Date_now in
  let* this := getThis in
  match cacheHit this now with
  | Some l => setDonations l >> ret l
  | None =>
    let* firstHtml := fetchPageHtml 1 in
    emit EvResolve >>
    let totalPages := determineTotalPages firstHtml in
    let effectivePages :=
      match maxPages (options this) with
      | Some cap => if truthyNum cap then Z.min totalPages cap else totalPages
      | None => totalPages
      end in
    let* arr := newArray (extractDonationsFromHtml firstHtml) in
    setDonations arr >>
    fetchRemaining (Z.to_nat (effectivePages - 1)) 2 >>
    let* ds := readArray arr in
    writeArray arr (sortDonations Date_parse Array_sort ds) >>
    let* sorted := readArray arr in
    let* stamp := Date_now in
    setCache (mkCache (Some arr) stamp (Some (generateXLSX sorted))) >>
    ret arr
  end.

(** The test of the filter: [d.comment && searchTerms.some(...)]. *)
Definition commentMatches (searchTerms : list str) (d : DonationRecord) : bool :=
  match comment d with
  | Some c =>
    truthyStr c &&
    existsb (fun t => includes (toLowerCase c) (trim (toLowerCase t)))
            searchTerms
  | None => false
  end.

(** [searchTerms] is [None] when the argument is absent. *)
Definition filterDonationsByComments (searchTerms : option (list str)) : M loc :=
  let* this := getThis in
  match searchTerms with
  | None => ret (donations this)
  | Some [] => ret (donations this)
  | Some terms =>
    let* ds := readArray (donations this) in
    newArray (filter (commentMatches terms) ds)
  end.

End Scraping.

(* ===================================================================== *)
(** * 15. [processTelegramRequest]                                        *)
(* ===================================================================== *)

Definition defaultUserAgent : str :=
  ustr "Mozilla/5.0 (Windows NT 10.0; Win64; x64) AppleWebKit/537.36 (KHTML, like Gecko) Chrome/122.0.0.0 Safari/537.36".

Definition orDefault {A} (o : option A) (d : A) : A :=
  match o with Some v => v | None => d end.

(** [new ForumDonationScraper(baseUrl, options)]: the spread of [options]
    after the defaults gives every property the caller supplied its own
    value. *)
Definition construct (url : str) (o : UserOptions) (w : World)
    : Scraper * World :=
  let '(l, h) := alloc (heap w) [] in
  (mkScraper url
     (mkOptions (orDefault (u_delay o) 500) (u_maxPages o)
                (orDefault (u_cacheTtl o) 1800000)
                (orDefault (u_userAgent o) defaultUserAgent)
                (orDefault (u_timeout o) 30000)
                (orDefault (u_maxRetries o) 3))
     l (mkCache None 0 None),
   mkWorld h (clock w) (requests w) (trace w)).

(** What a request resolves to. *)
Inductive Payload : Type :=
| Success (xslxContent : Workbook) (summaryMessage : str)
          (totalDonations : Z) (totals : number * number * number)
          (filteredDonations : list DonationRecord)
| Failure (error : str) (summaryMessage : str).

(** [searchTermsString.split(",").map(t => t.trim()).filter(Boolean)] *)
Definition searchTermsOf (searchTermsString : str) : list str :=
  filter truthyStr (map trim (splitOn COMMA searchTermsString)).

Section Requests.

Variable toLowerCase : str -> str.
Variable Date_parse : str -> option Z.
Variable Array_sort : Comparator -> list DonationRecord -> list DonationRecord.
Variable network : nat -> str -> Response.
Variable paginationLinks : str -> list (str * option str).
Variable paginationCaption : str -> str.
Variable postContents : str -> list str.
Variable toFixed2 : number -> str.
Variable toLocaleDateString : option Z -> str.

(** [dt > m] on Date objects compares the time values; an Invalid Date
    compares false. *)
Definition laterThan (dt m : option Z) : bool :=
  match dt, m with
  | Some a, Some b => b <? a
  | _, _ => false
  end.

(** The reduction that finds the latest date; the outer [None] is [null],
    the inner one an Invalid Date. *)
Definition latestDate (ds : list DonationRecord) : option (option Z) :=
  match ds with
  | [] => None
  | _ :: _ =>
    fold_left
      (fun m d =>
         let dt := dateOf Date_parse d in
         match m with
         | None => Some dt
         | Some mv => if laterThan dt mv then Some dt else m
         end)
      ds None
  end.

Definition latestDateStr (ds : list DonationRecord) : str :=
  match latestDate ds with
  | Some d => toLocaleDateString d
  | None => ustr "нет данных"
  end.

Definition summaryMessageOf (searchTerms : list str) (totals : Totals)
    (latest : str) : str :=
  ustr "📊 *Отчет по пожертвованиям*" ++ [NL; NL] ++
  ustr "🔍 *Поиск по:* " ++ join (ustr ", ") searchTerms ++ [NL] ++
  ustr "📈 *Найдено:* " ++ str_of_Z (t_count totals) ++
  ustr " пожертвований на " ++ latest ++ [NL; NL] ++
  ustr "💰 *Общая сумма:* " ++ toFixed2 (t_gross totals) ++ ustr " BYN" ++ [NL] ++
  ustr "🏦 *Комиссия:* " ++ toFixed2 (t_tax totals) ++ ustr " BYN" ++ [NL] ++
  ustr "💵 *К получению:* " ++ toFixed2 (t_net totals) ++ ustr " BYN" ++ [NL; NL] ++
  ustr "📁 Подробный отчет в XLSX файле".

(** The task a request puts on the queue.  The queue runs one task at a
    time, so a request is its task run on the state the previous one left:
    the singleton [scraperInstance] and the world. *)
Definition processTelegramRequest (forumUrl searchTermsString : str)
    (opts : UserOptions) (scraperInstance : option Scraper) (w : World)
    : Payload * option Scraper * World :=
  let searchTerms := searchTermsOf searchTermsString in
  let '(this, w1) :=
    match scraperInstance with
    | Some sc =>
      if str_eqb (baseUrl sc) forumUrl then (sc, w)
      else construct forumUrl opts w
    | None => construct forumUrl opts w
    end in
  let body : M (list DonationRecord * list DonationRecord) :=
    scrapeAllDonations Date_parse Array_sort network paginationLinks paginationCaption
                       postContents >>
    let* filtered := filterDonationsByComments toLowerCase (Some searchTerms) in
    let* fl := readArray filtered in
    let* this' := getThis in
    let* all := readArray (donations this') in
    ret (fl, all) in
  match body this w1 with
  | (Returned (filtered, all), this', w') =>
    let totals := calculateTotals filtered in
    (Success (generateXLSX filtered)
             (summaryMessageOf searchTerms totals (latestDateStr all))
             (t_count totals)
             (t_gross totals, t_tax totals, t_net totals)
             filtered,
     Some this', w')
  | (Thrown e, this', w') =>
    (Failure (message e) (ustr "❌ Ошибка: " ++ message e), Some this', w')
  end.

End Requests.

(* ===================================================================== *)
(** * 16. The keyword filter                                              *)
(* ===================================================================== *)

(** [t] occurs in [s]. *)
Definition Infix (t s : str) : Prop := exists pre post, s = pre ++ t ++ post.

Lemma isPrefixOf_spec t s : isPrefixOf t s = true <-> exists post, s = t ++ post.
Proof.
  revert s. induction t as [| a t IH]; intros s; simpl.
  - split; [intros _; exists s; reflexivity | reflexivity].
  - destruct s as [| b s].
    + split; [discriminate | intros [post H]; discriminate].
    + rewrite andb_true_iff, N.eqb_eq, IH. split.
      * intros [-> [post ->]]. exists post. reflexivity.
      * intros [post H]. inversion H; subst. eauto.
Qed.

Lemma includes_Infix s t : includes s t = true <-> Infix t s.
Proof.
  unfold Infix. induction s as [| a s IH].
  - simpl. rewrite orb_false_r, isPrefixOf_spec. split.
    + intros [post H]. exists [], post. exact H.
    + intros (pre & post & H). destruct pre; [eauto |]. discriminate.
  - cbn [includes]. rewrite orb_true_iff, isPrefixOf_spec, IH. split.
    + intros [[post H] | (pre & post & ->)].
      * exists [], post. exact H.
      * exists (a :: pre), post. reflexivity.
    + intros (pre & post & H). destruct pre as [| b pre].
      * left. exists post. exact H.
      * right. inversion H; subst. eauto.
Qed.

Lemma deref_alloc_new h v : deref (snd (alloc h v)) (fst (alloc h v)) = v.
Proof. unfold deref, alloc. simpl. apply nth_middle. Qed.

Lemma deref_alloc_old h v l :
  (l < length h)%nat -> deref (snd (alloc h v)) l = deref h l.
Proof. intros H. unfold deref, alloc. simpl. apply app_nth1. exact H. Qed.

Section FilterProperties.

Variable toLowerCase : str -> str.

(** A term matches a comment when the trimmed term occurs in it, letter
    case ignored. *)
Definition termMatches (t c : str) : Prop :=
  Infix (trim (toLowerCase t)) (toLowerCase c).

Definition keptBySpec (terms : list str) (d : DonationRecord) : Prop :=
  exists c t, comment d = Some c /\ In t terms /\ termMatches t c.

Lemma commentMatches_spec terms d :
  comment d <> Some [] ->
  commentMatches toLowerCase terms d = true <-> keptBySpec terms d.
Proof.
  intros Hc. unfold commentMatches, keptBySpec, termMatches.
  destruct (comment d) as [c |] eqn:E0.
  - destruct c as [| x c]; [exfalso; apply Hc; reflexivity |].
    cbn [truthyStr andb].
    rewrite existsb_exists. split.
    + intros (t & Ht & Hi). apply includes_Infix in Hi. eauto.
    + intros (c' & t & E & Ht & Hi). apply Some_inj in E. subst c'.
      exists t. split; [exact Ht |]. apply includes_Infix. exact Hi.
  - split; [discriminate |]. intros (c & t & E & _). discriminate.
Qed.

(** C4.  With a non-empty term list the filter returns a new array holding,
    in their order, exactly the records whose comment contains some trimmed
    term (letter case ignored); a record whose comment is [null] is never
    kept; with an empty or absent term list the array [this.donations]
    itself is returned and nothing changes.  The records are those of the
    data model: a comment is [null] or a non-empty text. *)
Theorem filterDonationsByComments_spec (this : Scraper) (w : World) :
  (forall d, In d (deref (heap w) (donations this)) -> comment d <> Some []) ->
  filterDonationsByComments toLowerCase None this w
    = (Returned (donations this), this, w) /\
  filterDonationsByComments toLowerCase (Some []) this w
    = (Returned (donations this), this, w) /\
  forall t ts, exists l w',
    filterDonationsByComments toLowerCase (Some (t :: ts)) this w
      = (Returned l, this, w') /\
    deref (heap w') l
      = filter (commentMatches toLowerCase (t :: ts))
               (deref (heap w) (donations this)) /\
    (forall d, In d (deref (heap w') l) <->
               In d (deref (heap w) (donations this)) /\ keptBySpec (t :: ts) d) /\
    (forall d, comment d = None -> ~ In d (deref (heap w') l)) /\
    (forall l0, (l0 < length (heap w))%nat ->
                deref (heap w') l0 = deref (heap w) l0).
Proof.
  intros WF. split; [reflexivity |]. split; [reflexivity |].
  intros t ts.
  set (ds := deref (heap w) (donations this)) in *.
  set (kept := filter (commentMatches toLowerCase (t :: ts)) ds).
  exists (fst (alloc (heap w) kept)).
  exists (mkWorld (snd (alloc (heap w) kept)) (clock w) (requests w) (trace w)).
  split; [reflexivity |]. cbn [heap].
  rewrite deref_alloc_new.
  split; [reflexivity |]. split; [| split].
  - intros d. unfold kept. rewrite filter_In. split.
    + intros [Hd Hm]. split; [exact Hd |].
      apply commentMatches_spec; auto.
    + intros [Hd Hk]. split; [exact Hd |].
      apply commentMatches_spec; auto.
  - intros d Hn Hd. unfold kept in Hd. apply filter_In in Hd.
    destruct Hd as [_ Hm]. unfold commentMatches in Hm.
    rewrite Hn in Hm. discriminate.
  - intros l0 Hl. apply deref_alloc_old. exact Hl.
Qed.

End FilterProperties.

(* ===================================================================== *)
(** * 17. The pagination resolver                                         *)
(* ===================================================================== *)

Lemma test_from_start_spec r s : test_from_start r s = true <-> MatchesAt r s.
Proof.
  unfold test_from_start.
  destruct (rmatch r s [] accept) as [[c rest] |] eqn:E.
  - split; [intros _ | reflexivity].
    apply rmatch_accept_Some in E. destruct E as (w & -> & HM).
    exists w, rest, c. auto.
  - split; [discriminate |]. intros H. exfalso.
    eapply rmatch_accept_None; eauto.
Qed.

(** [/^\d+$/.test(text)]: the text is a non-empty run of digits. *)
Lemma allDigits_test text :
  test_from_start allDigits text = truthyStr text && forallb isDigit text.
Proof.
  apply eq_true_iff_eq. rewrite test_from_start_spec, andb_true_iff.
  unfold allDigits, digit. split.
  - intros (w & rest & c & -> & H).
    apply Matches_Seq_inv in H. destruct H as (w1 & w2 & c1 & -> & H1 & H2).
    apply Matches_End_inv in H2. destruct H2 as (-> & -> & _).
    apply Matches_PlusClass in H1. destruct H1 as (Hne & Hd & _).
    rewrite !app_nil_r. split; [| exact Hd].
    destruct w1; [congruence | reflexivity].
  - intros [Ht Hd]. exists text, [], []. split; [now rewrite app_nil_r |].
    rewrite <- (app_nil_r text) at 1.
    eapply MSeq; [| constructor].
    apply Matches_PlusClass. repeat split; auto.
    intros ->. discriminate.
Qed.

Lemma larger_max a b : larger a b = Z.max a b.
Proof. unfold larger. destruct (Z.ltb_spec a b); lia. Qed.

Section Pagination.

Variable paginationLinks : str -> list (str * option str).
Variable paginationCaption : str -> str.

(** The three signals of the page count. *)
Definition literalPage (el : str * option str) : list Z :=
  let text := trim (fst el) in
  if truthyStr text && forallb isDigit text then [parseInt10 text] else [].

Definition offsetPage (el : str * option str) : list Z :=
  match snd el with
  | Some href =>
    match str_match href startCapture with
    | Some m => [parseInt10 (group 1 m) / 20 + 1]
    | None => []
    end
  | None => []
  end.

(** The count divided by 20 and rounded up. *)
Definition captionPages (html : str) : list Z :=
  match str_match (paginationCaption html) countPattern with
  | Some m => [(parseInt10 (group 1 m) + 19) / 20]
  | None => []
  end.

Definition signals (html : str) : list Z :=
  flat_map (fun el => literalPage el ++ offsetPage el) (paginationLinks html)
  ++ captionPages html.

(** The claimed result: the largest signal, and 1 when there is none. *)
Definition largestSignal (sig : list Z) : Z :=
  match sig with
  | [] => 1
  | s :: ss => fold_left Z.max ss s
  end.

Lemma fold_max_ge l : forall a, a <= fold_left Z.max l a.
Proof.
  induction l as [| x l IH]; intros a; simpl; [lia |].
  specialize (IH (Z.max a x)). lia.
Qed.

Lemma fold_max_In l : forall a x, In x l -> x <= fold_left Z.max l a.
Proof.
  induction l as [| y l IH]; intros a x H; simpl; [contradiction |].
  destruct H as [-> | H]; [| apply IH; exact H].
  pose proof (fold_max_ge l (Z.max a x)). lia.
Qed.

Lemma fold_max_attained l : forall a,
  fold_left Z.max l a = a \/ In (fold_left Z.max l a) l.
Proof.
  induction l as [| y l IH]; intros a; simpl; [auto |].
  destruct (IH (Z.max a y)) as [E | E]; [| auto].
  rewrite E. destruct (Z.max_spec a y) as [[_ ->] | [_ ->]]; auto.
Qed.

Lemma determineTotalPages_fold html :
  determineTotalPages paginationLinks paginationCaption html
  = fold_left Z.max (signals html) 1.
Proof.
  unfold determineTotalPages, signals. rewrite fold_left_app.
  assert (L : forall links a,
    fold_left
      (fun maxPage (el : str * option str) =>
         let text := trim (fst el) in
         let maxPage :=
           if test_from_start allDigits text
           then larger maxPage (parseInt10 text) else maxPage in
         match snd el with
         | Some href =>
           if truthyStr href then
             match str_match href startCapture with
             | Some m => larger maxPage (parseInt10 (group 1 m) / 20 + 1)
             | None => maxPage
             end
           else maxPage
         | None => maxPage
         end) links a
    = fold_left Z.max
        (flat_map (fun el => literalPage el ++ offsetPage el) links) a).
  { induction links as [| el links IH]; intros a; [reflexivity |].
    cbn [fold_left flat_map]. rewrite IH, !fold_left_app. f_equal.
    unfold literalPage, offsetPage. cbn zeta. rewrite allDigits_test.
    set (base := if truthyStr (trim (fst el)) && forallb isDigit (trim (fst el))
                 then larger a (parseInt10 (trim (fst el))) else a).
    assert (B : fold_left Z.max
                  (if truthyStr (trim (fst el)) && forallb isDigit (trim (fst el))
                   then [parseInt10 (trim (fst el))] else []) a = base).
    { unfold base.
      destruct (truthyStr (trim (fst el)) && forallb isDigit (trim (fst el)));
        simpl; [now rewrite larger_max | reflexivity]. }
    rewrite B. destruct (snd el) as [href |]; [| reflexivity].
    destruct href as [| x href]; [reflexivity |]. cbn [truthyStr].
    destruct (str_match (x :: href) startCapture);
      simpl; [now rewrite larger_max | reflexivity]. }
  rewrite L. unfold captionPages.
  destruct (str_match (paginationCaption html) countPattern);
    simpl; [now rewrite larger_max | reflexivity].
Qed.

Lemma determineTotalPages_positive html :
  1 <= determineTotalPages paginationLinks paginationCaption html.
Proof. rewrite determineTotalPages_fold. apply fold_max_ge. Qed.

(** The numbers the resolver reads off a page: the link texts made of
    digits, the offsets of the links and the message count. *)
Definition numbersRead (html : str) : list Z :=
  flat_map
    (fun el : str * option str =>
       (let text := trim (fst el) in
        if truthyStr text && forallb isDigit text then [parseInt10 text]
        else [])
       ++ match snd el with
          | Some href =>
            match str_match href startCapture with
            | Some m => [parseInt10 (group 1 m)]
            | None => []
            end
          | None => []
          end)
    (paginationLinks html)
  ++ match str_match (paginationCaption html) countPattern with
     | Some m => [parseInt10 (group 1 m)]
     | None => []
     end.

(** Every number read is below 2^53.  [parseInt], the division by 20,
    [Math.floor], [Math.ceil] and the addition of 1 are then exact in
    binary64, and the integers of this development are the Numbers of the
    code. *)
Definition exactNumbers (html : str) : Prop :=
  Forall (fun n => n < 2 ^ 53) (numbersRead html).

Lemma parseInt10_nonneg s : 0 <= parseInt10 s.
Proof. unfold parseInt10. lia. Qed.

(** Every signal comes from a number read. *)
Lemma signals_numbersRead html s :
  In s (signals html) ->
  exists n, In n (numbersRead html) /\ 0 <= n /\
            (s = n \/ s = n / 20 + 1 \/ s = (n + 19) / 20).
Proof.
  unfold signals, numbersRead. intros H.
  apply in_app_or in H. destruct H as [H | H].
  - apply in_flat_map in H. destruct H as (el & Hel & H).
    apply in_app_or in H. destruct H as [H | H].
    + unfold literalPage in H. cbn zeta in H.
      destruct (truthyStr (trim (fst el)) && forallb isDigit (trim (fst el)))
        eqn:E; [| contradiction].
      destruct H as [<- | []].
      exists (parseInt10 (trim (fst el))).
      split; [| split; [apply parseInt10_nonneg | auto]].
      apply in_or_app. left. apply in_flat_map. exists el.
      split; [exact Hel |]. apply in_or_app. left. cbn zeta. rewrite E.
      left. reflexivity.
    + unfold offsetPage in H.
      destruct (snd el) as [href |] eqn:Eh; [| contradiction].
      destruct (str_match href startCapture) as [m |] eqn:Em; [| contradiction].
      destruct H as [<- | []].
      exists (parseInt10 (group 1 m)).
      split; [| split; [apply parseInt10_nonneg | auto]].
      apply in_or_app. left. apply in_flat_map. exists el.
      split; [exact Hel |]. apply in_or_app. right. rewrite Eh, Em.
      left. reflexivity.
  - unfold captionPages in H.
    destruct (str_match (paginationCaption html) countPattern) as [m |];
      [| contradiction].
    destruct H as [<- | []].
    exists (parseInt10 (group 1 m)).
    split; [| split; [apply parseInt10_nonneg | auto]].
    apply in_or_app. right. left. reflexivity.
Qed.

Lemma signals_exact html s :
  exactNumbers html -> In s (signals html) -> s < 2 ^ 53.
Proof.
  intros E H. apply signals_numbersRead in H.
  destruct H as (n & Hn & H0 & Hs).
  unfold exactNumbers in E. rewrite Forall_forall in E. specialize (E n Hn).
  assert (P : 2 ^ 53 = 9007199254740992) by reflexivity. rewrite P in *.
  destruct Hs as [-> | [-> | ->]]; [exact E | |];
    Z.div_mod_to_equations; lia.
Qed.

(** C9 (as amended).  On a page whose numbers are below 2^53, the
    resolver returns the maximum of 1 and every signal it finds: the
    literal page numbers of the links, the pages implied by their offsets
    (offset / 20 + 1) and the message count divided by 20 and rounded up.
    It is defined on every markup, returns 1 when there is no signal, and
    never returns less than 1; the result is again below 2^53. *)
Theorem determineTotalPages_max (html : str) :
  exactNumbers html ->
  let pages := determineTotalPages paginationLinks paginationCaption html in
  pages = fold_left Z.max (signals html) 1 /\
  1 <= pages < 2 ^ 53 /\
  (forall s, In s (signals html) -> s <= pages) /\
  (pages = 1 \/ In pages (signals html)) /\
  (signals html = [] -> pages = 1) /\
  (forall s, In s (signals html) -> 1 <= s -> pages = largestSignal (signals html)).
Proof.
  intros Ex. cbn zeta. rewrite determineTotalPages_fold.
  split; [reflexivity |]. split.
  { split; [apply fold_max_ge |].
    destruct (fold_max_attained (signals html) 1) as [-> | H];
      [reflexivity | exact (@signals_exact _ _ Ex H)]. }
  split; [intros s; apply fold_max_In |].
  split; [apply fold_max_attained |].
  split; [intros ->; reflexivity |].
  intros s Hs H1. unfold largestSignal.
  destruct (signals html) as [| x l]; [contradiction |]. simpl.
  destruct (Z.max_spec 1 x) as [[_ ->] | [Hx E]]; [reflexivity |].
  rewrite E.
  assert (G : forall l a b s, In s l -> a <= s -> b <= s ->
                fold_left Z.max l a = fold_left Z.max l b).
  { clear. induction l as [| y l IH]; intros a b s H Ha Hb; [contradiction |].
    simpl. destruct H as [-> | H].
    - f_equal. lia.
    - destruct (Z.le_gt_cases y s) as [L | L].
      + apply (IH _ _ s H); lia.
      + f_equal. lia. }
  destruct Hs as [-> | Hs]; [f_equal; lia |].
  apply (G l 1 x s Hs); lia.
Qed.

End Pagination.

(** A page with three pagination links and a caption that counts 45
    messages. *)
Definition threeLinks (html : str) : list (str * option str) :=
  [(ustr "1", Some (ustr "./viewtopic.php?t=54158"));
   (ustr " 2 ", Some (ustr "./viewtopic.php?t=54158&start=20"));
   (ustr "След.", Some (ustr "./viewtopic.php?t=54158&start=40"))].

(** A caption that is the whole text of the page. *)
Definition wholePage (html : str) : str := html.

Lemma determineTotalPages_max_witness :
  let html := ustr "45 сообщение" in
  let pages := determineTotalPages threeLinks wholePage html in
  numbersRead threeLinks wholePage html = [1; 2; 20; 40; 45] /\
  signals threeLinks wholePage html = [1; 2; 2; 3; 3] /\
  pages = fold_left Z.max (signals threeLinks wholePage html) 1 /\
  1 <= pages < 2 ^ 53 /\
  (forall s, In s (signals threeLinks wholePage html) -> s <= pages) /\
  (pages = 1 \/ In pages (signals threeLinks wholePage html)) /\
  (signals threeLinks wholePage html = [] -> pages = 1) /\
  (forall s, In s (signals threeLinks wholePage html) -> 1 <= s ->
             pages = largestSignal (signals threeLinks wholePage html)).
Proof.
  cbv zeta.
  assert (N : numbersRead threeLinks wholePage (ustr "45 сообщение")
              = [1; 2; 20; 40; 45]) by (vm_compute; reflexivity).
  split; [exact N |]. split; [vm_compute; reflexivity |].
  apply (@determineTotalPages_max threeLinks wholePage (ustr "45 сообщение")).
  unfold exactNumbers. rewrite N. repeat constructor.
Defined.

(** C9 as stated fails when the only signal is below 1: a caption that
    counts zero messages gives the signal 0, and the resolver returns 1. *)
Lemma determineTotalPages_floor_one :
  let links := fun _ : str => @nil (str * option str) in
  let caption := fun html : str => html in
  let html := ustr "0 сообщение" in
  signals links caption html = [0] /\
  largestSignal (signals links caption html) = 0 /\
  determineTotalPages links caption html = 1 /\
  determineTotalPages links caption html
    <> largestSignal (signals links caption html).
Proof. vm_compute. repeat split; try reflexivity. discriminate. Qed.

(* ===================================================================== *)
(** * 18. The fetch client                                                *)
(* ===================================================================== *)

(** The events of [k] failed attempts, the first of them numbered
    [attempt]: each request is followed by its backoff wait. *)
Fixpoint backoffs (url : str) (attempt : Z) (k : nat) : list Event :=
  match k with
  | O => []
  | S k' =>
    EvHttpGet url :: EvSleep (500 * attempt) :: backoffs url (attempt + 1) k'
  end.

(** The inter-request delay after a successful request. *)
Definition throttle (this : Scraper) : list Event :=
  if truthyNum (delay (options this)) then [EvSleep (delay (options this))]
  else [].

Section FetchProperties.

Variable network : nat -> str -> Response.

(** How a fetch ends after [k] retried failures. *)
Definition FetchEnds (this : Scraper) (w : World) (url : str) (p : Z)
    (attempt : Z) (n k : nat) (out : Outcome str) (w' : World) : Prop :=
  (exists data t,
      network (requests w + k) url = RespOk data t /\
      out = Returned data /\
      trace w' = trace w ++ backoffs url attempt k ++ [EvHttpGet url]
                 ++ throttle this) \/
  (exists e t,
      network (requests w + k) url = RespErr e t /\
      out = Thrown (finalError p e) /\
      (S k = n \/ isRetriable e = false) /\
      trace w' = trace w ++ backoffs url attempt k ++ [EvHttpGet url]).

Lemma fetchAttempts_spec (url : str) (p : Z) :
  forall n attempt prev this w out this' w',
    fetchAttempts network n attempt url p prev this w = (out, this', w') ->
    attempt + Z.of_nat n = maxRetries (options this) + 1 ->
    (1 <= n)%nat ->
    this' = this /\ heap w' = heap w /\
    exists k, (k < n)%nat /\
      (forall i, (i < k)%nat ->
         exists e t, network (requests w + i) url = RespErr e t /\
                     isRetriable e = true) /\
      requests w' = (requests w + k + 1)%nat /\
      FetchEnds this w url p attempt n k out w'.
Proof.
  induction n as [| n IH]; intros attempt prev this w out this' w' H Hn H1;
    [lia |].
  cbn [fetchAttempts] in H. unfold bind, axios_get, getThis in H.
  destruct (network (requests w) url) as [data t | e t] eqn:Enet.
  - (* the request succeeds *)
    assert (E : out = Returned data /\ this' = this /\
                heap w' = heap w /\ requests w' = S (requests w) /\
                trace w' = (trace w ++ [EvHttpGet url]) ++ throttle this).
    { unfold throttle. destruct (truthyNum (delay (options this)));
        cbn in H; inversion H; subst; cbn; rewrite ?app_nil_r; auto. }
    destruct E as (-> & -> & Hh & Hr & Ht).
    split; [reflexivity |]. split; [exact Hh |].
    exists 0%nat. split; [lia |]. split; [intros i Hi; lia |].
    split; [lia |]. left. exists data, t.
    rewrite Nat.add_0_r. split; [exact Enet |]. split; [reflexivity |].
    rewrite Ht, <- app_assoc. reflexivity.
  - destruct ((attempt =? maxRetries (options this)) || negb (isRetriable e))
      eqn:Estop.
    + (* the last attempt, or a failure that is not retriable *)
      cbn in H. inversion H; subst; clear H. cbn.
      split; [reflexivity |]. split; [reflexivity |].
      exists 0%nat. split; [lia |]. split; [intros i Hi; lia |].
      split; [lia |]. right. exists e, t.
      rewrite Nat.add_0_r. split; [exact Enet |]. split; [reflexivity |].
      split; [| reflexivity].
      apply orb_true_iff in Estop. destruct Estop as [Ea | Er].
      * left. apply Z.eqb_eq in Ea. lia.
      * right. now apply negb_true_iff in Er.
    + (* a retriable failure: wait and try again *)
      apply orb_false_iff in Estop. destruct Estop as [Ea Er].
      apply Z.eqb_neq in Ea. apply negb_false_iff in Er.
      cbn in H. unfold bind, sleep in H. cbn in H.
      apply IH in H; [| lia | lia].
      destruct H as (-> & Hh & k & Hk & Hpre & Hreq & Hend).
      unfold FetchEnds in Hend. cbn [heap requests trace] in *.
      split; [reflexivity |]. split; [exact Hh |].
      exists (S k). split; [lia |]. split; [| split; [lia |]].
      * intros i Hi. destruct i as [| i].
        -- exists e, t. rewrite Nat.add_0_r. auto.
        -- destruct (Hpre i ltac:(lia)) as (e' & t' & Hn' & Hr').
           exists e', t'. split; [| exact Hr'].
           rewrite <- Hn'. f_equal. lia.
      * unfold FetchEnds. cbn [backoffs].
        replace (requests w + S k)%nat with (S (requests w) + k)%nat by lia.
        destruct Hend as [(d & t' & Hn' & -> & Ht) | (e' & t' & Hn' & -> & Hs & Ht)].
        -- left. exists d, t'. repeat split; auto.
           rewrite Ht, <- !app_assoc. reflexivity.
        -- right. exists e', t'. repeat split; auto.
           ++ destruct Hs as [Hs | Hs]; [left; lia | right; exact Hs].
           ++ rewrite Ht, <- !app_assoc. reflexivity.
Qed.

(** The code and the cause of a failure, and the failures that are
    retried, read off [fetchPageHtml]: the code is the error's own code
    when it has one and else the code of its cause; the cause text is the
    error's message, else that code, else a fixed text; the failure is
    retriable when the code is one of the three transient codes or the
    message mentions a socket hang up. *)
Lemma errorCode_spec e :
  errorCode e = match e_code e with
                | Some (c :: cs) => Some (c :: cs)
                | _ => e_cause_code e
                end.
Proof. unfold errorCode. destruct (e_code e) as [[| c cs] |]; reflexivity. Qed.

Lemma errorCause_spec e :
  errorCause e = match e_message e with
                 | Some (c :: cs) => c :: cs
                 | _ => match errorCode e with
                        | Some (c :: cs) => c :: cs
                        | _ => ustr "Неизвестная ошибка"
                        end
                 end.
Proof.
  unfold errorCause, errorMessage.
  destruct (e_message e) as [[| c cs] |]; cbn [truthyStr];
    destruct (errorCode e) as [[| x xs] |]; reflexivity.
Qed.

Lemma isRetriable_spec e :
  isRetriable e = true <->
  (exists c, errorCode e = Some c /\
             (c = ustr "ECONNRESET" \/ c = ustr "ETIMEDOUT" \/
              c = ustr "EAI_AGAIN")) \/
  (exists m, e_message e = Some m /\ Infix (ustr "socket hang up") m).
Proof.
  unfold isRetriable. rewrite orb_true_iff.
  assert (A : match errorCode e with
              | Some c => existsb (str_eqb c) retriableCodes
              | None => false
              end = true <->
              exists c, errorCode e = Some c /\
                (c = ustr "ECONNRESET" \/ c = ustr "ETIMEDOUT" \/
                 c = ustr "EAI_AGAIN")).
  { destruct (errorCode e) as [c |].
    - unfold retriableCodes. cbn [existsb]. rewrite !orb_true_iff, !str_eqb_eq.
      split.
      + intros [H | [H | [H | H]]]; [| | | discriminate];
          exists c; (split; [reflexivity | auto]).
      + intros (c' & E & H). apply Some_inj in E. subst c'. tauto.
    - split; [discriminate | intros (c & E & _); discriminate]. }
  assert (B : includes (errorMessage e) (ustr "socket hang up") = true <->
              exists m, e_message e = Some m /\
                        Infix (ustr "socket hang up") m).
  { unfold errorMessage. destruct (e_message e) as [m |].
    - rewrite includes_Infix. split.
      + intros H. exists m. auto.
      + intros (m' & E & H). apply Some_inj in E. subst m'. exact H.
    - split.
      + intros H. vm_compute in H. discriminate.
      + intros (m & E & _). discriminate. }
  tauto.
Qed.

(** C6 (as amended).  With a maximum attempt count of at least 1, a fetch
    of a page whose offset is below 2^53 (where the integers of the model
    are the Numbers of the code) makes at most that many requests; every
    failure it retries is retriable and is followed by a wait of 500 ms
    times the attempt number; it returns only the content of a successful
    request; it fails, with one error whose message holds the page number
    and the cause and whose code is that of the cause, at the first failure
    that is not retriable or at the failure of the last attempt.  When the
    first two attempts fail with retriable errors and the third succeeds
    (the maximum being at least 3), exactly the waits of 500 and 1000 ms
    occur and the third attempt's content is returned. *)
Theorem fetchPageHtml_retry (this : Scraper) (w : World) (p : Z) :
  1 <= maxRetries (options this) ->
  (p - 1) * 20 < 2 ^ 53 ->
  let url := buildPageUrl (baseUrl this) p in
  let R := Z.to_nat (maxRetries (options this)) in
  let codeOf := fun e : AxiosError =>
    match e_code e with
    | Some (c :: cs) => Some (c :: cs)
    | _ => e_cause_code e
    end in
  let causeOf := fun e : AxiosError =>
    match e_message e with
    | Some (c :: cs) => c :: cs
    | _ => match codeOf e with
           | Some (c :: cs) => c :: cs
           | _ => ustr "Неизвестная ошибка"
           end
    end in
  let retriable := fun e : AxiosError =>
    (exists c, codeOf e = Some c /\
               (c = ustr "ECONNRESET" \/ c = ustr "ETIMEDOUT" \/
                c = ustr "EAI_AGAIN")) \/
    (exists m, e_message e = Some m /\ Infix (ustr "socket hang up") m) in
  (forall out this' w',
     fetchPageHtml network p this w = (out, this', w') ->
     this' = this /\ heap w' = heap w /\
     exists k tr, (k < R)%nat /\
       (forall i, (i < k)%nat ->
          exists e t, network (requests w + i) url = RespErr e t /\
                      retriable e) /\
       requests w' = (requests w + k + 1)%nat /\
       trace w' = trace w ++ EvFetchPage p :: tr /\
       ((exists data t,
           network (requests w + k) url = RespOk data t /\
           out = Returned data /\
           tr = backoffs url 1 k ++ [EvHttpGet url] ++ throttle this) \/
        (exists e t,
           network (requests w + k) url = RespErr e t /\
           out = Thrown (mkError
                   (ustr "Не удалось загрузить страницу форума (страница "
                    ++ str_of_Z p ++ ustr "). " ++ causeOf e)
                   (codeOf e)) /\
           (S k = R \/ ~ retriable e) /\
           tr = backoffs url 1 k ++ [EvHttpGet url]))) /\
  (forall e1 t1 e2 t2 data t3,
     3 <= maxRetries (options this) ->
     network (requests w) url = RespErr e1 t1 -> retriable e1 ->
     network (requests w + 1) url = RespErr e2 t2 -> retriable e2 ->
     network (requests w + 2) url = RespOk data t3 ->
     exists w',
       fetchPageHtml network p this w = (Returned data, this, w') /\
       trace w' = trace w ++
         [EvFetchPage p; EvHttpGet url; EvSleep 500; EvHttpGet url;
          EvSleep 1000; EvHttpGet url] ++ throttle this).
Proof.
  intros HR _ url R codeOf causeOf retriable.
  assert (EC : forall e, codeOf e = errorCode e)
    by (intros e; symmetry; apply errorCode_spec).
  assert (EM : forall e, causeOf e = errorCause e).
  { intros e. unfold causeOf. rewrite EC. symmetry. apply errorCause_spec. }
  assert (ER : forall e, retriable e <-> isRetriable e = true).
  { intros e. unfold retriable. rewrite EC. symmetry. apply isRetriable_spec. }
  split.
  - intros out this' w' H.
    unfold fetchPageHtml, bind, emit, getThis in H.
    apply fetchAttempts_spec in H; [| lia | lia].
    destruct H as (-> & Hh & k & Hk & Hpre & Hreq & Hend).
    unfold FetchEnds in Hend. cbn [heap requests trace] in *.
    split; [reflexivity |]. split; [exact Hh |].
    assert (Hpre' : forall i, (i < k)%nat ->
              exists e t, network (requests w + i) url = RespErr e t /\
                          retriable e).
    { intros i Hi. destruct (Hpre i Hi) as (e & t & Hn & Hr).
      exists e, t. split; [exact Hn | apply ER; exact Hr]. }
    destruct Hend as [(d & t & Hn & -> & Ht) | (e & t & Hn & -> & Hs & Ht)].
    + exists k, (backoffs url 1 k ++ [EvHttpGet url] ++ throttle this).
      split; [exact Hk |]. split; [exact Hpre' |]. split; [exact Hreq |].
      split; [rewrite Ht, <- app_assoc; reflexivity |].
      left. exists d, t. auto.
    + exists k, (backoffs url 1 k ++ [EvHttpGet url]).
      split; [exact Hk |]. split; [exact Hpre' |]. split; [exact Hreq |].
      split; [rewrite Ht, <- app_assoc; reflexivity |].
      right. exists e, t. split; [exact Hn |]. split.
      * unfold finalError, friendlyMessage. rewrite EM, EC. reflexivity.
      * split; [| reflexivity].
        destruct Hs as [Hs | Hs]; [left; exact Hs |].
        right. rewrite ER, Hs. discriminate.
  - intros e1 t1 e2 t2 data t3 H3 N1 R1 N2 R2 N3.
    apply ER in R1, R2.
    assert (E3 : exists m, Z.to_nat (maxRetries (options this)) = S (S (S m))).
    { exists (Z.to_nat (maxRetries (options this)) - 3)%nat. lia. }
    destruct E3 as [m E3].
    unfold fetchPageHtml, bind, emit, getThis. cbn [trace requests heap clock].
    rewrite E3. cbn [fetchAttempts].
    unfold bind, axios_get, getThis, sleep. cbn [trace requests heap clock].
    fold url. rewrite N1, R1.
    replace (1 =? maxRetries (options this)) with false
      by (symmetry; apply Z.eqb_neq; lia).
    cbn [orb negb]. cbn [trace requests heap clock].
    replace (S (requests w)) with (requests w + 1)%nat by lia.
    rewrite N2, R2.
    replace (1 + 1 =? maxRetries (options this)) with false
      by (symmetry; apply Z.eqb_neq; lia).
    cbn [orb negb]. cbn [trace requests heap clock].
    replace (S (requests w + 1)) with (requests w + 2)%nat by lia.
    rewrite N3. unfold throttle, ret.
    destruct (truthyNum (delay (options this))); cbn;
      eexists; (split; [reflexivity |]); cbn;
      rewrite <- ?app_assoc; rewrite ?app_nil_r; reflexivity.
Qed.

End FetchProperties.

(* ===================================================================== *)
(** * 19. The scrape cycle                                                *)
(* ===================================================================== *)

(** The calls recorded in a trace. *)
Definition isCall (e : Event) : bool :=
  match e with
  | EvFetchPage _ | EvResolve => true
  | EvHttpGet _ | EvSleep _ => false
  end.

Definition calls (tr : list Event) : list Event := filter isCall tr.

Definition fetchedPages (tr : list Event) : list Z :=
  flat_map (fun e => match e with EvFetchPage p => [p] | _ => [] end) tr.

Definition resolutions (tr : list Event) : nat :=
  length (filter (fun e => match e with EvResolve => true | _ => false end) tr).

(** [n] consecutive page numbers from [a]. *)
Fixpoint pagesFrom (a : Z) (n : nat) : list Z :=
  match n with
  | O => []
  | S n' => a :: pagesFrom (a + 1) n'
  end.

Lemma calls_app a b : calls (a ++ b) = calls a ++ calls b.
Proof. apply filter_app. Qed.

Lemma length_store h : forall l v, length (store h l v) = length h.
Proof.
  induction h as [| a h IH]; intros l v; [reflexivity |].
  destruct l; simpl; [reflexivity | now rewrite IH].
Qed.

Lemma deref_store_other h : forall l l' v,
  l' <> l -> deref (store h l v) l' = deref h l'.
Proof.
  unfold deref. induction h as [| a h IH]; intros l l' v Hne; [reflexivity |].
  destruct l, l'; simpl; try reflexivity; try congruence.
  apply IH. congruence.
Qed.

Lemma deref_store_same h : forall l v,
  (l < length h)%nat -> deref (store h l v) l = v.
Proof.
  unfold deref. induction h as [| a h IH]; intros l v Hl; [simpl in Hl; lia |].
  destruct l; simpl; [reflexivity |]. apply IH. simpl in Hl. lia.
Qed.

(** The sequence of the pagination loop: the page count the resolver
    returns, capped when a cap is set. *)
Definition effectivePagesOf (o : Options) (totalPages : Z) : Z :=
  match maxPages o with
  | Some cap => if truthyNum cap then Z.min totalPages cap else totalPages
  | None => totalPages
  end.

(** The number of pages a cycle fetches: page 1, and the pages from 2 to
    the effective count. *)
Definition pageCount (o : Options) (totalPages : Z) : Z :=
  Z.max 1 (effectivePagesOf o totalPages).

(** The offsets in the URLs of the pages up to [pageNumber] are below
    2^53, so that the integers of this development are the Numbers of the
    code and print as the code prints them. *)
Definition exactOffsets (pageNumber : Z) : Prop :=
  (pageNumber - 1) * 20 < 2 ^ 53.

Section CycleProperties.

Variable Date_parse : str -> option Z.
Variable Array_sort : Comparator -> list DonationRecord -> list DonationRecord.
Variable network : nat -> str -> Response.
Variable paginationLinks : str -> list (str * option str).
Variable paginationCaption : str -> str.
Variable postContents : str -> list str.

Local Abbreviation scrape :=
  (scrapeAllDonations Date_parse Array_sort network paginationLinks paginationCaption
                      postContents).
Local Abbreviation resolve := (determineTotalPages paginationLinks paginationCaption).
Local Abbreviation extract := (extractDonationsFromHtml postContents).

(** A fetch changes neither the scraper nor the heap, and records no call
    besides its own. *)
Lemma fetchAttempts_frame (url : str) (p : Z) :
  forall n attempt prev this w out this' w',
    fetchAttempts network n attempt url p prev this w = (out, this', w') ->
    this' = this /\ heap w' = heap w /\
    exists tr, trace w' = trace w ++ tr /\ calls tr = [].
Proof.
  induction n as [| n IH]; intros attempt prev this w out this' w' H.
  - cbn in H. inversion H; subst. repeat split; auto.
    exists []. now rewrite app_nil_r.
  - cbn [fetchAttempts] in H. unfold bind, axios_get, getThis in H.
    destruct (network (requests w) url) as [data t | e t].
    + destruct (truthyNum (delay (options this)));
        cbn in H; inversion H; subst; cbn; repeat split; auto;
        eexists; rewrite <- ?app_assoc; split; reflexivity.
    + destruct ((attempt =? maxRetries (options this)) || negb (isRetriable e)).
      * cbn in H. inversion H; subst; cbn. repeat split; auto.
        eexists; split; reflexivity.
      * cbn in H. unfold bind, sleep in H. cbn in H.
        apply IH in H. destruct H as (-> & Hh & tr & Ht & Hc).
        cbn [heap trace] in *. repeat split; auto.
        exists (EvHttpGet url :: EvSleep (500 * attempt) :: tr).
        rewrite Ht, <- !app_assoc. split; [reflexivity | exact Hc].
Qed.

Lemma fetchPageHtml_frame (p : Z) this w out this' w' :
  fetchPageHtml network p this w = (out, this', w') ->
  this' = this /\ heap w' = heap w /\
  exists tr, trace w' = trace w ++ tr /\ calls tr = [EvFetchPage p].
Proof.
  intros H. unfold fetchPageHtml, bind, emit, getThis in H.
  apply fetchAttempts_frame in H. destruct H as (-> & Hh & tr & Ht & Hc).
  cbn [heap trace] in *. repeat split; auto.
  exists (EvFetchPage p :: tr). rewrite Ht, <- app_assoc.
  split; [reflexivity |]. unfold calls in *. cbn. now rewrite Hc.
Qed.

(** The loop over the remaining pages writes only to [this.donations];
    it fetches the pages in order and stops at the first failure. *)
Lemma fetchRemaining_spec :
  forall n pageNum this w out this' w',
    fetchRemaining network postContents n pageNum this w = (out, this', w') ->
    this' = this /\ length (heap w') = length (heap w) /\
    (forall l, l <> donations this -> deref (heap w') l = deref (heap w) l) /\
    exists tr, trace w' = trace w ++ tr /\
      match out with
      | Returned _ => calls tr = map EvFetchPage (pagesFrom pageNum n)
      | Thrown _ =>
        exists k, (k < n)%nat /\
                  calls tr = map EvFetchPage (pagesFrom pageNum (S k))
      end.
Proof.
  induction n as [| n IH]; intros pageNum this w out this' w' H.
  - cbn in H. inversion H; subst. repeat split; auto.
    exists []. now rewrite app_nil_r.
  - cbn [fetchRemaining] in H. unfold bind at 1 in H.
    destruct (fetchPageHtml network pageNum this w) as [[o1 this1] w1] eqn:F.
    apply fetchPageHtml_frame in F. destruct F as (-> & Hh1 & tr1 & Ht1 & Hc1).
    destruct o1 as [html | e].
    + unfold bind, getThis, readArray, writeArray in H. cbn in H.
      apply IH in H. destruct H as (-> & Hlen & Hother & tr & Ht & Hc).
      cbn [heap trace] in *.
      split; [reflexivity |]. split; [now rewrite Hlen, length_store, Hh1 |].
      split.
      * intros l Hl. rewrite (Hother l Hl), deref_store_other, Hh1 by exact Hl.
        reflexivity.
      * exists (tr1 ++ tr). rewrite Ht, Ht1, <- app_assoc.
        split; [reflexivity |]. rewrite calls_app, Hc1.
        destruct out as [u | e].
        -- rewrite Hc. reflexivity.
        -- destruct Hc as (k & Hk & Hc). exists (S k). split; [lia |].
           rewrite Hc. reflexivity.
    + inversion H; subst. split; [reflexivity |]. split; [now rewrite Hh1 |].
      split; [intros; now rewrite Hh1 |].
      exists tr1. split; [exact Ht1 |]. exists 0%nat. split; [lia |].
      exact Hc1.
Qed.

Definition withDonations (this : Scraper) (l : loc) : Scraper :=
  mkScraper (baseUrl this) (options this) l (cache this).

Lemma scrape_hit this w l :
  cacheHit this (clock w) = Some l ->
  scrape this w = (Returned l, withDonations this l, w).
Proof.
  intros H. unfold scrapeAllDonations, bind, Date_now, getThis.
  rewrite H. reflexivity.
Qed.

(** What a cycle that misses the cache does. *)
Lemma scrape_miss this w out this' w' :
  cacheHit this (clock w) = None ->
  scrape this w = (out, this', w') ->
  (forall l, (l < length (heap w))%nat ->
             deref (heap w') l = deref (heap w) l) /\
  exists tr, trace w' = trace w ++ tr /\
    match out with
    | Thrown _ =>
      cache this' = cache this /\
      ((calls tr = [EvFetchPage 1] /\ this' = this /\ heap w' = heap w) \/
       (exists firstHtml k,
          (k < Z.to_nat (effectivePagesOf (options this) (resolve firstHtml) - 1))%nat /\
          calls tr = EvFetchPage 1 :: EvResolve
                       :: map EvFetchPage (pagesFrom 2 (S k)) /\
          this' = withDonations this (length (heap w))))
    | Returned l =>
      exists firstHtml w1,
        fetchPageHtml network 1 this w = (Returned firstHtml, this, w1) /\
        l = length (heap w) /\
        length (heap w') = S (length (heap w)) /\
        this' = mkScraper (baseUrl this) (options this) l
                  (mkCache (Some l) (clock w')
                           (Some (generateXLSX (deref (heap w') l)))) /\
        calls tr = EvFetchPage 1 :: EvResolve
                     :: map EvFetchPage
                          (pagesFrom 2
                             (Z.to_nat (effectivePagesOf (options this)
                                          (resolve firstHtml) - 1)))
    end.
Proof.
  intros Hmiss H.
  unfold scrapeAllDonations in H. unfold bind at 1 2 in H.
  unfold Date_now at 1, getThis at 1 in H. rewrite Hmiss in H.
  unfold bind at 1 in H.
  destruct (fetchPageHtml network 1 this w) as [[o1 this1] w1] eqn:F.
  pose proof F as F0.
  apply fetchPageHtml_frame in F. destruct F as (-> & Hh1 & tr1 & Ht1 & Hc1).
  destruct o1 as [firstHtml | e].
  2:{ inversion H; subst. split; [intros; now rewrite Hh1 |].
      exists tr1. split; [exact Ht1 |]. split; [reflexivity |]. left. auto. }
  fold (effectivePagesOf (options this) (resolve firstHtml)) in H.
  set (E := effectivePagesOf (options this) (resolve firstHtml)) in *.
  unfold bind at 1 2 3 in H. unfold emit, newArray, setDonations, alloc in H.
  cbn [heap clock requests trace] in H. unfold bind at 1 in H.
  set (this2 := mkScraper (baseUrl this) (options this) (length (heap w1))
                  (cache this)) in *.
  set (w2 := mkWorld (heap w1 ++ [extract firstHtml]) (clock w1) (requests w1)
               (trace w1 ++ [EvResolve])) in *.
  destruct (fetchRemaining network postContents (Z.to_nat (E - 1)) 2 this2 w2)
    as [[o3 this3] w3] eqn:R.
  apply fetchRemaining_spec in R.
  destruct R as (-> & Hlen & Hother & tr3 & Ht3 & Hc3).
  assert (Hold : forall l, (l < length (heap w))%nat ->
                           deref (heap w3) l = deref (heap w) l).
  { intros l Hl. rewrite Hother by (unfold this2; cbn; rewrite Hh1; lia).
    unfold w2. cbn [heap]. rewrite <- Hh1 in *.
    unfold deref. apply app_nth1. exact Hl. }
  assert (Htr : trace w3 = trace w ++ tr1 ++ EvResolve :: tr3).
  { rewrite Ht3. unfold w2. cbn [trace]. rewrite Ht1, <- !app_assoc.
    reflexivity. }
  assert (Hcalls : calls (tr1 ++ EvResolve :: tr3)
                   = EvFetchPage 1 :: EvResolve :: calls tr3).
  { rewrite calls_app, Hc1. reflexivity. }
  destruct o3 as [u | e].
  - unfold bind, readArray, writeArray, Date_now, setCache, ret in H.
    cbn [heap clock requests trace donations baseUrl options cache] in H.
    inversion H; subst out this' w'; clear H. cbn [heap trace clock].
    assert (Hl2 : (length (heap w1) < length (heap w3))%nat).
    { rewrite Hlen. unfold w2. cbn [heap]. rewrite length_app. simpl. lia. }
    split.
    + intros l Hl. rewrite deref_store_other by (rewrite Hh1; lia).
      apply Hold. exact Hl.
    + exists (tr1 ++ EvResolve :: tr3). split; [exact Htr |].
      exists firstHtml, w1. split; [reflexivity |].
      split; [now rewrite Hh1 |]. split.
      * rewrite length_store, Hlen. unfold w2. cbn [heap].
        rewrite length_app, Hh1. simpl. lia.
      * split; [now rewrite Hh1 | now rewrite Hcalls, Hc3].
  - inversion H; subst out this' w'; clear H.
    split; [exact Hold |].
    exists (tr1 ++ EvResolve :: tr3). split; [exact Htr |].
    split; [reflexivity |]. right.
    destruct Hc3 as (k & Hk & Hc3). exists firstHtml, k.
    split; [exact Hk |]. split; [now rewrite Hcalls, Hc3 |].
    unfold this2, withDonations. now rewrite Hh1.
Qed.

Lemma fetchedPages_calls tr : fetchedPages (calls tr) = fetchedPages tr.
Proof.
  unfold fetchedPages, calls. induction tr as [| e tr IH]; [reflexivity |].
  destruct e; cbn; rewrite ?IH; reflexivity.
Qed.

Lemma resolutions_calls tr : resolutions (calls tr) = resolutions tr.
Proof.
  unfold resolutions, calls. induction tr as [| e tr IH]; [reflexivity |].
  destruct e; cbn; rewrite ?IH; reflexivity.
Qed.

Lemma fetchedPages_map ps : fetchedPages (map EvFetchPage ps) = ps.
Proof.
  unfold fetchedPages. induction ps as [| p ps IH]; [reflexivity |].
  cbn. now rewrite IH.
Qed.

Lemma resolutions_map ps : resolutions (map EvFetchPage ps) = 0%nat.
Proof. unfold resolutions. induction ps as [| p ps IH]; [reflexivity |]. exact IH. Qed.

Lemma resolutions_cycle ps :
  resolutions (EvFetchPage 1 :: EvResolve :: map EvFetchPage ps) = 1%nat.
Proof.
  change (resolutions (EvFetchPage 1 :: EvResolve :: map EvFetchPage ps))
    with (S (resolutions (map EvFetchPage ps))).
  now rewrite resolutions_map.
Qed.

Lemma fetchedPages_cycle ps :
  fetchedPages (EvFetchPage 1 :: EvResolve :: map EvFetchPage ps) = 1 :: ps.
Proof.
  change (fetchedPages (EvFetchPage 1 :: EvResolve :: map EvFetchPage ps))
    with (1 :: fetchedPages (map EvFetchPage ps)).
  now rewrite fetchedPages_map.
Qed.

Lemma cacheHit_None this now :
  c_donations (cache this) = None \/
  cacheTtl (options this) <= now - c_timestamp (cache this) ->
  cacheHit this now = None.
Proof.
  unfold cacheHit. intros [-> | H]; [reflexivity |].
  destruct (c_donations (cache this)); [| reflexivity].
  destruct (Z.ltb_spec (now - c_timestamp (cache this)) (cacheTtl (options this)));
    [lia | reflexivity].
Qed.

Lemma cacheHit_Some this now l :
  c_donations (cache this) = Some l ->
  now - c_timestamp (cache this) < cacheTtl (options this) ->
  cacheHit this now = Some l.
Proof.
  unfold cacheHit. intros -> H.
  destruct (Z.ltb_spec (now - c_timestamp (cache this)) (cacheTtl (options this)));
    [reflexivity | lia].
Qed.

(** Every request from the [from]-th on is answered with a page. *)
Definition serves (from : nat) : Prop :=
  forall k url, (from <= k)%nat -> exists data t, network k url = RespOk data t.

Lemma fetchPageHtml_first_try (p : Z) this w data t :
  1 <= maxRetries (options this) ->
  network (requests w) (buildPageUrl (baseUrl this) p) = RespOk data t ->
  exists w', fetchPageHtml network p this w = (Returned data, this, w') /\
             requests w' = S (requests w).
Proof.
  intros HR N. unfold fetchPageHtml, bind, emit, getThis.
  cbn [heap clock requests trace].
  assert (E : exists m, Z.to_nat (maxRetries (options this)) = S m).
  { exists (Z.to_nat (maxRetries (options this)) - 1)%nat. lia. }
  destruct E as [m ->]. cbn [fetchAttempts].
  unfold bind, axios_get, getThis. cbn [heap clock requests trace].
  rewrite N. destruct (truthyNum (delay (options this)));
    cbn; eexists; split; reflexivity.
Qed.

Lemma fetchRemaining_completes :
  forall n pageNum this w,
    1 <= maxRetries (options this) -> serves (requests w) ->
    exists w', fetchRemaining network postContents n pageNum this w
                 = (Returned tt, this, w') /\
               requests w' = (requests w + n)%nat.
Proof.
  induction n as [| n IH]; intros pageNum this w HR S.
  - exists w. split; [reflexivity | lia].
  - destruct (S (requests w) (buildPageUrl (baseUrl this) pageNum)
                ltac:(lia)) as (data & t & N).
    destruct (fetchPageHtml_first_try pageNum this w HR N) as (w1 & F & R1).
    cbn [fetchRemaining]. unfold bind at 1. rewrite F.
    unfold bind, getThis, readArray, writeArray. cbn beta iota zeta.
    match goal with |- context [fetchRemaining _ _ n _ this ?w2] =>
      destruct (IH (pageNum + 1) this w2 HR) as (w' & F' & R')
    end.
    { intros k url Hk. apply S. cbn [requests] in Hk. lia. }
    exists w'. split; [exact F' |]. cbn [requests] in R'. lia.
Qed.

(** C5 (as amended).  When the cache holds an array and is younger than
    the TTL, a cycle returns that very array and leaves the world as it
    was: no fetch, no request, no wait, no write.  When the cache is empty
    or its age has reached the TTL, a cycle that completes has called the
    resolver exactly once, on the text of page 1, and [fetchPageHtml]
    exactly once for each of the pages 1 to N in order.  N is the resolved
    page count when no cap is set (a cap of 0 counts as none), the smaller
    of the count and the cap for a cap of 1 or more, and 1 for a negative
    cap: page 1 is fetched whatever the cap.  A cycle completes, with one
    request per page, whenever every request is answered and at least one
    attempt is allowed.  A cycle that aborts has fetched an initial run of
    the pages, each once, and resolved at most once. *)
Theorem scrape_cache_and_fetches (this : Scraper) (w : World) :
  let stale :=
    c_donations (cache this) = None \/
    cacheTtl (options this) <= clock w - c_timestamp (cache this) in
  (forall l,
     c_donations (cache this) = Some l ->
     clock w - c_timestamp (cache this) < cacheTtl (options this) ->
     scrape this w = (Returned l, withDonations this l, w)) /\
  (forall l this' w',
     stale ->
     scrape this w = (Returned l, this', w') ->
     exists firstHtml w1 tr,
       fetchPageHtml network 1 this w = (Returned firstHtml, this, w1) /\
       trace w' = trace w ++ tr /\
       resolutions tr = 1%nat /\
       (exactNumbers paginationLinks paginationCaption firstHtml ->
        fetchedPages tr
        = pagesFrom 1 (Z.to_nat (pageCount (options this) (resolve firstHtml))))) /\
  (forall total,
     1 <= total ->
     let N := pageCount (options this) total in
     1 <= N <= total /\
     (maxPages (options this) = None \/ maxPages (options this) = Some 0 ->
      N = total) /\
     (forall cap, maxPages (options this) = Some cap -> 1 <= cap ->
                  N = Z.min total cap /\ N <= cap) /\
     (forall cap, maxPages (options this) = Some cap -> cap < 0 ->
                  N = 1 /\ cap < N)) /\
  (forall firstHtml t,
     stale ->
     1 <= maxRetries (options this) ->
     serves (requests w) ->
     network (requests w) (buildPageUrl (baseUrl this) 1) = RespOk firstHtml t ->
     exactNumbers paginationLinks paginationCaption firstHtml ->
     exists l this' w',
       scrape this w = (Returned l, this', w') /\
       requests w'
       = (requests w
          + Z.to_nat (pageCount (options this) (resolve firstHtml)))%nat) /\
  (forall e this' w',
     scrape this w = (Thrown e, this', w') ->
     exists tr k,
       trace w' = trace w ++ tr /\
       fetchedPages tr = pagesFrom 1 (S k) /\
       (resolutions tr <= 1)%nat).
Proof.
  intros stale. split; [| split; [| split; [| split]]].
  - intros l Hc Hage. apply scrape_hit. apply cacheHit_Some; assumption.
  - intros l this' w' Hstale H.
    apply scrape_miss in H; [| apply cacheHit_None; exact Hstale].
    destruct H as (_ & tr & Ht & firstHtml & w1 & F & _ & _ & _ & Hc).
    exists firstHtml, w1, tr. split; [exact F |]. split; [exact Ht |].
    split.
    + rewrite <- resolutions_calls, Hc. apply resolutions_cycle.
    + intros _. rewrite <- fetchedPages_calls, Hc, fetchedPages_cycle.
      unfold pageCount.
      set (E := effectivePagesOf (options this) (resolve firstHtml)).
      replace (Z.to_nat (Z.max 1 E)) with (S (Z.to_nat (E - 1))) by lia.
      reflexivity.
  - intros total T1. cbn zeta. unfold pageCount, effectivePagesOf.
    split; [| split; [| split]].
    + destruct (maxPages (options this)) as [cap |]; [| lia].
      destruct (truthyNum cap); lia.
    + intros [-> | ->]; cbn; lia.
    + intros cap -> H1. unfold truthyNum.
      destruct (Z.eqb_spec cap 0); cbn; lia.
    + intros cap -> H1. unfold truthyNum.
      destruct (Z.eqb_spec cap 0); cbn; lia.
  - intros firstHtml t Hstale HR S N _.
    destruct (fetchPageHtml_first_try 1 this w HR N) as (w1 & F & R1).
    unfold scrapeAllDonations. unfold bind at 1 2.
    unfold Date_now at 1, getThis at 1.
    rewrite (cacheHit_None this (clock w) Hstale).
    unfold bind at 1. rewrite F.
    fold (effectivePagesOf (options this) (resolve firstHtml)).
    set (E := effectivePagesOf (options this) (resolve firstHtml)).
    unfold bind at 1 2 3. unfold emit, newArray, setDonations, alloc.
    cbn [heap clock requests trace]. unfold bind at 1.
    match goal with |- context [fetchRemaining _ _ _ _ ?this2 ?w2] =>
      destruct (fetchRemaining_completes (Z.to_nat (E - 1)) 2 this2 w2)
        as (w3 & F3 & R3)
    end.
    { exact HR. }
    { intros k url Hk. apply S. cbn [requests] in Hk. lia. }
    rewrite F3.
    unfold bind, readArray, writeArray, Date_now, setCache, ret.
    cbn [heap clock requests trace donations baseUrl options cache].
    eexists. eexists. eexists. split; [reflexivity |].
    cbn [requests] in *. unfold pageCount. fold E. lia.
  - intros e this' w' H.
    assert (Hmiss : cacheHit this (clock w) = None).
    { destruct (cacheHit this (clock w)) as [l |] eqn:E; [| reflexivity].
      rewrite (scrape_hit _ _ E) in H. discriminate. }
    apply scrape_miss in H; [| exact Hmiss].
    destruct H as (_ & tr & Ht & _ & [(Hc & _) | (html & k & _ & Hc & _)]).
    + exists tr, 0%nat. split; [exact Ht |].
      rewrite <- fetchedPages_calls, <- resolutions_calls, Hc.
      split; [reflexivity | cbn; lia].
    + exists tr, (S k). split; [exact Ht |].
      rewrite <- fetchedPages_calls, <- resolutions_calls, Hc.
      rewrite fetchedPages_cycle, resolutions_cycle.
      split; [reflexivity | lia].
Qed.

End CycleProperties.

(* ===================================================================== *)
(** * 20. A request: the failed cycle and the summary                     *)
(* ===================================================================== *)



Lemma calculateTotals_count ds : t_count (calculateTotals ds) = Z.of_nat (length ds).
Proof.
  unfold calculateTotals.
  assert (G : forall l init,
    t_count (fold_left
      (fun tot d =>
         mkTotals (t_count tot + 1) (plus (t_gross tot) (grossAmount d))
                  (plus (t_tax tot) (tax d)) (plus (t_net tot) (netAmount d)))
      l init) = t_count init + Z.of_nat (length l)).
  { induction l as [| d l IH]; intros init; cbn [fold_left length];
      [lia |]. rewrite IH. cbn [t_count]. lia. }
  rewrite G. reflexivity.
Qed.

Section RequestProperties.

Variable toLowerCase : str -> str.
Variable Date_parse : str -> option Z.
Variable Array_sort : Comparator -> list DonationRecord -> list DonationRecord.
Variable network : nat -> str -> Response.
Variable paginationLinks : str -> list (str * option str).
Variable paginationCaption : str -> str.
Variable postContents : str -> list str.
Variable toFixed2 : number -> str.
Variable toLocaleDateString : option Z -> str.

Local Abbreviation scrape :=
  (scrapeAllDonations Date_parse Array_sort network paginationLinks paginationCaption
                      postContents).
Local Abbreviation request :=
  (processTelegramRequest toLowerCase Date_parse Array_sort network paginationLinks
     paginationCaption postContents toFixed2 toLocaleDateString).



Lemma scrape_hit_never_throws this w e this' w' :
  scrape this w = (Thrown e, this', w') -> cacheHit this (clock w) = None.
Proof.
  intros H. destruct (cacheHit this (clock w)) as [l |] eqn:E; [| reflexivity].
  rewrite (scrape_hit Date_parse Array_sort network paginationLinks paginationCaption
             postContents _ _ E) in H. discriminate.
Qed.

Lemma str_eqb_refl s : str_eqb s s = true.
Proof. apply str_eqb_eq. reflexivity. Qed.

(** C7 (as amended).  When a cycle aborts on a failed fetch, the cache of
    the scraper - the array it refers to, its timestamp and its report - is
    what it was before the cycle, every array that existed before the cycle
    (the cached one among them) has its old contents, and the request that
    ran the cycle resolves to a failure payload, which carries the error
    text and no records. *)
Theorem failed_cycle_keeps_cache (this : Scraper) (w : World) (e : JsError)
    (this' : Scraper) (w' : World) :
  scrape this w = (Thrown e, this', w') ->
  cache this' = cache this /\
  (forall l, (l < length (heap w))%nat ->
             deref (heap w') l = deref (heap w) l) /\
  (forall searchTermsString opts,
     request (baseUrl this) searchTermsString opts (Some this) w
     = (Failure (message e) (ustr "❌ Ошибка: " ++ message e), Some this', w')).
Proof.
  intros H. pose proof (scrape_hit_never_throws _ _ H) as E.
  pose proof H as H0. apply scrape_miss in H0; [| exact E].
  destruct H0 as (Hold & tr & _ & Hc & _).
  split; [exact Hc |]. split; [exact Hold |].
  intros s opts. unfold processTelegramRequest.
  rewrite str_eqb_refl. unfold bind at 1. rewrite H. reflexivity.
Qed.


End RequestProperties.

(* ===================================================================== *)
(** * 21. A sample host and sample runs                                   *)
(* ===================================================================== *)

(** A small host to run the model on: case conversion for Latin and
    Cyrillic letters, dates read as Minsk time, a stable insertion sort,
    pages whose text is their single post and whose caption is the page
    text, and plain renderings of numbers and dates. *)
Module Sample.

Definition lowerUnit (c : char) : char :=
  if ((65 <=? c) && (c <=? 90))%N then (c + 32)%N
  else if ((1040 <=? c) && (c <=? 1071))%N then (c + 32)%N
  else if ((1024 <=? c) && (c <=? 1039))%N then (c + 80)%N
  else c.

Definition toLowerCase (s : str) : str := map lowerUnit s.

Definition LocalTZA : Z := 10800000.

Definition Date_parse : str -> option Z := fixedOffsetParse LocalTZA.

Definition Array_sort : Comparator -> list DonationRecord -> list DonationRecord :=
  @insertionSort DonationRecord.

Definition postContents (html : str) : list str := [html].
Definition paginationLinks (html : str) : list (str * option str) := [].
Definition paginationCaption (html : str) : str := html.

Definition pad2 (z : Z) : str :=
  if z <? 10 then ustr "0" ++ str_of_Z z else str_of_Z z.

(** [x.toFixed(2)] for a finite number below 10^21: the hundredths nearest
    to [x], the larger when two are as near. *)
Definition toFixed2 (x : number) : str :=
  match x with
  | S754_zero _ => ustr "0.00"
  | S754_infinity s => if s then ustr "-Infinity" else ustr "Infinity"
  | S754_nan => ustr "NaN"
  | S754_finite s m e =>
    let n :=
      match e with
      | Zneg k => (2 * (Zpos m * 100) + Zpos (Pos.pow 2 k)) / (2 * Zpos (Pos.pow 2 k))
      | _ => Zpos m * 100 * 2 ^ e
      end in
    (if s then ustr "-" else []) ++ str_of_Z (n / 100) ++ [DOT] ++ pad2 (n mod 100)
  end.

(** [toLocaleDateString("ru-RU", ...)]: the local calendar day as
    [DD.MM.YYYY]. *)
Definition toLocaleDateString (d : option Z) : str :=
  match d with
  | None => ustr "Invalid Date"
  | Some v =>
    let z := (v + LocalTZA) / msPerDay + 719468 in
    let era := z / 146097 in
    let doe := z - era * 146097 in
    let yoe := (doe - doe / 1460 + doe / 36524 - doe / 146096) / 365 in
    let doy := doe - (365 * yoe + yoe / 4 - yoe / 100) in
    let mp := (5 * doy + 2) / 153 in
    let dd := doy - (153 * mp + 2) / 5 + 1 in
    let mm := if mp <? 10 then mp + 3 else mp - 9 in
    let yy := yoe + era * 400 + (if mm <=? 2 then 1 else 0) in
    pad2 dd ++ [DOT] ++ pad2 mm ++ [DOT] ++ str_of_Z yy
  end.

Definition forumUrl : str :=
  ustr "https://forum.zooshans.by/viewtopic.php?f=15&t=54158".

(** Page 1 announces 40 messages, that is two pages. *)
Definition page1 : str :=
  ustr "ЕРИП 13.01.2025 13:46:08 сено для лошади 30.00 0.06 29.94 BYN"
  ++ [NL] ++ ustr "40 сообщение".

Definition page2 : str :=
  ustr "WebPay 01.02.2025 10:00:00 на корм коту 5.00 0.01 4.99 BYN".

Definition connectionReset : AxiosError :=
  mkAxiosError (Some (ustr "ECONNRESET")) None (Some (ustr "read ECONNRESET")).

Definition isSecondPage (url : str) : bool := includes url (ustr "start=20").

(** Three networks: one that serves both pages, one whose first two
    requests are reset, one on which page 2 is always reset. *)
Definition online (n : nat) (url : str) : Response :=
  if isSecondPage url then RespOk page2 120 else RespOk page1 150.

Definition flaky (n : nat) (url : str) : Response :=
  match n with
  | 0%nat | 1%nat => RespErr connectionReset 30
  | _ => RespOk page1 150
  end.

Definition secondPageDown (n : nat) (url : str) : Response :=
  if isSecondPage url then RespErr connectionReset 30 else RespOk page1 150.

Definition defaults : Options :=
  mkOptions 500 None 1800000 defaultUserAgent 30000 3.

Definition horse : DonationRecord :=
  donationAt "13.01.2025 13:46:08" (Some "сено для лошади"%string).
Definition cat : DonationRecord :=
  donationAt "01.02.2025 10:00:00" (Some "на корм коту"%string).
Definition old : DonationRecord :=
  donationAt "31.12.2024 23:59:59" (Some "старое"%string).

(** A new scraper, before its first cycle. *)
Definition fresh : Scraper :=
  mkScraper forumUrl defaults 0%nat (mkCache None 0 None).
Definition freshWorld : World := mkWorld [[]] 5000 0%nat [].

(** A scraper whose cache, filled at time 0, holds two records. *)
Definition cached : Scraper :=
  mkScraper forumUrl defaults 1%nat
    (mkCache (Some 1%nat) 0 (Some (generateXLSX [horse; cat]))).
Definition warmWorld : World := mkWorld [[]; [horse; cat]] 60000 7%nat [].

(** The same kind of scraper at a time when its cache, which holds one
    record, has expired. *)
Definition expired : Scraper :=
  mkScraper forumUrl defaults 1%nat
    (mkCache (Some 1%nat) 0 (Some (generateXLSX [old]))).
Definition lateWorld : World := mkWorld [[]; [old]] 2000000 7%nat [].

End Sample.

Example spec_scenario_filter :
  filter (commentMatches Sample.toLowerCase [ustr "лошад"])
         [Sample.horse; Sample.cat] = [Sample.horse].
Proof. vm_compute. reflexivity. Qed.

Example sample_first_cycle :
  let '(out, this', w') :=
    scrapeAllDonations Sample.Date_parse Sample.Array_sort Sample.online Sample.paginationLinks
      Sample.paginationCaption Sample.postContents Sample.fresh
      Sample.freshWorld in
  out = Returned 1%nat /\
  map comment (deref (heap w') 1%nat)
    = [Some (ustr "сено для лошади"); Some (ustr "на корм коту")] /\
  calls (trace w') = [EvFetchPage 1; EvResolve; EvFetchPage 2] /\
  c_donations (cache this') = Some 1%nat /\
  c_timestamp (cache this') = 6270.
Proof. vm_compute. repeat split; reflexivity. Qed.

Example sample_summary :
  match processTelegramRequest Sample.toLowerCase Sample.Date_parse Sample.Array_sort Sample.online
          Sample.paginationLinks Sample.paginationCaption Sample.postContents
          Sample.toFixed2 Sample.toLocaleDateString
          Sample.forumUrl (ustr " лошад ,") noOptions
          (Some Sample.cached) Sample.warmWorld with
  | (Success _ msg n _ fl, _, _) =>
    n = 1 /\ fl = [Sample.horse] /\
    includes msg (ustr "*Найдено:* 1 пожертвований на 01.02.2025") = true /\
    includes msg (ustr "*Общая сумма:* 10.00 BYN") = true
  | _ => False
  end.
Proof. vm_compute. repeat split; reflexivity. Qed.

(** ** The theorems at sample inputs *)

Lemma filterDonationsByComments_spec_witness :
  filterDonationsByComments Sample.toLowerCase None Sample.cached Sample.warmWorld
    = (Returned (donations Sample.cached), Sample.cached, Sample.warmWorld) /\
  filterDonationsByComments Sample.toLowerCase (Some []) Sample.cached
      Sample.warmWorld
    = (Returned (donations Sample.cached), Sample.cached, Sample.warmWorld) /\
  forall t ts, exists l w',
    filterDonationsByComments Sample.toLowerCase (Some (t :: ts)) Sample.cached
        Sample.warmWorld
      = (Returned l, Sample.cached, w') /\
    deref (heap w') l
      = filter (commentMatches Sample.toLowerCase (t :: ts))
               (deref (heap Sample.warmWorld) (donations Sample.cached)) /\
    (forall d, In d (deref (heap w') l) <->
               In d (deref (heap Sample.warmWorld) (donations Sample.cached)) /\
               keptBySpec Sample.toLowerCase (t :: ts) d) /\
    (forall d, comment d = None -> ~ In d (deref (heap w') l)) /\
    (forall l0, (l0 < length (heap Sample.warmWorld))%nat ->
                deref (heap w') l0 = deref (heap Sample.warmWorld) l0).
Proof.
  apply (@filterDonationsByComments_spec Sample.toLowerCase Sample.cached
           Sample.warmWorld).
  intros d [<- | [<- | []]]; discriminate.
Defined.

Lemma fetchPageHtml_retry_witness :
  exists w',
    fetchPageHtml Sample.flaky 1 Sample.fresh Sample.freshWorld
      = (Returned Sample.page1, Sample.fresh, w') /\
    trace w' = trace Sample.freshWorld ++
      [EvFetchPage 1;
       EvHttpGet (buildPageUrl (baseUrl Sample.fresh) 1); EvSleep 500;
       EvHttpGet (buildPageUrl (baseUrl Sample.fresh) 1); EvSleep 1000;
       EvHttpGet (buildPageUrl (baseUrl Sample.fresh) 1)]
      ++ throttle Sample.fresh.
Proof.
  assert (HR : 1 <= maxRetries (options Sample.fresh)) by (simpl; lia).
  assert (HP : (1 - 1) * 20 < 2 ^ 53) by reflexivity.
  destruct (@fetchPageHtml_retry Sample.flaky Sample.fresh Sample.freshWorld 1
              HR HP) as [_ S].
  assert (Reset : (exists c,
             match e_code Sample.connectionReset with
             | Some (c :: cs) => Some (c :: cs)
             | _ => e_cause_code Sample.connectionReset
             end = Some c /\
             (c = ustr "ECONNRESET" \/ c = ustr "ETIMEDOUT" \/
              c = ustr "EAI_AGAIN")) \/
          (exists m, e_message Sample.connectionReset = Some m /\
                     Infix (ustr "socket hang up") m)).
  { left. exists (ustr "ECONNRESET"). split; [reflexivity | left; reflexivity]. }
  apply (S Sample.connectionReset 30 Sample.connectionReset 30 Sample.page1 150);
    first [reflexivity | exact Reset | simpl; lia].
Defined.

Lemma failed_cycle_keeps_cache_witness :
  exists e this' w',
    scrapeAllDonations Sample.Date_parse Sample.Array_sort Sample.secondPageDown
      Sample.paginationLinks Sample.paginationCaption Sample.postContents
      Sample.expired Sample.lateWorld = (Thrown e, this', w') /\
    cache this' = cache Sample.expired /\
    (forall l, (l < length (heap Sample.lateWorld))%nat ->
               deref (heap w') l = deref (heap Sample.lateWorld) l) /\
    (forall searchTermsString opts,
       processTelegramRequest Sample.toLowerCase Sample.Date_parse Sample.Array_sort
         Sample.secondPageDown Sample.paginationLinks Sample.paginationCaption
         Sample.postContents Sample.toFixed2 Sample.toLocaleDateString
         (baseUrl Sample.expired) searchTermsString opts
         (Some Sample.expired) Sample.lateWorld
       = (Failure (message e) (ustr "❌ Ошибка: " ++ message e),
          Some this', w')).
Proof.
  destruct (scrapeAllDonations Sample.Date_parse Sample.Array_sort Sample.secondPageDown
      Sample.paginationLinks Sample.paginationCaption Sample.postContents
      Sample.expired Sample.lateWorld) as [[o this'] w'] eqn:E.
  destruct o as [l | e]; [exfalso; vm_compute in E; discriminate |].
  exists e, this', w'. split; [reflexivity |].
  exact (@failed_cycle_keeps_cache Sample.toLowerCase Sample.Date_parse Sample.Array_sort
           Sample.secondPageDown Sample.paginationLinks Sample.paginationCaption
           Sample.postContents Sample.toFixed2 Sample.toLocaleDateString
           Sample.expired Sample.lateWorld e this' w' E).
Defined.

(** C7 as stated fails on what callers can observe: after the cycle that
    aborts on page 2, [this.donations] is the array of the records of page 1
    alone, and [filterDonationsByComments] returns it. *)
Lemma failed_cycle_exposes_partial_results :
  let run :=
    scrapeAllDonations Sample.Date_parse Sample.Array_sort Sample.secondPageDown
      Sample.paginationLinks Sample.paginationCaption Sample.postContents
      Sample.expired Sample.lateWorld in
  let this' := snd (fst run) in
  let w' := snd run in
  (exists e, fst (fst run) = Thrown e) /\
  cache this' = cache Sample.expired /\
  map comment (deref (heap Sample.lateWorld) (donations Sample.expired))
    = [Some (ustr "старое")] /\
  map comment (deref (heap w') (donations this'))
    = [Some (ustr "сено для лошади")] /\
  filterDonationsByComments Sample.toLowerCase None this' w'
    = (Returned (donations this'), this', w') /\
  deref (heap w') (donations this')
    <> deref (heap Sample.lateWorld) (donations Sample.expired).
Proof.
  vm_compute. split; [eexists; reflexivity |].
  repeat split; try reflexivity. discriminate.
Qed.


(** A scraper built with [maxRetries: 0], and one built with
    [maxPages: -1], each with the world its construction leaves. *)
Definition noRetries : Scraper :=
  fst (construct Sample.forumUrl
         (mkUserOptions None None None None None (Some 0))
         Sample.freshWorld).

Definition negativeCap : Scraper * World :=
  construct Sample.forumUrl
    (mkUserOptions None (Some (-1)) None None None None)
    Sample.freshWorld.

Lemma scrape_cache_and_fetches_witness :
  exists l this' w',
    scrapeAllDonations Sample.Date_parse Sample.Array_sort Sample.online
      Sample.paginationLinks Sample.paginationCaption Sample.postContents
      Sample.fresh Sample.freshWorld = (Returned l, this', w') /\
    requests w'
    = (requests Sample.freshWorld
       + Z.to_nat (pageCount (options Sample.fresh)
                     (determineTotalPages Sample.paginationLinks
                        Sample.paginationCaption Sample.page1)))%nat.
Proof.
  pose proof (@scrape_cache_and_fetches Sample.Date_parse Sample.Array_sort
                Sample.online Sample.paginationLinks Sample.paginationCaption
                Sample.postContents Sample.fresh Sample.freshWorld) as H.
  cbv zeta in H. destruct H as (_ & _ & _ & C & _).
  apply (C Sample.page1 150).
  - left. reflexivity.
  - simpl. lia.
  - intros k url _. unfold Sample.online.
    destruct (Sample.isSecondPage url); eexists; eexists; reflexivity.
  - vm_compute. reflexivity.
  - unfold exactNumbers.
    replace (numbersRead Sample.paginationLinks Sample.paginationCaption
               Sample.page1) with [40] by (vm_compute; reflexivity).
    repeat constructor.
Defined.

(** C5 as stated fails for a cap below 1: with [maxPages: -1], which the
    constructor takes as it is, the resolver finds two pages and the cycle
    fetches page 1 - one page, which the cap does not bound, and not one
    fetch per resolved page. *)
Lemma page_cap_not_a_bound :
  let run :=
    scrapeAllDonations Sample.Date_parse Sample.Array_sort Sample.online
      Sample.paginationLinks Sample.paginationCaption Sample.postContents
      (fst negativeCap) (snd negativeCap) in
  maxPages (options (fst negativeCap)) = Some (-1) /\
  (exists l, fst (fst run) = Returned l) /\
  determineTotalPages Sample.paginationLinks Sample.paginationCaption
    Sample.page1 = 2 /\
  fetchedPages (trace (snd run)) = [1] /\
  resolutions (trace (snd run)) = 1%nat /\
  ~ Z.of_nat (length (fetchedPages (trace (snd run)))) <= -1.
Proof.
  vm_compute. split; [reflexivity |]. split; [eexists; reflexivity |].
  repeat split; try reflexivity. intros H. apply H. reflexivity.
Qed.

(** C6 as stated fails when no attempt is allowed: with [maxRetries: 0],
    which the constructor takes as it is, the retries are exhausted before
    the first request, and the error thrown carries neither the page
    number nor a cause. *)
Lemma fetchPageHtml_exhausted_without_page_number :
  let run := fetchPageHtml Sample.secondPageDown 2 noRetries Sample.freshWorld in
  maxRetries (options noRetries) = 0 /\
  fst (fst run)
    = Thrown (mkError (ustr "Неизвестная ошибка загрузки страницы") None) /\
  requests (snd run) = requests Sample.freshWorld /\
  includes (ustr "Неизвестная ошибка загрузки страницы") (str_of_Z 2) = false.
Proof. vm_compute. repeat split; reflexivity. Qed.



(* ===================================================================== *)
(** * 22. Lines the parser accepts, and the extraction of a page          *)
(* ===================================================================== *)

Lemma Infix_trans a b c : Infix a b -> Infix b c -> Infix a c.
Proof.
  intros (p1 & q1 & ->) (p2 & q2 & ->).
  exists (p2 ++ p1), (q1 ++ q2). now rewrite <- !app_assoc.
Qed.

Lemma Infix_cons t a s : Infix t s -> Infix t (a :: s).
Proof. intros (p & q & ->). exists (a :: p), q. reflexivity. Qed.

Lemma Infix_cons_inv t a s :
  Infix t (a :: s) -> (exists post, a :: s = t ++ post) \/ Infix t s.
Proof.
  intros (p & q & H). destruct p as [| b p].
  - left. exists q. exact H.
  - right. inversion H; subst. exists p, q. reflexivity.
Qed.

Lemma dropWhile_suffix p s : exists pre, s = pre ++ dropWhile p s.
Proof.
  induction s as [| a s (pre & IH)]; [exists []; reflexivity |].
  simpl. destruct (p a).
  - exists (a :: pre). simpl. now rewrite <- IH.
  - exists []. reflexivity.
Qed.

Lemma trim_Infix s : Infix (trim s) s.
Proof.
  unfold trim, trimStart, trimEnd.
  destruct (dropWhile_suffix isWhiteSpace s) as (pre & Hs).
  set (u := dropWhile isWhiteSpace s) in *.
  destruct (dropWhile_suffix isWhiteSpace (rev u)) as (post & Hu).
  exists pre, (rev post). rewrite Hs at 1. f_equal.
  rewrite <- rev_app_distr, <- Hu. now rewrite rev_involutive.
Qed.

(** A text without white space. *)
Definition solid (t : str) : Prop :=
  forallb (fun c => negb (isWhiteSpace c)) t = true.

Lemma prefix_squeeze t : solid t -> forall s post,
  squeeze false s = t ++ post -> exists post', s = t ++ post'.
Proof.
  unfold solid. induction t as [| x t IH]; intros Ht s post H.
  - exists s. reflexivity.
  - simpl in Ht. apply andb_true_iff in Ht. destruct Ht as [Hx Ht].
    destruct s as [| a s]; [discriminate |]. simpl in H.
    destruct (isWhiteSpace a) eqn:Ha.
    + inversion H; subst x. discriminate.
    + inversion H; subst x. destruct (IH Ht s post) as (post' & ->); auto.
      exists post'. reflexivity.
Qed.

Lemma Infix_squeeze t : t <> [] -> solid t -> forall s b,
  Infix t (squeeze b s) -> Infix t s.
Proof.
  intros Hne Ht. induction s as [| a s IH]; intros b H.
  - exact H.
  - simpl in H. destruct (isWhiteSpace a) eqn:Ha.
    + destruct b.
      * apply Infix_cons. eapply IH. exact H.
      * apply Infix_cons_inv in H. destruct H as [(post & H) | H].
        -- destruct t as [| x t]; [congruence |].
           inversion H; subst x. unfold solid in Ht. discriminate.
        -- apply Infix_cons. eapply IH. exact H.
    + apply Infix_cons_inv in H. destruct H as [(post & H) | H].
      * destruct t as [| x t]; [congruence |]. inversion H; subst x.
        unfold solid in Ht. simpl in Ht. apply andb_true_iff in Ht.
        destruct (@prefix_squeeze t (proj2 Ht) s post) as (post' & ->); auto.
        exists [], post'. reflexivity.
      * apply Infix_cons. eapply IH. exact H.
Qed.

(** White-space normalisation neither makes nor joins words: a text
    without white space that occurs in the normal form occurs in the
    line. *)
Lemma Infix_normalize t line :
  t <> [] -> solid t -> Infix t (normalize line) -> Infix t line.
Proof.
  intros Hne Ht H. rewrite normalize_collapsed in H. unfold collapsed in H.
  apply (Infix_squeeze Hne Ht) in H.
  eapply Infix_trans; [exact H | apply trim_Infix].
Qed.

Lemma trim_trim s : trim (trim s) = trim s.
Proof. apply trim_id; [apply starts_ws_trim | apply ends_ws_trim]. Qed.

Lemma parseDonationMessage_trim line :
  parseDonationMessage (trim line) = parseDonationMessage line.
Proof.
  unfold parseDonationMessage, normalize. now rewrite trim_trim.
Qed.

Lemma PaymentToken_solid pm : PaymentToken pm -> pm <> [] /\ solid pm.
Proof. intros [-> | ->]; split; try discriminate; reflexivity. Qed.

Lemma DonationShape_tokens text pm d t cm a1 a2 a3 :
  DonationShape text pm d t cm a1 a2 a3 ->
  Infix pm text /\ Infix (ustr "BYN") text.
Proof.
  intros (pre & w & post & Ht & HM). subst text.
  destruct HM as [w1 w2 w3 w4 w5 w6 w7 Hw _ _ _ _ _ _ _ _ _ _ _ _ _ _].
  subst w. split.
  - exists pre. eexists. rewrite <- !app_assoc. reflexivity.
  - exists (pre ++ pm ++ w1 ++ d ++ w2 ++ t ++ w3 ++ cm ++ w4 ++ a1 ++ w5
              ++ a2 ++ w6 ++ a3 ++ w7), post.
    rewrite <- !app_assoc. reflexivity.
Qed.

Lemma parsed_shape line r :
  parseDonationMessage line = Some r ->
  exists pm d t cm a1 a2 a3,
    DonationShape (normalize line) pm d t cm a1 a2 a3 /\
    r = {| paymentMethod := pm; date := d; time := t;
           dateTime := d ++ [SPACE] ++ t;
           comment := cleanComment cm;
           grossAmount := parseFloat a1;
           tax := parseFloat a2;
           netAmount := parseFloat a3;
           currency := ustr "BYN" |}.
Proof.
  intros H.
  destruct (str_match (normalize line) donationPattern) as [m |] eqn:E.
  - destruct (str_match_donation _ E)
      as (pm & d & t & cm & a1 & a2 & a3 & HS & Hc).
    rewrite (parse_of_match _ E Hc) in H. apply Some_inj in H.
    exists pm, d, t, cm, a1, a2, a3. split; [exact HS | now symmetry].
  - unfold parseDonationMessage in H. rewrite E in H. discriminate.
Qed.

(** An accepted line contains the tokens of the pattern as written. *)
Lemma accepted_tokens line r :
  parseDonationMessage line = Some r ->
  includes line (ustr "BYN") = true /\
  includes line (paymentMethod r) = true /\
  hasPaymentToken line = true /\
  line <> [].
Proof.
  intros H. destruct (parsed_shape _ H)
    as (pm & d & t & cm & a1 & a2 & a3 & HS & ->). cbn [paymentMethod].
  assert (H1 : PaymentToken pm).
  { destruct HS as (? & ? & ? & ? & []). assumption. }
  destruct (DonationShape_tokens HS) as [Hpm Hbyn].
  destruct (PaymentToken_solid H1) as [Hne Hso].
  apply (@Infix_normalize pm line Hne Hso) in Hpm.
  apply (@Infix_normalize (ustr "BYN") line) in Hbyn;
    [| discriminate | reflexivity].
  assert (Ipm : includes line pm = true) by (apply includes_Infix; exact Hpm).
  split; [apply includes_Infix; exact Hbyn |]. split; [exact Ipm |]. split.
  - unfold hasPaymentToken. destruct H1 as [-> | ->]; rewrite Ipm;
      [reflexivity | apply orb_true_r].
  - intros ->. destruct Hbyn as ([| ? ?] & ? & Hb); discriminate.
Qed.

(** X1.  A line is accepted only if it contains, as written, the currency
    literal [BYN] and the payment-method token the record then carries
    (white-space normalisation cannot produce either): a line without
    [BYN], a line with neither [ЕРИП] nor [WebPay] and the empty line are
    rejected. *)
Theorem parseDonationMessage_needs_tokens (line : str) :
  (forall r, parseDonationMessage line = Some r ->
     includes line (ustr "BYN") = true /\
     includes line (paymentMethod r) = true /\
     (paymentMethod r = ustr "ЕРИП" \/ paymentMethod r = ustr "WebPay")) /\
  (includes line (ustr "BYN") = false \/ hasPaymentToken line = false \/
   line = [] ->
   parseDonationMessage line = None).
Proof.
  split.
  - intros r H. destruct (accepted_tokens _ H) as (Hb & Hp & _ & _).
    split; [exact Hb |]. split; [exact Hp |].
    destruct (parsed_shape _ H)
      as (pm & d & t & cm & a1 & a2 & a3 & HS & ->).
    destruct HS as (? & ? & ? & ? & []). assumption.
  - intros Hrej.
    destruct (parseDonationMessage line) as [r |] eqn:E; [| reflexivity].
    destruct (accepted_tokens _ E) as (Hb & _ & Hp & Hne).
    destruct Hrej as [Hr | [Hr | Hr]]; congruence.
Qed.

Lemma splitOn_pieces sep : forall s,
  exists cur rest, splitOn sep s = cur :: rest /\
    (exists post, s = cur ++ post) /\
    (forall l, In l rest -> Infix l s).
Proof.
  induction s as [| a s (cur & rest & E & (post & Hp) & Hr)].
  - exists [], []. split; [reflexivity |].
    split; [exists []; reflexivity | intros l []].
  - simpl. destruct (a =? sep)%N.
    + exists [], (splitOn sep s). split; [reflexivity |].
      split; [exists (a :: s); reflexivity |].
      intros l Hl. apply Infix_cons. rewrite E in Hl.
      destruct Hl as [<- | Hl]; [exists [], post; exact Hp | auto].
    + rewrite E. exists (a :: cur), rest. split; [reflexivity |]. split.
      * exists post. simpl. now rewrite <- Hp.
      * intros l Hl. apply Infix_cons. auto.
Qed.

Lemma splitOn_Infix sep s l : In l (splitOn sep s) -> Infix l s.
Proof.
  destruct (splitOn_pieces sep s) as (cur & rest & E & (post & Hp) & Hr).
  rewrite E. intros [<- | Hl]; [exists [], post; exact Hp | auto].
Qed.

Lemma flat_map_nil {A B} (f : A -> list B) l :
  (forall a, In a l -> f a = []) -> flat_map f l = [].
Proof.
  induction l as [| a l IH]; intros H; [reflexivity |].
  simpl. rewrite (H a (or_introl eq_refl)), IH; auto.
  intros b Hb. apply H. right. exact Hb.
Qed.

Lemma hasPaymentToken_Infix line text :
  Infix line text -> hasPaymentToken line = true -> hasPaymentToken text = true.
Proof.
  unfold hasPaymentToken. intros Hi H. apply orb_true_iff in H.
  apply orb_true_iff.
  destruct H as [H | H]; [left | right]; apply includes_Infix;
    apply includes_Infix in H; eapply Infix_trans; eauto.
Qed.

(** X2.  The records extracted from a page are exactly the records the
    parser returns for the lines of its posts, post by post and line by
    line in document order: the substring tests on the post and on the
    trimmed line never drop a line that the parser accepts, and trimming
    the line first changes nothing. *)
Theorem extractDonationsFromHtml_every_line
    (postContents : str -> list str) (html : str) :
  extractDonationsFromHtml postContents html =
  flat_map
    (fun text =>
       flat_map
         (fun line =>
            match parseDonationMessage line with
            | Some parsed => [parsed]
            | None => []
            end)
         (splitOn NL text))
    (postContents html).
Proof.
  unfold extractDonationsFromHtml. apply flat_map_ext. intros text.
  destruct (truthyStr text && hasPaymentToken text) eqn:Ht.
  - apply flat_map_ext. intros line. rewrite parseDonationMessage_trim.
    destruct (parseDonationMessage line) as [r |] eqn:E.
    + rewrite <- parseDonationMessage_trim in E.
      apply accepted_tokens in E. destruct E as (-> & _ & -> & Hne).
      destruct (trim line); [congruence | reflexivity].
    + destruct (truthyStr (trim line) && _ && _); reflexivity.
  - symmetry. apply flat_map_nil. intros line Hl.
    destruct (parseDonationMessage line) as [r |] eqn:E; [| reflexivity].
    exfalso. apply accepted_tokens in E. destruct E as (_ & _ & Hp & Hne).
    apply splitOn_Infix in Hl.
    rewrite (hasPaymentToken_Infix Hl Hp), andb_true_r in Ht.
    destruct text; [| discriminate].
    destruct Hl as (p & q & Hl). destruct p; [| discriminate].
    destruct line; [congruence | discriminate].
Qed.


(* ===================================================================== *)
(** * 23. The amounts and the totals are numbers                          *)
(* ===================================================================== *)

(** Not [NaN] and without the sign bit: zero, a positive finite number or
    [Infinity]. *)
Definition nonNegative (x : number) : bool :=
  match x with
  | S754_nan => false
  | S754_zero s | S754_infinity s | S754_finite s _ _ => negb s
  end.

Lemma shr_1_nonneg mrs : 0 <= shr_m mrs -> 0 <= shr_m (shr_1 mrs).
Proof.
  destruct mrs as [m r s]. cbn [shr_m]. intros H.
  destruct m as [| p | p]; [cbn; lia | | lia].
  destruct p; cbn; lia.
Qed.

Lemma iter_pos_invariant {A} (P : A -> Prop) (f : A -> A) :
  (forall x, P x -> P (f x)) -> forall p x, P x -> P (iter_pos f p x).
Proof.
  intros Hf. induction p as [p IH | p IH |]; intros x Hx; cbn; auto.
Qed.

Lemma shr_fexp_nonneg pr em m e l :
  0 <= m -> 0 <= shr_m (fst (shr_fexp pr em m e l)).
Proof.
  intros H. unfold shr_fexp, shr.
  assert (H0 : 0 <= shr_m (shr_record_of_loc m l)).
  { destruct l as [| []]; exact H. }
  destruct (fexp pr em (Zdigits2 m + e) - e) as [| p | p]; cbn [fst]; auto.
  apply (iter_pos_invariant (fun x => 0 <= shr_m x)); auto.
  apply shr_1_nonneg.
Qed.

Lemma round_nearest_even_nonneg m l : 0 <= m -> 0 <= round_nearest_even m l.
Proof.
  intros H. destruct l as [| []]; cbn; try lia.
  destruct (Z.even m); lia.
Qed.

Lemma binary_round_aux_nonneg pr em mx ex lx :
  0 <= mx -> nonNegative (binary_round_aux pr em false mx ex lx) = true.
Proof.
  intros H. unfold binary_round_aux.
  pose proof (shr_fexp_nonneg pr em ex lx H) as H1.
  destruct (shr_fexp pr em mx ex lx) as [mrs1 e1]. cbn [fst] in H1.
  pose proof (shr_fexp_nonneg pr em e1 loc_Exact
                (round_nearest_even_nonneg (loc_of_shr_record mrs1) H1)) as H2.
  destruct (shr_fexp pr em _ e1 loc_Exact) as [mrs2 e2]. cbn [fst] in H2.
  destruct (shr_m mrs2) as [| p | p]; [reflexivity | | lia].
  destruct (e2 <=? em - pr); reflexivity.
Qed.

Lemma binary_normalize_nonneg pr em m e :
  0 <= m -> nonNegative (binary_normalize pr em m e false) = true.
Proof.
  intros H. destruct m as [| p | p]; [reflexivity | | lia].
  cbn [binary_normalize]. unfold binary_round.
  destruct (shl_align p e _) as [mz ez].
  apply binary_round_aux_nonneg. lia.
Qed.

Lemma SFdiv_nonneg pr em x y :
  nonNegative x = true -> nonNegative y = true ->
  (forall s, x = S754_zero s -> forall s', y <> S754_zero s') ->
  (forall s, x = S754_infinity s -> forall s', y <> S754_infinity s') ->
  nonNegative (SFdiv pr em x y) = true.
Proof.
  intros Hx Hy Hz Hi.
  destruct x as [sx | sx | | sx mx ex], y as [sy | sy | | sy my ey];
    try discriminate; cbn in Hx, Hy;
    apply negb_true_iff in Hx, Hy; subst; cbn [SFdiv xorb nonNegative negb];
    try reflexivity.
  - exfalso. eapply Hz; reflexivity.
  - exfalso. eapply Hi; reflexivity.
  - unfold SFdiv_core_binary.
    set (m' := match _ - _ - _ with Z0 => _ | Zpos _ => _ | Zneg _ => _ end).
    assert (Hm : 0 <= m').
    { unfold m'. destruct (_ - _ - _); [lia | | lia].
      apply Z.shiftl_nonneg. lia. }
    pose proof (Z.div_pos m' (Zpos my) Hm ltac:(lia)) as Hq.
    unfold Z.div in Hq.
    destruct (Z.div_eucl m' (Zpos my)) as [q r]. cbn [fst] in Hq.
    apply binary_round_aux_nonneg. exact Hq.
Qed.

Lemma decimal_to_number_nonneg m e :
  nonNegative (decimal_to_number false m e) = true.
Proof.
  unfold decimal_to_number. destruct m as [| p]; [reflexivity |].
  destruct e as [| k | k].
  - apply binary_normalize_nonneg. lia.
  - apply binary_normalize_nonneg.
    pose proof (Z.pow_nonneg 10 (Zpos k) ltac:(lia)). lia.
  - apply SFdiv_nonneg; try reflexivity; intros; discriminate.
Qed.

Lemma plus_nonneg x y :
  nonNegative x = true -> nonNegative y = true ->
  nonNegative (plus x y) = true.
Proof.
  intros Hx Hy. unfold plus.
  destruct x as [sx | sx | | sx mx ex], y as [sy | sy | | sy my ey];
    try discriminate; cbn in Hx, Hy;
    apply negb_true_iff in Hx, Hy; subst; try reflexivity.
  cbn [SFadd cond_Zopp]. apply binary_normalize_nonneg. lia.
Qed.

Lemma Digits_length n w : Digits n w -> length w = n.
Proof. intros [H _]. exact H. Qed.

(** X3.  Every record the parser returns has the fields of the data model:
    the payment method is one of the two tokens, the date is [DD.MM.YYYY]
    and the time [HH:MM:SS] in digits, [dateTime] is the date, one space
    and the time (19 characters), the currency is [BYN], and each amount is
    a number that is neither [NaN] nor negative. *)
Theorem parseDonationMessage_record_fields (line : str) (r : DonationRecord) :
  parseDonationMessage line = Some r ->
  PaymentToken (paymentMethod r) /\
  DateText (date r) /\ TimeText (time r) /\
  dateTime r = date r ++ [SPACE] ++ time r /\
  length (dateTime r) = 19%nat /\
  currency r = ustr "BYN" /\
  nonNegative (grossAmount r) = true /\
  nonNegative (tax r) = true /\
  nonNegative (netAmount r) = true.
Proof.
  intros H. destruct (parsed_shape _ H)
    as (pm & d & t & cm & a1 & a2 & a3 & HS & ->).
  destruct HS as (pre & w & post & _ & HM).
  destruct HM as [w1 w2 w3 w4 w5 w6 w7 _ Hpm Hd Ht _ H1 H2 H3 _ _ _ _ _ _ _].
  cbn [paymentMethod date time dateTime currency grossAmount tax netAmount].
  split; [exact Hpm |]. split; [exact Hd |]. split; [exact Ht |].
  split; [reflexivity |]. split.
  - destruct Hd as (dd & mm & yy & Hdd & Hmm & Hyy & ->).
    destruct Ht as (hh & mi & ss & Hhh & Hmi & Hss & ->).
    rewrite !length_app. cbn [length].
    rewrite (Digits_length Hdd), (Digits_length Hmm), (Digits_length Hyy),
      (Digits_length Hhh), (Digits_length Hmi), (Digits_length Hss).
    reflexivity.
  - split; [reflexivity |].
    rewrite !parseFloat_Decimal by assumption. unfold exactNumber.
    repeat split; apply decimal_to_number_nonneg.
Qed.

Lemma parseDonationMessage_record_fields_witness :
  PaymentToken (paymentMethod exampleRecord) /\
  DateText (date exampleRecord) /\ TimeText (time exampleRecord) /\
  dateTime exampleRecord = date exampleRecord ++ [SPACE] ++ time exampleRecord /\
  length (dateTime exampleRecord) = 19%nat /\
  currency exampleRecord = ustr "BYN" /\
  nonNegative (grossAmount exampleRecord) = true /\
  nonNegative (tax exampleRecord) = true /\
  nonNegative (netAmount exampleRecord) = true.
Proof.
  apply (@parseDonationMessage_record_fields exampleLine exampleRecord).
  vm_compute. reflexivity.
Defined.

(** A record that the parser returned for some line. *)
Definition parsed (d : DonationRecord) : Prop :=
  exists line, parseDonationMessage line = Some d.

Lemma cleanComment_not_empty cm : cleanComment cm <> Some [].
Proof.
  unfold cleanComment.
  destruct (trim (replace_first (trim cm) strayNumbers [])); discriminate.
Qed.

Lemma parsed_amounts d :
  parsed d ->
  nonNegative (grossAmount d) = true /\ nonNegative (tax d) = true /\
  nonNegative (netAmount d) = true.
Proof.
  intros [line H]. destruct (parsed_shape _ H)
    as (pm & dt & t & cm & a1 & a2 & a3 & HS & ->).
  destruct HS as (pre & w & post & _ & HM).
  destruct HM as [w1 w2 w3 w4 w5 w6 w7 _ _ _ _ _ H1 H2 H3 _ _ _ _ _ _ _].
  cbn [grossAmount tax netAmount].
  rewrite !parseFloat_Decimal by assumption. unfold exactNumber.
  repeat split; apply decimal_to_number_nonneg.
Qed.

Lemma parsed_dateTime_comment d :
  parsed d ->
  dateTime d = date d ++ [SPACE] ++ time d /\ comment d <> Some [].
Proof.
  intros [line H]. destruct (parsed_shape _ H)
    as (pm & dt & t & cm & a1 & a2 & a3 & _ & ->).
  split; [reflexivity | apply cleanComment_not_empty].
Qed.

(** X4.  The totals of records the parser returned: the count is the
    number of records, and the three sums are numbers that are neither
    [NaN] nor negative (a sum may be [Infinity]); for no records all are
    zero. *)
Theorem calculateTotals_parsed (ds : list DonationRecord) :
  (forall d, In d ds -> parsed d) ->
  t_count (calculateTotals ds) = Z.of_nat (length ds) /\
  nonNegative (t_gross (calculateTotals ds)) = true /\
  nonNegative (t_tax (calculateTotals ds)) = true /\
  nonNegative (t_net (calculateTotals ds)) = true /\
  calculateTotals [] =
    mkTotals 0 (S754_zero false) (S754_zero false) (S754_zero false).
Proof.
  intros Hds. split; [apply calculateTotals_count |].
  unfold calculateTotals.
  set (step := fun tot d =>
         mkTotals (t_count tot + 1) (plus (t_gross tot) (grossAmount d))
                  (plus (t_tax tot) (tax d)) (plus (t_net tot) (netAmount d))).
  assert (G : forall l init,
    (forall d, In d l -> parsed d) ->
    nonNegative (t_gross init) = true /\ nonNegative (t_tax init) = true /\
    nonNegative (t_net init) = true ->
    nonNegative (t_gross (fold_left step l init)) = true /\
    nonNegative (t_tax (fold_left step l init)) = true /\
    nonNegative (t_net (fold_left step l init)) = true).
  { induction l as [| d l IH]; intros init Hl Hi; [exact Hi |].
    cbn [fold_left]. apply IH; [intros x Hx; apply Hl; right; exact Hx |].
    destruct Hi as (Hg & Ht & Hn).
    destruct (parsed_amounts (Hl d (or_introl eq_refl))) as (Dg & Dt & Dn).
    unfold step. cbn [t_gross t_tax t_net].
    repeat split; apply plus_nonneg; assumption. }
  destruct (G ds (mkTotals 0 (S754_zero false) (S754_zero false)
                   (S754_zero false)) Hds) as (A & B & C);
    [repeat split; reflexivity |].
  repeat split; assumption.
Qed.

Lemma calculateTotals_parsed_witness :
  t_count (calculateTotals [exampleRecord]) = Z.of_nat (length [exampleRecord]) /\
  nonNegative (t_gross (calculateTotals [exampleRecord])) = true /\
  nonNegative (t_tax (calculateTotals [exampleRecord])) = true /\
  nonNegative (t_net (calculateTotals [exampleRecord])) = true /\
  calculateTotals [] =
    mkTotals 0 (S754_zero false) (S754_zero false) (S754_zero false).
Proof.
  apply (@calculateTotals_parsed [exampleRecord]).
  intros d [<- | []]. exists exampleLine. vm_compute. reflexivity.
Defined.

(* ===================================================================== *)
(** * 24. The report                                                      *)
(* ===================================================================== *)

(** The row of the sheet a record is written to. *)
Definition rowOf (d : DonationRecord) : list Cell :=
  [CStr (paymentMethod d); CStr (date d); CStr (time d);
   CStr (match comment d with Some c => c | None => [] end);
   CNum (grossAmount d); CNum (tax d); CNum (netAmount d);
   CStr (currency d)].

Lemma generateXLSX_rows ds : rows (generateXLSX ds) = headers :: map rowOf ds.
Proof. reflexivity. Qed.

Lemma rowOf_injective d d' :
  dateTime d = date d ++ [SPACE] ++ time d -> comment d <> Some [] ->
  dateTime d' = date d' ++ [SPACE] ++ time d' -> comment d' <> Some [] ->
  rowOf d = rowOf d' -> d = d'.
Proof.
  destruct d as [pm dt t dtm c g x n cur], d' as [pm' dt' t' dtm' c' g' x' n' cur'].
  cbn. intros -> Hc -> Hc' H.
  injection H as -> -> -> Ec -> -> -> ->. f_equal.
  destruct c as [[| a c] |], c' as [[| a' c'] |];
    first [ congruence
          | exfalso; apply Hc; reflexivity
          | exfalso; apply Hc'; reflexivity ].
Qed.

(** X5.  The workbook has one sheet named [Donations] with eight columns:
    the header row and then one row of eight cells per record, in the
    order of the records; a record without comment gets an empty text
    cell.  For records the parser returned the sheet loses nothing: two
    lists of such records with the same workbook are the same list. *)
Theorem generateXLSX_sheet (ds : list DonationRecord) :
  sheetName (generateXLSX ds) = ustr "Donations" /\
  length (colWidths (generateXLSX ds)) = 8%nat /\
  length (rows (generateXLSX ds)) = S (length ds) /\
  Forall (fun row => length row = 8%nat) (rows (generateXLSX ds)) /\
  (forall i d, nth_error ds i = Some d ->
     nth_error (rows (generateXLSX ds)) (S i)
     = Some [CStr (paymentMethod d); CStr (date d); CStr (time d);
             CStr (match comment d with Some c => c | None => [] end);
             CNum (grossAmount d); CNum (tax d); CNum (netAmount d);
             CStr (currency d)]) /\
  (forall ds',
     (forall d, In d ds -> parsed d) -> (forall d, In d ds' -> parsed d) ->
     generateXLSX ds = generateXLSX ds' -> ds = ds').
Proof.
  split; [reflexivity |]. split; [reflexivity |].
  rewrite generateXLSX_rows. split; [cbn; now rewrite length_map |].
  split; [| split].
  - constructor; [reflexivity |]. apply Forall_forall. intros row Hr.
    apply in_map_iff in Hr. destruct Hr as (d & <- & _). reflexivity.
  - intros i d Hi. cbn [nth_error]. rewrite nth_error_map, Hi. reflexivity.
  - intros ds' Hds Hds' H.
    assert (E : map rowOf ds = map rowOf ds').
    { apply (f_equal rows) in H. rewrite !generateXLSX_rows in H.
      now inversion H. }
    clear H. revert ds' Hds' E.
    induction ds as [| d ds IH]; intros [| d' ds'] Hds' E; try discriminate;
      [reflexivity |].
    cbn [map] in E.
    assert (Hrow : rowOf d = rowOf d') by congruence.
    assert (Hrest : map rowOf ds = map rowOf ds') by congruence.
    destruct (parsed_dateTime_comment (Hds d (or_introl eq_refl))) as [A B].
    destruct (parsed_dateTime_comment (Hds' d' (or_introl eq_refl))) as [A' B'].
    f_equal.
    + apply rowOf_injective; assumption.
    + apply IH; [intros x Hx; apply Hds; right; exact Hx
                | intros x Hx; apply Hds'; right; exact Hx | exact Hrest].
Qed.

(* ===================================================================== *)
(** * 25. The search terms of a request                                   *)
(* ===================================================================== *)

Lemma splitOn_cons sep a s :
  splitOn sep (a :: s) =
  if (a =? sep)%N then [] :: splitOn sep s
  else match splitOn sep s with
       | cur :: rest => (a :: cur) :: rest
       | [] => [[a]]
       end.
Proof. reflexivity. Qed.

Lemma splitOn_free sep : forall s,
  Forall (fun l => ~ In sep l) (splitOn sep s).
Proof.
  induction s as [| a s IH]; [repeat constructor; intros [] |].
  rewrite splitOn_cons. destruct (N.eqb_spec a sep) as [-> | Hne].
  - constructor; [intros [] | exact IH].
  - destruct (splitOn sep s) as [| cur rest]; [repeat constructor |].
    + intros [H | []]. congruence.
    + inversion IH; subst. constructor; [| assumption].
      intros [H | H]; [congruence | contradiction].
Qed.

Lemma splitOn_single sep t : ~ In sep t -> splitOn sep t = [t].
Proof.
  induction t as [| a t IH]; intros H; [reflexivity |].
  rewrite splitOn_cons. destruct (N.eqb_spec a sep) as [-> | Hne].
  - exfalso. apply H. left. reflexivity.
  - rewrite IH; [reflexivity |]. intros Hi. apply H. right. exact Hi.
Qed.

Lemma splitOn_app sep t s :
  ~ In sep t -> splitOn sep (t ++ sep :: s) = t :: splitOn sep s.
Proof.
  induction t as [| a t IH]; intros H.
  - cbn [app]. rewrite splitOn_cons, N.eqb_refl. reflexivity.
  - cbn [app]. rewrite splitOn_cons. destruct (N.eqb_spec a sep) as [-> | Hne].
    + exfalso. apply H. left. reflexivity.
    + rewrite IH; [reflexivity |]. intros Hi. apply H. right. exact Hi.
Qed.

Lemma Infix_In (c : char) t s : Infix t s -> In c t -> In c s.
Proof.
  intros (p & q & ->) H. apply in_or_app. right. apply in_or_app. left. exact H.
Qed.

Lemma dropWhile_nil_iff p s : dropWhile p s = [] <-> forallb p s = true.
Proof.
  induction s as [| a s IH]; simpl; [tauto |].
  destruct (p a); simpl; [exact IH |]. split; discriminate.
Qed.

Lemma forallb_rev_true {A} (p : A -> bool) l :
  forallb p (rev l) = true -> forallb p l = true.
Proof.
  rewrite !forallb_forall. intros H x Hx. apply H. now apply in_rev in Hx.
Qed.

Lemma trim_nil_iff s : trim s = [] <-> forallb isWhiteSpace s = true.
Proof.
  split.
  - intros H. pose proof (starts_ws_dropWhile s) as Hs.
    unfold trim, trimStart, trimEnd in H.
    set (u := dropWhile isWhiteSpace s) in *.
    assert (Hu : dropWhile isWhiteSpace (rev u) = []).
    { destruct (dropWhile isWhiteSpace (rev u)) as [| x l]; [reflexivity |].
      simpl in H. destruct (rev l); discriminate. }
    apply dropWhile_nil_iff in Hu. apply forallb_rev_true in Hu.
    apply dropWhile_nil_iff. fold u.
    destruct u as [| a u]; [reflexivity |].
    simpl in Hs, Hu. rewrite Hs in Hu. discriminate.
  - intros H. unfold trim, trimStart.
    replace (dropWhile isWhiteSpace s) with (@nil char)
      by (symmetry; apply dropWhile_nil_iff; exact H).
    reflexivity.
Qed.

Definition blankOrComma (c : char) : bool := isWhiteSpace c || (c =? COMMA)%N.

Lemma splitOn_blank : forall s,
  Forall (fun l => forallb isWhiteSpace l = true) (splitOn COMMA s)
  <-> forallb blankOrComma s = true.
Proof.
  induction s as [| a s IH]; [split; [reflexivity | repeat constructor] |].
  rewrite splitOn_cons. cbn [forallb]. unfold blankOrComma at 1.
  destruct (N.eqb_spec a COMMA) as [-> | Hne].
  - rewrite orb_true_r. cbn [andb]. rewrite <- IH. split.
    + intros H. now inversion H.
    + intros H. constructor; [reflexivity | exact H].
  - rewrite orb_false_r. rewrite andb_true_iff, <- IH.
    destruct (splitOn COMMA s) as [| cur rest].
    + split.
      * intros H. inversion H as [| ? ? Ha _]. cbn in Ha.
        rewrite andb_true_r in Ha. split; [exact Ha | constructor].
      * intros [Ha _]. repeat constructor. cbn. now rewrite Ha.
    + split.
      * intros H. inversion H as [| ? ? Ha Hr]. cbn in Ha.
        apply andb_true_iff in Ha. destruct Ha as [Ha Hc].
        split; [exact Ha |]. constructor; assumption.
      * intros [Ha H]. inversion H as [| ? ? Hc Hr].
        constructor; [| exact Hr]. cbn. now rewrite Ha, Hc.
Qed.

Lemma searchTerms_nil l :
  filter truthyStr (map trim l) = [] <->
  Forall (fun x => forallb isWhiteSpace x = true) l.
Proof.
  induction l as [| x l IH]; [split; [constructor | reflexivity] |].
  cbn [map filter]. destruct (trim x) as [| a u] eqn:E; cbn [truthyStr].
  - rewrite IH. apply trim_nil_iff in E. split.
    + intros H. constructor; assumption.
    + intros H. now inversion H.
  - split; [discriminate |]. intros H. inversion H as [| ? ? Hx _].
    apply trim_nil_iff in Hx. congruence.
Qed.

(** A term as the request keeps it: not empty, trimmed, without comma. *)
Definition validTerm (t : str) : Prop :=
  t <> [] /\ trim t = t /\ ~ In COMMA t.

Lemma searchTermsOf_valid s : Forall validTerm (searchTermsOf s).
Proof.
  unfold searchTermsOf. apply Forall_forall. intros t Ht.
  apply filter_In in Ht. destruct Ht as [Ht Hne].
  apply in_map_iff in Ht. destruct Ht as (l & <- & Hl).
  split; [destruct (trim l); [discriminate | discriminate] |].
  split; [apply trim_trim |].
  intros Hc. apply (@Infix_In COMMA _ _ (trim_Infix l)) in Hc.
  pose proof (splitOn_free COMMA s) as F. rewrite Forall_forall in F.
  exact (F l Hl Hc).
Qed.

Lemma trim_leading_space x : trim (SPACE :: x) = trim x.
Proof. reflexivity. Qed.

Lemma searchTermsOf_leading_space x :
  searchTermsOf (SPACE :: x) = searchTermsOf x.
Proof.
  unfold searchTermsOf. rewrite splitOn_cons.
  change (SPACE =? COMMA)%N with false. cbn iota.
  destruct (splitOn_pieces COMMA x) as (cur & rest & -> & _).
  cbn [map]. now rewrite trim_leading_space.
Qed.

Lemma searchTermsOf_join ts :
  Forall validTerm ts -> searchTermsOf (join (ustr ", ") ts) = ts.
Proof.
  induction 1 as [| t ts (Hne & Htr & Hc) Hts IH]; [reflexivity |].
  assert (St : filter truthyStr [trim t] = [t]).
  { rewrite Htr. destruct t; [congruence | reflexivity]. }
  destruct ts as [| t2 ts].
  - cbn [join]. unfold searchTermsOf. rewrite (@splitOn_single COMMA t Hc). exact St.
  - change (join (ustr ", ") (t :: t2 :: ts))
      with (t ++ COMMA :: SPACE :: join (ustr ", ") (t2 :: ts)).
    unfold searchTermsOf. rewrite (@splitOn_app COMMA t _ Hc). cbn [map filter].
    rewrite Htr. fold (searchTermsOf (SPACE :: join (ustr ", ") (t2 :: ts))).
    rewrite searchTermsOf_leading_space, IH.
    destruct t; [congruence | reflexivity].
Qed.

(** X6.  The terms a request searches for are the comma-separated pieces
    of the terms text, trimmed, with the empty ones dropped: each term is
    non-empty, has no white space at either end and no comma.  There is no
    term at all exactly when the text holds nothing but white space and
    commas (the request then filters nothing).  The terms as the summary
    prints them, joined by a comma and a space, read back as the same
    terms. *)
Theorem searchTermsOf_terms (searchTermsString : str) :
  Forall (fun t => t <> [] /\ trim t = t /\ ~ In COMMA t)
         (searchTermsOf searchTermsString) /\
  (searchTermsOf searchTermsString = [] <->
   forallb (fun c => isWhiteSpace c || (c =? COMMA)%N) searchTermsString
     = true) /\
  searchTermsOf (join (ustr ", ") (searchTermsOf searchTermsString))
    = searchTermsOf searchTermsString.
Proof.
  split; [exact (searchTermsOf_valid searchTermsString) |]. split.
  - unfold searchTermsOf. rewrite searchTerms_nil. apply splitOn_blank.
  - apply searchTermsOf_join. apply searchTermsOf_valid.
Qed.

(* ===================================================================== *)
(** * 26. More on fetching and on the scrape cycle                        *)
(* ===================================================================== *)

Definition unknownLoadError : JsError :=
  mkError (ustr "Неизвестная ошибка загрузки страницы") None.

Section CycleContents.

Variable Date_parse : str -> option Z.
Variable Array_sort : Comparator -> list DonationRecord -> list DonationRecord.
Variable network : nat -> str -> Response.
Variable paginationLinks : str -> list (str * option str).
Variable paginationCaption : str -> str.
Variable postContents : str -> list str.

Local Abbreviation scrape :=
  (scrapeAllDonations Date_parse Array_sort network paginationLinks paginationCaption
                      postContents).
Local Abbreviation resolve := (determineTotalPages paginationLinks paginationCaption).
Local Abbreviation extract := (extractDonationsFromHtml postContents).

(** X7.  With a maximum attempt count of zero or less the retry loop does
    not run: [fetchPageHtml] makes no request and no wait and throws the
    error [Неизвестная ошибка загрузки страницы], which has no code; a
    cycle that misses the cache then fails in the same way, leaving the
    scraper as it was.  The constructor lets such a count through: an
    option the caller supplies replaces the default even when it is 0. *)
Theorem fetchPageHtml_no_attempts (this : Scraper) (w : World) (p : Z) :
  maxRetries (options this) <= 0 ->
  fetchPageHtml network p this w
    = (Thrown unknownLoadError, this,
       mkWorld (heap w) (clock w) (requests w) (trace w ++ [EvFetchPage p])) /\
  (cacheHit this (clock w) = None ->
   scrape this w
     = (Thrown unknownLoadError, this,
        mkWorld (heap w) (clock w) (requests w) (trace w ++ [EvFetchPage 1]))) /\
  (forall url o w0 n,
     u_maxRetries o = Some n ->
     maxRetries (options (fst (construct url o w0))) = n).
Proof.
  intros H.
  assert (F : forall q, fetchPageHtml network q this w
    = (Thrown unknownLoadError, this,
       mkWorld (heap w) (clock w) (requests w) (trace w ++ [EvFetchPage q]))).
  { intros q. unfold fetchPageHtml, bind, emit, getThis.
    replace (Z.to_nat (maxRetries (options this))) with 0%nat by lia.
    reflexivity. }
  split; [apply F |]. split.
  - intros Hmiss. unfold scrapeAllDonations. unfold bind at 1 2.
    unfold Date_now at 1, getThis at 1. rewrite Hmiss.
    unfold bind at 1. rewrite F. reflexivity.
  - intros url o w0 n Hn. unfold construct, alloc. cbn. now rewrite Hn.
Qed.

(** The page text a fetch returns is the content of a successful request
    made during the fetch. *)
Definition Served (w w' : World) (url html : str) : Prop :=
  exists k t, (requests w <= k < requests w')%nat /\
              network k url = RespOk html t.

Lemma fetchAttempts_served (url : str) (p : Z) :
  forall n attempt prev this w html this' w',
    fetchAttempts network n attempt url p prev this w
      = (Returned html, this', w') ->
    Served w w' url html.
Proof.
  induction n as [| n IH]; intros attempt prev this w html this' w' H.
  - cbn in H. discriminate.
  - cbn [fetchAttempts] in H. unfold bind, axios_get, getThis in H.
    destruct (network (requests w) url) as [data t | e t] eqn:N.
    + exists (requests w), t.
      destruct (truthyNum (delay (options this)));
        cbn in H; inversion H; subst; cbn; (split; [lia | exact N]).
    + destruct ((attempt =? maxRetries (options this)) || negb (isRetriable e)).
      * cbn in H. discriminate.
      * cbn in H. unfold bind, sleep in H. cbn in H.
        apply IH in H. destruct H as (k & t' & Hk & Hn). cbn in Hk.
        exists k, t'. split; [lia | exact Hn].
Qed.

Lemma fetchPageHtml_served (p : Z) this w html this' w' :
  fetchPageHtml network p this w = (Returned html, this', w') ->
  Served w w' (buildPageUrl (baseUrl this) p) html.
Proof.
  intros H. unfold fetchPageHtml, bind, emit, getThis in H.
  apply fetchAttempts_served in H. exact H.
Qed.

Lemma Served_widen w1 w2 w3 w4 url html :
  (requests w1 <= requests w2)%nat -> (requests w3 <= requests w4)%nat ->
  Served w2 w3 url html -> Served w1 w4 url html.
Proof.
  intros A B (k & t & Hk & Hn). exists k, t. split; [lia | exact Hn].
Qed.

(** The loop over the remaining pages appends the records of each page to
    [this.donations], in page order. *)
Lemma fetchRemaining_contents :
  forall n pageNum this w u this' w',
    (donations this < length (heap w))%nat ->
    fetchRemaining network postContents n pageNum this w
      = (Returned u, this', w') ->
    (requests w <= requests w')%nat /\
    exists htmls,
      length htmls = n /\
      Forall2 (fun q html => Served w w' (buildPageUrl (baseUrl this) q) html)
              (pagesFrom pageNum n) htmls /\
      deref (heap w') (donations this)
        = deref (heap w) (donations this) ++ flat_map extract htmls.
Proof.
  induction n as [| n IH]; intros pageNum this w u this' w' Hwf H.
  - cbn in H. inversion H; subst. split; [lia |].
    exists []. split; [reflexivity |]. split; [constructor |].
    cbn. now rewrite app_nil_r.
  - cbn [fetchRemaining] in H. unfold bind at 1 in H.
    destruct (fetchPageHtml network pageNum this w) as [[o1 this1] w1] eqn:F.
    pose proof F as F0.
    apply fetchPageHtml_frame in F. destruct F as (-> & Hh1 & _).
    destruct o1 as [html | e]; [| discriminate].
    apply fetchPageHtml_served in F0.
    assert (R1 : (requests w <= requests w1)%nat).
    { destruct F0 as (k & t & Hk & _). lia. }
    unfold bind, getThis, readArray, writeArray in H. cbn in H.
    apply IH in H; [| cbn; rewrite length_store, Hh1; exact Hwf].
    destruct H as (R2 & htmls & Hlen & Hall & Hc). cbn [heap requests] in *.
    split; [lia |].
    exists (html :: htmls). split; [cbn; now rewrite Hlen |]. split.
    + cbn [pagesFrom]. constructor.
      * eapply Served_widen; [| | exact F0]; cbn; lia.
      * eapply Forall2_impl; [| exact Hall].
        intros q h Hs. eapply Served_widen; [| | exact Hs]; cbn; lia.
    + rewrite Hc, deref_store_same by (rewrite Hh1; exact Hwf).
      rewrite Hh1, <- app_assoc. reflexivity.
Qed.

(** A cycle that misses the cache, step by step, when it completes. *)
Lemma scrape_miss_contents this w l this' w' :
  cacheHit this (clock w) = None ->
  scrape this w = (Returned l, this', w') ->
  exists firstHtml more,
    length more
      = Z.to_nat (effectivePagesOf (options this) (resolve firstHtml) - 1) /\
    Forall2 (fun q html => Served w w' (buildPageUrl (baseUrl this) q) html)
            (pagesFrom 1 (S (length more))) (firstHtml :: more) /\
    deref (heap w') l
      = sortDonations Date_parse Array_sort (flat_map extract (firstHtml :: more)) /\
    this' = mkScraper (baseUrl this) (options this) l
              (mkCache (Some l) (clock w')
                       (Some (generateXLSX (deref (heap w') l)))).
Proof.
  intros Hmiss H.
  unfold scrapeAllDonations in H. unfold bind at 1 2 in H.
  unfold Date_now at 1, getThis at 1 in H. rewrite Hmiss in H.
  unfold bind at 1 in H.
  destruct (fetchPageHtml network 1 this w) as [[o1 this1] w1] eqn:F.
  pose proof F as F0.
  apply fetchPageHtml_frame in F. destruct F as (-> & Hh1 & _).
  destruct o1 as [firstHtml | e]; [| discriminate].
  apply fetchPageHtml_served in F0.
  fold (effectivePagesOf (options this) (resolve firstHtml)) in H.
  set (E := effectivePagesOf (options this) (resolve firstHtml)) in *.
  unfold bind at 1 2 3 in H. unfold emit, newArray, setDonations, alloc in H.
  cbn [heap clock requests trace] in H. unfold bind at 1 in H.
  set (this2 := mkScraper (baseUrl this) (options this) (length (heap w1))
                  (cache this)) in *.
  set (w2 := mkWorld (heap w1 ++ [extract firstHtml]) (clock w1) (requests w1)
               (trace w1 ++ [EvResolve])) in *.
  destruct (fetchRemaining network postContents (Z.to_nat (E - 1)) 2 this2 w2)
    as [[o3 this3] w3] eqn:R.
  pose proof R as R0.
  apply fetchRemaining_spec in R. destruct R as (-> & Hlen & _).
  destruct o3 as [u | e]; [| discriminate].
  apply fetchRemaining_contents in R0;
    [| unfold this2, w2; cbn; rewrite length_app; cbn; lia].
  destruct R0 as (R2 & more & Hmore & Hall & Hc).
  unfold this2 in Hc, Hall. cbn [donations baseUrl] in Hc, Hall.
  unfold w2 in Hc. cbn [heap] in Hc.
  assert (D : deref (heap w1 ++ [extract firstHtml]) (length (heap w1))
              = extract firstHtml) by (unfold deref; apply nth_middle).
  rewrite D in Hc.
  assert (Hl3 : (length (heap w1) < length (heap w3))%nat).
  { rewrite Hlen. unfold w2. cbn [heap]. rewrite length_app. cbn. lia. }
  unfold bind, readArray, writeArray, Date_now, setCache, ret in H.
  cbn [heap clock requests trace donations baseUrl options cache] in H.
  inversion H; subst l this' w'; clear H. cbn [heap clock requests].
  rewrite deref_store_same by exact Hl3.
  exists firstHtml, more. split; [exact Hmore |]. split; [| split].
  - rewrite Hmore. change (pagesFrom 1 (S (Z.to_nat (E - 1))))
      with (1 :: pagesFrom 2 (Z.to_nat (E - 1))).
    assert (R1 : (requests w <= requests w1)%nat).
    { destruct F0 as (k & t & Hk & _). lia. }
    unfold w2 in R2. cbn [requests] in R2.
    constructor.
    + eapply Served_widen; [| | exact F0]; cbn; lia.
    + eapply Forall2_impl; [| exact Hall].
      intros q h Hs. eapply Served_widen; [| | exact Hs]; cbn; lia.
  - rewrite Hc. reflexivity.
  - rewrite Hc. reflexivity.
Qed.

Lemma extracted_parsed html r : In r (extract html) -> parsed r.
Proof.
  unfold extractDonationsFromHtml. intros H.
  apply in_flat_map in H. destruct H as (text & _ & H).
  destruct (truthyStr text && hasPaymentToken text); [| contradiction].
  apply in_flat_map in H. destruct H as (line & _ & H).
  destruct (truthyStr (trim line) && _ && _); [| contradiction].
  exists (trim line). destruct (parseDonationMessage (trim line)) as [p |];
    [destruct H as [<- | []]; reflexivity | contradiction].
Qed.

(** X8.  A cycle that goes to the network and completes leaves, in the
    array it returns, the records of every page it fetched and nothing
    else: the array is the sort of the records extracted from the texts
    that the network served for pages 1 to N, page after page, each of them
    returned by the parser for some line, so that its comment is [null] or
    not empty.  With a sort that meets the contract the array is a
    rearrangement of these records in which none is lost, repeated or
    invented; when the host reads every date-time as a date it is in the
    order of the instants, and in the chronological order of the calendar
    where the host reads the date-times in that order.  N is the page
    count of the cycle. *)
Theorem scrape_collects_every_page (this : Scraper) (w : World) (l : loc)
    (this' : Scraper) (w' : World) :
  cacheHit this (clock w) = None ->
  scrape this w = (Returned l, this', w') ->
  exists firstHtml more,
    let pages := firstHtml :: more in
    let extracted := flat_map extract pages in
    (exactNumbers paginationLinks paginationCaption firstHtml ->
     length pages = Z.to_nat (pageCount (options this) (resolve firstHtml))) /\
    (exactOffsets (Z.of_nat (length pages)) ->
     Forall2 (fun q html =>
                exists k t, (requests w <= k < requests w')%nat /\
                  network k (buildPageUrl (baseUrl this) q) = RespOk html t)
             (pagesFrom 1 (length pages)) pages) /\
    deref (heap w') l = sortDonations Date_parse Array_sort extracted /\
    (forall r, In r extracted -> parsed r /\ comment r <> Some []) /\
    (SortContract Array_sort ->
     Permutation extracted (deref (heap w') l) /\
     (forall r, In r (deref (heap w') l) <->
                exists html, In html pages /\ In r (extract html)) /\
     ((forall r, In r extracted -> dateOf Date_parse r <> None) ->
      StronglySorted (instantLe Date_parse) (deref (heap w') l) /\
      (readsCalendar Date_parse extracted ->
       StronglySorted chronoLe (deref (heap w') l)))).
Proof.
  intros Hmiss H.
  destruct (@scrape_miss_contents this w l this' w' Hmiss H)
    as (firstHtml & more & Hlen & Hall & Hc & _).
  exists firstHtml, more. cbn zeta.
  set (pages := firstHtml :: more) in *.
  split; [| split; [intros _; exact Hall | split; [exact Hc | split]]].
  - intros _. unfold pages, pageCount. cbn [length]. rewrite Hlen. lia.
  - intros r Hr. apply in_flat_map in Hr. destruct Hr as (html & _ & Hr).
    apply extracted_parsed in Hr.
    split; [exact Hr | apply (parsed_dateTime_comment Hr)].
  - intros C.
    assert (P : Permutation (flat_map extract pages) (deref (heap w') l)).
    { rewrite Hc. apply sortDonations_perm. exact C. }
    split; [exact P |]. split.
    + intros r. rewrite <- in_flat_map. split; intros Hr.
      * apply (Permutation_in _ (Permutation_sym P)). exact Hr.
      * apply (Permutation_in _ P). exact Hr.
    + intros Hs. rewrite Hc. split.
      * apply sortDonations_sorted; assumption.
      * intros R. apply sortDonations_chronological; assumption.
Qed.

Lemma fetchAttempts_requests (url : str) (p : Z) :
  forall n attempt prev this w out this' w',
    fetchAttempts network n attempt url p prev this w = (out, this', w') ->
    (requests w <= requests w')%nat.
Proof.
  induction n as [| n IH]; intros attempt prev this w out this' w' H.
  - cbn in H. inversion H; subst. lia.
  - cbn [fetchAttempts] in H. unfold bind, axios_get, getThis in H.
    destruct (network (requests w) url) as [data t | e t].
    + destruct (truthyNum (delay (options this)));
        cbn in H; inversion H; subst; cbn; lia.
    + destruct ((attempt =? maxRetries (options this)) || negb (isRetriable e)).
      * cbn in H. inversion H; subst; cbn. lia.
      * cbn in H. unfold bind, sleep in H. cbn in H.
        apply IH in H. cbn in H. lia.
Qed.

Lemma fetchPageHtml_requests (p : Z) this w out this' w' :
  fetchPageHtml network p this w = (out, this', w') ->
  (requests w <= requests w')%nat.
Proof.
  intros H. unfold fetchPageHtml, bind, emit, getThis in H.
  apply fetchAttempts_requests in H. exact H.
Qed.

(** The loop over the remaining pages when a fetch fails: the records of
    the pages served before it are in [this.donations], and the error is
    that of the failed fetch. *)
Lemma fetchRemaining_failure :
  forall n pageNum this w e this' w',
    (donations this < length (heap w))%nat ->
    fetchRemaining network postContents n pageNum this w
      = (Thrown e, this', w') ->
    this' = this /\
    exists htmls wk,
      (length htmls < n)%nat /\
      (requests w <= requests wk)%nat /\
      Forall2 (fun q html => Served w wk (buildPageUrl (baseUrl this) q) html)
              (pagesFrom pageNum (length htmls)) htmls /\
      deref (heap w') (donations this)
        = deref (heap w) (donations this) ++ flat_map extract htmls /\
      heap wk = heap w' /\
      fetchPageHtml network (pageNum + Z.of_nat (length htmls)) this wk
        = (Thrown e, this, w').
Proof.
  induction n as [| n IH]; intros pageNum this w e this' w' Hwf H.
  - cbn in H. discriminate.
  - cbn [fetchRemaining] in H. unfold bind at 1 in H.
    destruct (fetchPageHtml network pageNum this w) as [[o1 this1] w1] eqn:F.
    pose proof F as F0.
    apply fetchPageHtml_frame in F. destruct F as (-> & Hh1 & _).
    destruct o1 as [html | e1].
    + pose proof F0 as Sv. apply fetchPageHtml_served in Sv.
      pose proof F0 as R1. apply fetchPageHtml_requests in R1.
      unfold bind, getThis, readArray, writeArray in H. cbn in H.
      apply IH in H; [| cbn; rewrite length_store, Hh1; exact Hwf].
      destruct H as (-> & htmls & wk & Hlen & Rk & Hall & Hc & Hk & Hf).
      cbn [heap requests] in *. split; [reflexivity |].
      exists (html :: htmls), wk. split; [cbn [length]; lia |].
      split; [lia |]. split; [| split; [| split]].
      * cbn [length pagesFrom]. constructor.
        -- eapply Served_widen; [| | exact Sv]; cbn; lia.
        -- eapply Forall2_impl; [| exact Hall].
           intros q h Hs. eapply Served_widen; [| | exact Hs]; cbn; lia.
      * rewrite Hc, deref_store_same by (rewrite Hh1; exact Hwf).
        rewrite Hh1, <- app_assoc. reflexivity.
      * exact Hk.
      * cbn [length]. rewrite <- Hf. f_equal. lia.
    + inversion H; subst. split; [reflexivity |].
      exists [], w. split; [cbn; lia |]. split; [lia |].
      split; [constructor |]. split; [| split].
      * cbn. now rewrite app_nil_r, Hh1.
      * symmetry. exact Hh1.
      * cbn [length]. rewrite Z.add_0_r. exact F0.
Qed.

(** X9.  What an aborted cycle leaves behind.  When the fetch of page 1
    fails, the scraper and every array are as before the cycle.  When the
    fetch of a later page fails, page 1 and the pages after it up to the
    failed one were served by the network, [this.donations] has already
    been set to a new array, and that array holds the records of those
    pages, in page order and not sorted; the cache is not touched.  In both
    cases the error thrown is the error of the failed fetch. *)
Theorem scrape_failure_state (this : Scraper) (w : World) (e : JsError)
    (this' : Scraper) (w' : World) :
  scrape this w = (Thrown e, this', w') ->
  cache this' = cache this /\
  ((this' = this /\ heap w' = heap w /\
    fetchPageHtml network 1 this w = (Thrown e, this, w')) \/
   (exists firstHtml more w1 wk,
      fetchPageHtml network 1 this w = (Returned firstHtml, this, w1) /\
      (exactNumbers paginationLinks paginationCaption firstHtml ->
       Z.of_nat (S (length more))
       < pageCount (options this) (resolve firstHtml)) /\
      this' = withDonations this (length (heap w)) /\
      deref (heap w') (donations this')
        = flat_map extract (firstHtml :: more) /\
      heap wk = heap w' /\
      (requests wk <= requests w')%nat /\
      (exactOffsets (2 + Z.of_nat (length more)) ->
       Forall2 (fun q html =>
                  exists k t, (requests w <= k < requests wk)%nat /\
                    network k (buildPageUrl (baseUrl this) q) = RespOk html t)
               (pagesFrom 1 (S (length more))) (firstHtml :: more) /\
       fetchPageHtml network (2 + Z.of_nat (length more)) this' wk
         = (Thrown e, this', w')))).
Proof.
  intros H.
  assert (Hmiss : cacheHit this (clock w) = None).
  { destruct (cacheHit this (clock w)) as [l |] eqn:E; [| reflexivity].
    rewrite (scrape_hit Date_parse Array_sort network paginationLinks
               paginationCaption postContents _ _ E) in H. discriminate. }
  unfold scrapeAllDonations in H. unfold bind at 1 2 in H.
  unfold Date_now at 1, getThis at 1 in H. rewrite Hmiss in H.
  unfold bind at 1 in H.
  destruct (fetchPageHtml network 1 this w) as [[o1 this1] w1] eqn:F.
  pose proof F as F0.
  apply fetchPageHtml_frame in F. destruct F as (-> & Hh1 & _).
  destruct o1 as [firstHtml | e1].
  2:{ inversion H; subst. split; [reflexivity |]. left. auto. }
  pose proof F0 as Sv. apply fetchPageHtml_served in Sv.
  pose proof F0 as R1. apply fetchPageHtml_requests in R1.
  fold (effectivePagesOf (options this) (resolve firstHtml)) in H.
  set (E := effectivePagesOf (options this) (resolve firstHtml)) in *.
  unfold bind at 1 2 3 in H. unfold emit, newArray, setDonations, alloc in H.
  cbn [heap clock requests trace] in H. unfold bind at 1 in H.
  set (this2 := mkScraper (baseUrl this) (options this) (length (heap w1))
                  (cache this)) in *.
  set (w2 := mkWorld (heap w1 ++ [extract firstHtml]) (clock w1) (requests w1)
               (trace w1 ++ [EvResolve])) in *.
  destruct (fetchRemaining network postContents (Z.to_nat (E - 1)) 2 this2 w2)
    as [[o3 this3] w3] eqn:R.
  destruct o3 as [u | e3].
  { unfold bind, readArray, writeArray, Date_now, setCache, ret in H.
    cbn in H. discriminate. }
  inversion H; subst e3 this3 w3; clear H.
  apply fetchRemaining_failure in R;
    [| unfold this2, w2; cbn; rewrite length_app; cbn; lia].
  destruct R as (-> & more & wk & Hlen & Rk & Hall & Hc & Hk & Hf).
  pose proof Hf as Rf. apply fetchPageHtml_requests in Rf.
  split; [reflexivity |]. right.
  exists firstHtml, more, w1, wk. split; [reflexivity |].
  unfold this2 in *. rewrite Hh1 in *.
  cbn [donations withDonations baseUrl] in *.
  unfold w2 in Rk, Hall. cbn [requests] in Rk.
  split; [| split; [reflexivity | split; [| split; [| split]]]].
  - intros _. unfold pageCount. fold E. lia.
  - rewrite Hc. unfold w2. cbn [heap]. rewrite Hh1.
    unfold deref. rewrite nth_middle. reflexivity.
  - exact Hk.
  - exact Rf.
  - intros _. split; [| exact Hf].
    cbn [pagesFrom]. constructor.
    + eapply Served_widen; [| | exact Sv]; cbn; lia.
    + eapply Forall2_impl; [| exact Hall].
      intros q h Hs. eapply Served_widen; [| | exact Hs]; cbn; lia.
Qed.

(** The first thing a cycle that misses the cache does is to fetch
    page 1; the scraper keeps its URL and its options. *)
Lemma scrape_miss_fetches this w out this' w' :
  cacheHit this (clock w) = None ->
  scrape this w = (out, this', w') ->
  baseUrl this' = baseUrl this /\ options this' = options this /\
  exists tr rest, trace w' = trace w ++ tr /\ fetchedPages tr = 1 :: rest.
Proof.
  intros Hmiss H. apply scrape_miss in H; [| exact Hmiss].
  destruct H as (_ & tr & Ht & H). destruct out as [l | e].
  - destruct H as (firstHtml & w1 & _ & _ & _ & -> & Hc).
    split; [reflexivity |]. split; [reflexivity |].
    exists tr. eexists. split; [exact Ht |].
    rewrite <- fetchedPages_calls, Hc. apply fetchedPages_cycle.
  - destruct H as (_ & [(Hc & -> & _) | (firstHtml & k & _ & Hc & ->)]).
    + split; [reflexivity |]. split; [reflexivity |].
      exists tr, []. split; [exact Ht |].
      rewrite <- fetchedPages_calls, Hc. reflexivity.
    + split; [reflexivity |]. split; [reflexivity |].
      exists tr. eexists. split; [exact Ht |].
      rewrite <- fetchedPages_calls, Hc. apply fetchedPages_cycle.
Qed.

(** X10.  A cycle that went to the network and completed fills the cache:
    [this.donations] and the cache name the very array that was returned,
    the timestamp is the time of completion and the report is the workbook
    of that array.  From then on, while less than [cacheTtl] has passed,
    every call returns that array and touches nothing; once [cacheTtl] has
    passed the next call misses and fetches page 1 again. *)
Theorem scrape_fills_cache (this : Scraper) (w : World) (l : loc)
    (this' : Scraper) (w' : World) :
  cacheHit this (clock w) = None ->
  scrape this w = (Returned l, this', w') ->
  donations this' = l /\
  cache this' = mkCache (Some l) (clock w')
                  (Some (generateXLSX (deref (heap w') l))) /\
  (forall w2, clock w2 - clock w' < cacheTtl (options this) ->
     scrape this' w2 = (Returned l, this', w2)) /\
  (forall w2 out this2 w3,
     cacheTtl (options this) <= clock w2 - clock w' ->
     scrape this' w2 = (out, this2, w3) ->
     exists tr rest, trace w3 = trace w2 ++ tr /\ fetchedPages tr = 1 :: rest).
Proof.
  intros Hmiss H.
  destruct (@scrape_miss_contents this w l this' w' Hmiss H) as (firstHtml & more & _ & _ & _ & ->).
  cbn [donations cache]. split; [reflexivity |]. split; [reflexivity |]. split.
  - intros w2 Hage. rewrite (scrape_hit Date_parse Array_sort network paginationLinks
      paginationCaption postContents _ w2 (l := l)); [reflexivity |].
    apply cacheHit_Some; [reflexivity | exact Hage].
  - intros w2 out this2 w3 Hage H2.
    apply scrape_miss_fetches in H2; [tauto |].
    apply cacheHit_None. right. exact Hage.
Qed.

End CycleContents.

(* ===================================================================== *)
(** * 27. The scraper a request runs on                                   *)
(* ===================================================================== *)

Section RequestInstance.

Variable toLowerCase : str -> str.
Variable Date_parse : str -> option Z.
Variable Array_sort : Comparator -> list DonationRecord -> list DonationRecord.
Variable network : nat -> str -> Response.
Variable paginationLinks : str -> list (str * option str).
Variable paginationCaption : str -> str.
Variable postContents : str -> list str.
Variable toFixed2 : number -> str.
Variable toLocaleDateString : option Z -> str.

Local Abbreviation scrape :=
  (scrapeAllDonations Date_parse Array_sort network paginationLinks paginationCaption
                      postContents).
Local Abbreviation request :=
  (processTelegramRequest toLowerCase Date_parse Array_sort network paginationLinks
     paginationCaption postContents toFixed2 toLocaleDateString).

(** The filter leaves the scraper and the trace as they are. *)
Lemma filterDonationsByComments_frame terms this w :
  exists l w',
    filterDonationsByComments toLowerCase (Some terms) this w
      = (Returned l, this, w') /\ trace w' = trace w.
Proof.
  unfold filterDonationsByComments, bind, getThis, ret, readArray, newArray.
  destruct terms as [| t ts]; cbn beta iota zeta.
  - exists (donations this), w. split; reflexivity.
  - destruct (alloc (heap w) _) as [l h] eqn:E. cbn beta iota zeta.
    eexists. eexists. split; reflexivity.
Qed.

(** X11.  The singleton scraper is reused only for the URL it was built
    for.  A request for that URL runs on it whatever options the request
    brings: the options are ignored.  A request for another URL is served
    exactly as if there had been no scraper: a new one is built, so what
    was cached for the old URL is not used; such a request always begins by
    fetching page 1, and it leaves behind a scraper for the requested
    URL. *)
Theorem request_instance (forumUrl searchTermsString : str)
    (opts : UserOptions) (sc : Scraper) (w : World) :
  (baseUrl sc = forumUrl ->
   forall opts',
     request forumUrl searchTermsString opts (Some sc) w
     = request forumUrl searchTermsString opts' (Some sc) w) /\
  (baseUrl sc <> forumUrl ->
   request forumUrl searchTermsString opts (Some sc) w
   = request forumUrl searchTermsString opts None w) /\
  (forall p inst' w',
     request forumUrl searchTermsString opts None w = (p, inst', w') ->
     (exists this', inst' = Some this' /\ baseUrl this' = forumUrl) /\
     exists tr rest, trace w' = trace w ++ tr /\ fetchedPages tr = 1 :: rest).
Proof.
  split; [| split].
  - intros E opts'. unfold processTelegramRequest.
    replace (str_eqb (baseUrl sc) forumUrl) with true
      by (symmetry; apply str_eqb_eq; exact E).
    reflexivity.
  - intros E. unfold processTelegramRequest.
    replace (str_eqb (baseUrl sc) forumUrl) with false; [reflexivity |].
    symmetry. destruct (str_eqb (baseUrl sc) forumUrl) eqn:B; [| reflexivity].
    apply str_eqb_eq in B. contradiction.
  - intros p inst' w' H. unfold processTelegramRequest in H.
    destruct (construct forumUrl opts w) as [this0 w0] eqn:C.
    assert (C0 : baseUrl this0 = forumUrl /\ trace w0 = trace w /\
                 cacheHit this0 (clock w0) = None).
    { unfold construct, alloc in C. inversion C; subst. cbn. auto. }
    destruct C0 as (Hb & Ht & Hmiss).
    unfold bind at 1 in H.
    destruct (scrape this0 w0) as [[o1 this1] w1] eqn:S1.
    destruct (@scrape_miss_fetches Date_parse Array_sort network paginationLinks
                paginationCaption postContents _ _ _ _ _ Hmiss S1)
      as (Hb1 & _ & tr & rest & Ht1 & Hf).
    destruct o1 as [l | e].
    + unfold bind at 1 in H.
      destruct (filterDonationsByComments_frame
                  (searchTermsOf searchTermsString) this1 w1)
        as (fl & w2 & Ef & Ht2).
      rewrite Ef in H.
      unfold bind, readArray, getThis, ret in H. cbn beta iota zeta in H.
      inversion H; subst. split.
      * exists this1. split; [reflexivity | congruence].
      * exists tr, rest. split; [congruence | exact Hf].
    + inversion H; subst. split.
      * exists this1. split; [reflexivity | congruence].
      * exists tr, rest. split; [congruence | exact Hf].
Qed.

End RequestInstance.

(* ===================================================================== *)
(** * 28. Page URLs                                                       *)
(* ===================================================================== *)

(** ** The decimal text of a number *)

Fixpoint uintDigits (d : Decimal.uint) : str :=
  match d with
  | Decimal.Nil => []
  | Decimal.D0 l => 48%N :: uintDigits l
  | Decimal.D1 l => 49%N :: uintDigits l
  | Decimal.D2 l => 50%N :: uintDigits l
  | Decimal.D3 l => 51%N :: uintDigits l
  | Decimal.D4 l => 52%N :: uintDigits l
  | Decimal.D5 l => 53%N :: uintDigits l
  | Decimal.D6 l => 54%N :: uintDigits l
  | Decimal.D7 l => 55%N :: uintDigits l
  | Decimal.D8 l => 56%N :: uintDigits l
  | Decimal.D9 l => 57%N :: uintDigits l
  end.

Lemma ustr_String c s :
  (N_of_ascii c <? 128)%N = true ->
  ustr (String c s) = N_of_ascii c :: ustr s.
Proof.
  intros H. unfold ustr. cbn [list_ascii_of_string map utf8_decode].
  rewrite H. cbn [flat_map]. unfold utf16_units at 1.
  replace (N_of_ascii c <? 65536)%N with true; [reflexivity |].
  symmetry. apply N.ltb_lt. apply N.ltb_lt in H. lia.
Qed.

Lemma ustr_string_of_uint d :
  ustr (DecimalString.NilEmpty.string_of_uint d) = uintDigits d.
Proof.
  induction d; cbn [DecimalString.NilEmpty.string_of_uint uintDigits];
    [reflexivity | ..]; rewrite ustr_String by reflexivity; now rewrite IHd.
Qed.

Lemma uintDigits_digits d : forallb isDigit (uintDigits d) = true.
Proof. induction d; cbn; auto. Qed.

Lemma digits_value_acc d : forall acc,
  fold_left (fun a c => (a * 10 + digit_value c)%N) (uintDigits d) (Npos acc)
  = Npos (Pos.of_uint_acc d acc).
Proof.
  induction d; intros acc; cbn [uintDigits fold_left Pos.of_uint_acc];
    [reflexivity | ..];
    match goal with
    | |- fold_left _ _ ?x = N.pos (Pos.of_uint_acc _ ?y) =>
      replace x with (Npos y); [apply IHd | unfold digit_value; lia]
    end.
Qed.

Lemma digits_value_uint d : digits_value (uintDigits d) = Pos.of_uint d.
Proof.
  unfold digits_value.
  induction d; cbn [uintDigits fold_left Pos.of_uint];
    [reflexivity | exact IHd | ..]; apply digits_value_acc.
Qed.

(** The text of a natural number is a non-empty run of digits that
    [parseInt] reads back. *)
Lemma str_of_Z_digits z :
  0 <= z ->
  str_of_Z z <> [] /\ forallb isDigit (str_of_Z z) = true /\
  parseInt10 (str_of_Z z) = z.
Proof.
  intros Hz. destruct z as [| p | p]; [| | lia].
  - repeat split. discriminate.
  - unfold str_of_Z. cbn [Z.to_int DecimalString.NilZero.string_of_int].
    pose proof (DecimalPos.Unsigned.to_uint_nonnil p) as Hn.
    assert (E : DecimalString.NilZero.string_of_uint (Pos.to_uint p)
                = DecimalString.NilEmpty.string_of_uint (Pos.to_uint p)).
    { unfold DecimalString.NilZero.string_of_uint.
      destruct (Pos.to_uint p); [congruence | reflexivity ..]. }
    rewrite E, ustr_string_of_uint.
    split; [destruct (Pos.to_uint p); [congruence | discriminate ..] |].
    split; [apply uintDigits_digits |].
    unfold parseInt10. rewrite (span_all _ _ (uintDigits_digits _)).
    cbn [fst]. rewrite digits_value_uint, DecimalPos.Unsigned.of_to.
    reflexivity.
Qed.

(** ** The matcher on the [start=] patterns *)

Lemma rmatch_Lit t : forall s c k,
  rmatch (Lit t) s c k
  = if isPrefixOf t s then k (skipn (length t) s) c else None.
Proof.
  induction t as [| a t IH]; intros s c k; [reflexivity |].
  cbn [Lit fold_right rmatch Chr].
  destruct s as [| b s]; [reflexivity |].
  cbn [isPrefixOf length skipn]. destruct (a =? b)%N; [| reflexivity].
  apply IH.
Qed.

Lemma repeat_class_greedy p fuel : forall s c (k : cont),
  (length s <= fuel)%nat -> k (dropWhile p s) c <> None ->
  repeat_matcher (fun s0 c0 k0 => rmatch (Class p) s0 (clear (groups (Class p)) c0) k0)
    true fuel s c k = k (dropWhile p s) c.
Proof.
  induction fuel as [| fuel IH]; intros s c k Hl Hk.
  - destruct s; [reflexivity | simpl in Hl; lia].
  - cbn [repeat_matcher]. destruct s as [| a s]; cbn [rmatch dropWhile groups].
    + cbn in Hk. destruct (k [] c); [reflexivity | congruence].
    + rewrite clear_nil. cbn [dropWhile] in Hk.
      destruct (p a) eqn:Ha; [| reflexivity].
      replace (length s <? length (a :: s))%nat with true
        by (symmetry; apply Nat.ltb_lt; simpl; lia).
      rewrite IH by (simpl in Hl; lia || exact Hk).
      destruct (k (dropWhile p s) c); [reflexivity | congruence].
Qed.

Lemma rmatch_plus_class p s c (k : cont) :
  (forall s', k s' c <> None) ->
  rmatch (Plus (Class p)) s c k
  = match s with
    | a :: s' => if p a then k (dropWhile p s') c else None
    | [] => None
    end.
Proof.
  intros Hk. unfold Plus. cbn [rmatch].
  destruct s as [| a s]; [reflexivity |].
  destruct (p a); [| reflexivity].
  apply repeat_class_greedy; [lia | apply Hk].
Qed.

(** A [start=] parameter with a digit begins here. *)
Definition startsHere (s : str) : bool :=
  isPrefixOf (ustr "start=") s &&
  match skipn 6 s with
  | a :: _ => isDigit a
  | [] => false
  end.

Lemma rmatch_startPattern s :
  rmatch startPattern s [] accept
  = if startsHere s
    then Some ([], dropWhile isDigit (skipn 6 s)) else None.
Proof.
  unfold startPattern, startsHere. cbn [rmatch]. rewrite rmatch_Lit.
  destruct (isPrefixOf (ustr "start=") s); [| reflexivity].
  change (length (ustr "start=")) with 6%nat. cbn [andb].
  unfold digit. rewrite rmatch_plus_class by (intros; discriminate).
  destruct (skipn 6 s) as [| a s']; [reflexivity |].
  cbn [dropWhile]. destruct (isDigit a); reflexivity.
Qed.

Lemma firstn_span p (x : str) :
  firstn (length x - length (dropWhile p x)) x = fst (span p x).
Proof.
  induction x as [| a x IH]; [reflexivity |].
  cbn [dropWhile span]. destruct (p a) eqn:Ha.
  - pose proof (length_dropWhile p x).
    replace (length (a :: x) - length (dropWhile p x))%nat
      with (S (length x - length (dropWhile p x))) by (cbn [length]; lia).
    cbn [firstn]. rewrite IH. destruct (span p x). reflexivity.
  - now rewrite Nat.sub_diag.
Qed.

Lemma rmatch_startCapture s :
  rmatch startCapture s [] accept
  = if startsHere s
    then Some ([(1%nat, fst (span isDigit (skipn 6 s)))],
               dropWhile isDigit (skipn 6 s))
    else None.
Proof.
  unfold startCapture, startsHere. cbn [rmatch]. rewrite rmatch_Lit.
  destruct (isPrefixOf (ustr "start=") s); [| reflexivity].
  change (length (ustr "start=")) with 6%nat. cbn [andb].
  unfold digit. rewrite rmatch_plus_class by (intros; discriminate).
  destruct (skipn 6 s) as [| a s'] eqn:E; [reflexivity |].
  destruct (isDigit a) eqn:Ha; [| reflexivity].
  unfold accept. rewrite <- firstn_span. cbn [dropWhile]. rewrite Ha.
  reflexivity.
Qed.

(** ** Searching for the [start=] parameter *)

Lemma search_skip (r : regex) : forall pre s1 i,
  (forall pre1 s', pre = pre1 ++ s' -> s' <> [] ->
     rmatch r (s' ++ s1) [] accept = None) ->
  search r i (pre ++ s1) = search r (i + length pre) s1.
Proof.
  induction pre as [| a pre IH]; intros s1 i H.
  - cbn. now rewrite Nat.add_0_r.
  - cbn [app]. rewrite search_eq.
    change (a :: pre ++ s1) with ((a :: pre) ++ s1).
    rewrite (H [] (a :: pre) eq_refl) by discriminate.
    cbn [app]. rewrite IH.
    + f_equal. cbn [length]. lia.
    + intros pre1 s' E Hne. apply (H (a :: pre1)); [now rewrite E | exact Hne].
Qed.

Lemma search_Some_rmatch (r : regex) : forall s i m,
  search r i s = Some m ->
  exists pre s1,
    s = pre ++ s1 /\ m_index m = (i + length pre)%nat /\
    rmatch r s1 [] accept = Some (m_caps m, m_rest m) /\
    (forall pre1 s', pre = pre1 ++ s' -> s' <> [] ->
       rmatch r (s' ++ s1) [] accept = None).
Proof.
  induction s as [| a s IH]; intros i m H; rewrite search_eq in H.
  - destruct (rmatch r [] [] accept) as [[c rest] |] eqn:E; [| discriminate].
    apply Some_inj in H. subst m. exists [], []. cbn.
    repeat split; auto. intros [| ? ?] s' E' Hne; destruct s'; try discriminate.
    congruence.
  - destruct (rmatch r (a :: s) [] accept) as [[c rest] |] eqn:E.
    + apply Some_inj in H. subst m. exists [], (a :: s). cbn.
      repeat split; auto. intros [| ? ?] s' E' Hne; destruct s'; try discriminate.
      congruence.
    + apply IH in H. destruct H as (pre & s1 & Hs & Hi & Hm & Hleft).
      exists (a :: pre), s1. split; [cbn; now rewrite Hs |].
      split; [cbn [length]; lia |]. split; [exact Hm |].
      intros pre1 s' E' Hne. destruct pre1 as [| b pre1]; cbn in E'.
      * subst s'. cbn [app]. rewrite <- Hs. exact E.
      * apply (Hleft pre1); [congruence | exact Hne].
Qed.

Lemma isPrefixOf_skipn t : forall s,
  isPrefixOf t s = true -> s = t ++ skipn (length t) s.
Proof.
  induction t as [| a t IH]; intros s H; [reflexivity |].
  destruct s as [| b s]; [discriminate |]. cbn in H.
  apply andb_true_iff in H. destruct H as [E H]. apply N.eqb_eq in E. subst b.
  cbn. f_equal. apply IH. exact H.
Qed.

Lemma isPrefixOf_app t s : isPrefixOf t (t ++ s) = true.
Proof. apply isPrefixOf_spec. exists s. reflexivity. Qed.

Lemma prefix_over_sep t : forall x c u,
  ~ In c t -> isPrefixOf t (x ++ c :: u) = true -> isPrefixOf t x = true.
Proof.
  induction t as [| a t IH]; intros x c u Hc H; [reflexivity |].
  destruct x as [| b x]; cbn in H; apply andb_true_iff in H;
    destruct H as [E H]; apply N.eqb_eq in E; subst.
  - exfalso. apply Hc. left. reflexivity.
  - cbn. rewrite N.eqb_refl. cbn. eapply IH; [| exact H].
    intros Hi. apply Hc. right. exact Hi.
Qed.

Definition startsDigit (s : str) : bool :=
  match s with
  | a :: _ => isDigit a
  | [] => false
  end.

Lemma startsDigit_dropWhile s : startsDigit (dropWhile isDigit s) = false.
Proof.
  induction s as [| a s IH]; [reflexivity |]. cbn [dropWhile].
  destruct (isDigit a) eqn:Ha; [exact IH | exact Ha].
Qed.

Lemma span_run ds rest :
  forallb isDigit ds = true -> startsDigit rest = false ->
  span isDigit (ds ++ rest) = (ds, rest).
Proof.
  intros Hd Hr. destruct rest as [| x rest].
  - rewrite app_nil_r. apply span_all. exact Hd.
  - apply span_stop; assumption.
Qed.

Lemma dropWhile_run ds rest :
  forallb isDigit ds = true -> startsDigit rest = false ->
  dropWhile isDigit (ds ++ rest) = rest.
Proof.
  intros Hd Hr. induction ds as [| a ds IH]; cbn [app dropWhile].
  - destruct rest as [| x rest]; [reflexivity |].
    cbn [startsDigit] in Hr. cbn [dropWhile]. now rewrite Hr.
  - cbn [forallb] in Hd. apply andb_true_iff in Hd. destruct Hd as [Ha Hd].
    rewrite Ha. apply IH. exact Hd.
Qed.

Lemma startsHere_run ds rest :
  ds <> [] -> forallb isDigit ds = true ->
  startsHere (ustr "start=" ++ ds ++ rest) = true.
Proof.
  intros Hne Hd. unfold startsHere. rewrite isPrefixOf_app.
  destruct ds as [| a ds]; [congruence |]. cbn [forallb] in Hd.
  apply andb_true_iff in Hd. destruct Hd as [Ha _].
  change (ustr "start=") with [115; 116; 97; 114; 116; 61]%N.
  cbn [app skipn andb]. exact Ha.
Qed.

(** Whether a parameter begins inside the text before a [start=] does not
    depend on what follows that [start=]. *)
Lemma startsHere_ext s' X Y :
  s' <> [] ->
  startsHere (s' ++ ustr "start=" ++ X) = startsHere (s' ++ ustr "start=" ++ Y).
Proof.
  intros Hne. unfold startsHere.
  change (ustr "start=") with [115; 116; 97; 114; 116; 61]%N.
  destruct s' as [| a1 [| a2 [| a3 [| a4 [| a5 [| a6 [| a7 s']]]]]]];
    [congruence | ..]; cbn [app isPrefixOf skipn]; reflexivity.
Qed.

Lemma suffix_of_snoc (base : str) c pre1 s' :
  base ++ [c] = pre1 ++ s' -> s' <> [] ->
  exists x, s' = x ++ [c] /\ base = pre1 ++ x.
Proof.
  intros E Hne.
  destruct (exists_last Hne) as (x & d & ->).
  rewrite app_assoc in E. apply app_inj_tail in E. destruct E as [E ->].
  exists x. auto.
Qed.

(** In a URL that is a base without [start=], a separator and then a
    [start=] parameter, the first parameter found is that one. *)
Lemma search_fresh (r : regex) base c ds :
  r = startPattern \/ r = startCapture ->
  includes base (ustr "start=") = false ->
  ~ In c (ustr "start=") ->
  search r 0 (base ++ c :: ustr "start=" ++ ds)
  = search r (length base + 1) (ustr "start=" ++ ds).
Proof.
  intros Hr Hb Hc.
  change (base ++ c :: ustr "start=" ++ ds)
    with (base ++ [c] ++ ustr "start=" ++ ds).
  rewrite app_assoc, search_skip; [now rewrite length_app |].
  intros pre1 s' E Hne.
  destruct (suffix_of_snoc _ _ _ E Hne) as (x & -> & ->).
  assert (F : startsHere ((x ++ [c]) ++ ustr "start=" ++ ds) = false).
  { unfold startsHere. rewrite <- app_assoc. cbn [app].
    destruct (isPrefixOf (ustr "start=") (x ++ c :: ustr "start=" ++ ds))
      eqn:P; [| reflexivity].
    exfalso. apply prefix_over_sep in P; [| exact Hc].
    apply isPrefixOf_spec in P. destruct P as (post & ->).
    assert (I : includes (pre1 ++ ustr "start=" ++ post) (ustr "start=") = true).
    { apply includes_Infix. exists pre1, post. reflexivity. }
    congruence. }
  destruct Hr as [-> | ->];
    [rewrite rmatch_startPattern | rewrite rmatch_startCapture];
    now rewrite F.
Qed.

Lemma skipn_start X : skipn 6 (ustr "start=" ++ X) = X.
Proof. reflexivity. Qed.

Lemma firstn_exact (a b : str) : firstn (length a) (a ++ b) = a.
Proof.
  rewrite firstn_app, Nat.sub_diag, firstn_all. cbn. apply app_nil_r.
Qed.

Lemma firstn_snoc (a : str) c b :
  firstn (length a + 1) (a ++ c :: b) = a ++ [c].
Proof.
  change (a ++ c :: b) with (a ++ [c] ++ b). rewrite app_assoc.
  replace (length a + 1)%nat with (length (a ++ [c]))
    by (rewrite length_app; reflexivity).
  apply firstn_exact.
Qed.

(** The URL of a later page, for a base without a [start=] parameter: the
    parameter is appended after [?] or, when the base has a query, [&]. *)
Definition separatorOf (base : str) : char :=
  if includes base (ustr "?") then 38%N else 63%N.

Lemma buildPageUrl_fresh base p :
  2 <= p -> includes base (ustr "start=") = false ->
  buildPageUrl base p
  = base ++ separatorOf base :: ustr "start=" ++ str_of_Z ((p - 1) * 20).
Proof.
  intros Hp Hb. unfold buildPageUrl, separatorOf.
  replace (1 <? p) with true by (symmetry; apply Z.ltb_lt; lia).
  rewrite Hb. destruct (includes base (ustr "?")); reflexivity.
Qed.

Lemma separator_not_in_start base : ~ In (separatorOf base) (ustr "start=").
Proof.
  unfold separatorOf. destruct (includes base (ustr "?")); cbn; intros H;
    repeat (destruct H as [H | H]; [discriminate |]); exact H.
Qed.

Lemma search_at_run (i : nat) N rest :
  N <> [] -> forallb isDigit N = true -> startsDigit rest = false ->
  search startCapture i (ustr "start=" ++ N ++ rest)
    = Some (MatchResult i (ustr "start=" ++ N) [(1%nat, N)] rest) /\
  search startPattern i (ustr "start=" ++ N ++ rest)
    = Some (MatchResult i (ustr "start=" ++ N) [] rest).
Proof.
  intros Hne Hd Hr.
  assert (W : firstn (length (ustr "start=" ++ N ++ rest) - length rest)
                     (ustr "start=" ++ N ++ rest) = ustr "start=" ++ N).
  { rewrite app_assoc. apply firstn_consumed. }
  rewrite !search_eq, rmatch_startCapture, rmatch_startPattern.
  rewrite (@startsHere_run N rest Hne Hd), skipn_start.
  rewrite (span_run _ _ Hd Hr), (dropWhile_run _ _ Hd Hr). cbn [fst].
  rewrite W. split; reflexivity.
Qed.

Lemma match_fresh base c N :
  includes base (ustr "start=") = false ->
  ~ In c (ustr "start=") ->
  N <> [] -> forallb isDigit N = true ->
  str_match (base ++ c :: ustr "start=" ++ N) startCapture
    = Some (MatchResult (length base + 1) (ustr "start=" ++ N)
                        [(1%nat, N)] []) /\
  str_match (base ++ c :: ustr "start=" ++ N) startPattern
    = Some (MatchResult (length base + 1) (ustr "start=" ++ N) [] []).
Proof.
  intros Hb Hc Hne Hd. unfold str_match.
  rewrite !search_fresh by auto.
  destruct (@search_at_run (length base + 1) N [] Hne Hd eq_refl) as [A B].
  rewrite app_nil_r in A, B. split; assumption.
Qed.

Lemma match_replaced base m rep :
  str_match base startPattern = Some m ->
  rep <> [] -> forallb isDigit rep = true ->
  includes base (ustr "start=") = true /\
  exists pre,
    replace_first base startPattern (ustr "start=" ++ rep)
      = pre ++ ustr "start=" ++ rep ++ m_rest m /\
    str_match (pre ++ ustr "start=" ++ rep ++ m_rest m) startCapture
      = Some (MatchResult (length pre) (ustr "start=" ++ rep)
                          [(1%nat, rep)] (m_rest m)).
Proof.
  intros H Hne Hd. unfold replace_first. rewrite H.
  unfold str_match in H. apply search_Some_rmatch in H.
  destruct H as (pre & s1 & -> & Hi & Hm & Hleft). cbn [Nat.add] in Hi.
  rewrite rmatch_startPattern in Hm.
  destruct (startsHere s1) eqn:S1; [| discriminate].
  apply Some_inj in Hm.
  assert (Hrest : m_rest m = dropWhile isDigit (skipn 6 s1)) by congruence.
  assert (P : isPrefixOf (ustr "start=") s1 = true).
  { unfold startsHere in S1. apply andb_true_iff in S1. tauto. }
  pose proof (isPrefixOf_skipn _ _ P) as E1.
  change (length (ustr "start=")) with 6%nat in E1.
  split.
  { apply includes_Infix. exists pre, (skipn 6 s1). now rewrite <- E1. }
  exists pre. rewrite Hi, firstn_exact, <- app_assoc.
  split; [reflexivity |].
  assert (Hr : startsDigit (m_rest m) = false).
  { rewrite Hrest. apply startsDigit_dropWhile. }
  unfold str_match. rewrite search_skip.
  - apply (@search_at_run (0 + length pre) rep (m_rest m) Hne Hd Hr).
  - intros pre1 s' E Hs'. rewrite rmatch_startCapture.
    rewrite (@startsHere_ext s' (rep ++ m_rest m) (skipn 6 s1) Hs'), <- E1.
    specialize (Hleft pre1 s' E Hs'). rewrite rmatch_startPattern in Hleft.
    destruct (startsHere (s' ++ s1)); [discriminate | reflexivity].
Qed.

(** X12.  Page numbers and offsets agree.  For page 1 (or less) the URL is
    the base URL as given.  For a later page [p] the URL carries the offset
    [(p - 1) * 20] in such a way that the pagination resolver reads it
    back: the pattern the resolver applies to a link finds that offset, and
    the page it derives from it is [p].  This holds when the base URL has
    no [start=] at all (the parameter is appended after [?] or [&]), and
    when it has a query and a [start=] parameter with digits (the first one
    is replaced).  The URL of a page can itself serve as base URL: asking
    it for page [q] gives the URL of page [q], the parameter being replaced
    and not appended again. *)
Theorem buildPageUrl_offset (base : str) (p : Z) :
  (p <= 1 -> buildPageUrl base p = base) /\
  (2 <= p -> (p - 1) * 20 < 2 ^ 53 ->
   includes base (ustr "start=") = false \/
   includes base (ustr "?") = true /\ str_match base startPattern <> None ->
   exists m,
     str_match (buildPageUrl base p) startCapture = Some m /\
     group 1 m = str_of_Z ((p - 1) * 20) /\
     parseInt10 (group 1 m) = (p - 1) * 20 /\
     parseInt10 (group 1 m) / 20 + 1 = p) /\
  (2 <= p -> (p - 1) * 20 < 2 ^ 53 ->
   includes base (ustr "start=") = false ->
   forall q, 2 <= q -> (q - 1) * 20 < 2 ^ 53 ->
     buildPageUrl (buildPageUrl base p) q = buildPageUrl base q).
Proof.
  split; [| split].
  - intros Hp. unfold buildPageUrl.
    replace (1 <? p) with false by (symmetry; apply Z.ltb_ge; lia).
    reflexivity.
  - intros Hp _ Hbase.
    destruct (@str_of_Z_digits ((p - 1) * 20) ltac:(lia)) as (Hne & Hd & Hv).
    assert (G : forall m,
      str_match (buildPageUrl base p) startCapture = Some m ->
      m_caps m = [(1%nat, str_of_Z ((p - 1) * 20))] ->
      exists m0,
        str_match (buildPageUrl base p) startCapture = Some m0 /\
        group 1 m0 = str_of_Z ((p - 1) * 20) /\
        parseInt10 (group 1 m0) = (p - 1) * 20 /\
        parseInt10 (group 1 m0) / 20 + 1 = p).
    { intros m Hm Hc. exists m. split; [exact Hm |].
      assert (Eg : group 1 m = str_of_Z ((p - 1) * 20))
        by (unfold group; rewrite Hc; reflexivity).
      rewrite Eg, Hv. split; [reflexivity |]. split; [reflexivity |].
      rewrite Z.div_mul by lia. lia. }
    destruct Hbase as [Hb | [Hq Hs]].
    + rewrite (buildPageUrl_fresh base Hp Hb) in *.
      destruct (@match_fresh base (separatorOf base) _ Hb
                  (separator_not_in_start base) Hne Hd) as [M _].
      eapply G; [exact M | reflexivity].
    + destruct (str_match base startPattern) as [m |] eqn:Em; [| congruence].
      destruct (match_replaced _ Em Hne Hd) as (Hi & pre & Hrep & M).
      assert (U : buildPageUrl base p
                  = pre ++ ustr "start=" ++ str_of_Z ((p - 1) * 20) ++ m_rest m).
      { unfold buildPageUrl.
        replace (1 <? p) with true by (symmetry; apply Z.ltb_lt; lia).
        rewrite Hq, Hi. exact Hrep. }
      rewrite U in *. eapply G; [exact M | reflexivity].
  - intros Hp _ Hb q Hq _.
    destruct (@str_of_Z_digits ((p - 1) * 20) ltac:(lia)) as (Hne & Hd & _).
    rewrite (buildPageUrl_fresh base Hp Hb), (buildPageUrl_fresh base Hq Hb).
    set (c := separatorOf base).
    destruct (@match_fresh base c _ Hb (separator_not_in_start base) Hne Hd)
      as [_ M].
    set (url := base ++ c :: ustr "start=" ++ str_of_Z ((p - 1) * 20)) in *.
    unfold buildPageUrl.
    replace (1 <? q) with true by (symmetry; apply Z.ltb_lt; lia).
    assert (I1 : includes url (ustr "?") = true).
    { apply includes_Infix. unfold url, c, separatorOf.
      destruct (includes base (ustr "?")) eqn:Q.
      - apply includes_Infix in Q. eapply Infix_trans; [exact Q |].
        exists [], (38%N :: ustr "start=" ++ str_of_Z ((p - 1) * 20)).
        reflexivity.
      - exists base. eexists. reflexivity. }
    assert (I2 : includes url (ustr "start=") = true).
    { apply includes_Infix. exists (base ++ [c]), (str_of_Z ((p - 1) * 20)).
      unfold url. now rewrite <- app_assoc. }
    rewrite I1, I2. unfold replace_first. rewrite M. cbn [m_index m_rest].
    unfold url. rewrite firstn_snoc, app_nil_r, <- app_assoc. reflexivity.
Qed.

(* ===================================================================== *)
(** * 29. Saving the report: [saveXLSXForTelegram]                        *)
(* ===================================================================== *)

(** The characters a file name must not have, the class of the pattern in
    the source: less-than, greater-than, colon, double quote, slash,
    backslash, bar, question mark and asterisk; and the class of colon and
    dot. *)
Definition isUnsafe (c : char) : bool :=
  ((c =? 60) || (c =? 62) || (c =? 58) || (c =? 34) || (c =? 47)
   || (c =? 92) || (c =? 124) || (c =? 63) || (c =? 42))%N.

Definition isColonOrDot (c : char) : bool := ((c =? 58) || (c =? 46))%N.

Definition UNDERSCORE : char := 95%N.

(** The base name: the comma-separated parts, trimmed, without the empty
    ones, joined by underscores; then every run of unsafe characters
    becomes one underscore, every run of white space one space, and the
    result is trimmed. *)
Definition safeBaseNameOf (filename : str) : str :=
  trim
    (replace_all
       (replace_all
          (join [UNDERSCORE]
                (filter truthyStr (map trim (splitOn COMMA filename))))
          (Plus (Class isUnsafe)) [UNDERSCORE])
       (Plus ws) [SPACE]).

(** [fileName]: the base name when there is one, else a name made from the
    time stamp, whose colons and dot are turned into hyphens. *)
Definition fileNameOf (filename : option str) (isoNow : str) : str :=
  let timestamp := replace_all isoNow (Class isColonOrDot) [HYPHEN] in
  let safeBaseName :=
    match filename with
    | Some f => if truthyStr f then Some (safeBaseNameOf f) else None
    | None => None
    end in
  match safeBaseName with
  | Some b =>
    if truthyStr b then b ++ ustr ".xlsx"
    else ustr "donations_" ++ timestamp ++ ustr ".xlsx"
  | None => ustr "donations_" ++ timestamp ++ ustr ".xlsx"
  end.

Inductive SaveResult : Type :=
| Saved (filePath fileName : str)
| SaveFailed (error : str).

Section SaveReport.

(** The file system and the clock of the host: [new Date().toISOString()],
    [fs.mkdir(dir, { recursive: true })] and [XLSX.writeFile]; an operation
    that fails throws the error it returns here. *)
Variable FS : Type.
Variable toISOString : Z -> str.
Variable fs_mkdir : str -> FS -> option JsError * FS.
Variable XLSX_writeFile : Workbook -> str -> FS -> option JsError * FS.

Definition saveXLSXForTelegram (xlsxContent : Workbook)
    (filename : option str) (now : Z) (fs : FS) : SaveResult * FS :=
  let fileName := fileNameOf filename (toISOString now) in
  let filePath := ustr "./temp/" ++ fileName in
  match fs_mkdir (ustr "./temp") fs with
  | (Some e, fs1) => (SaveFailed (message e), fs1)
  | (None, fs1) =>
    match XLSX_writeFile xlsxContent filePath fs1 with
    | (Some e, fs2) => (SaveFailed (message e), fs2)
    | (None, fs2) => (Saved filePath fileName, fs2)
    end
  end.

End SaveReport.

(** ** Global replacement of the runs of a character class *)

Fixpoint squeezeBy (p : char -> bool) (rep : str) (inRun : bool) (s : str)
    : str :=
  match s with
  | [] => []
  | a :: s' =>
    if p a
    then if inRun then squeezeBy p rep true s'
         else rep ++ squeezeBy p rep true s'
    else a :: squeezeBy p rep false s'
  end.

Lemma rmatch_plus_accept p s :
  rmatch (Plus (Class p)) s [] accept
  = match s with
    | a :: s' => if p a then Some ([], dropWhile p s') else None
    | [] => None
    end.
Proof. apply rmatch_plus_class. intros; discriminate. Qed.

Lemma squeezeBy_true_dropWhile p rep s :
  squeezeBy p rep true s = squeezeBy p rep false (dropWhile p s).
Proof.
  induction s as [| a s IH]; cbn [squeezeBy dropWhile]; [reflexivity |].
  destruct (p a) eqn:Ha; [exact IH |].
  cbn [squeezeBy]. now rewrite Ha.
Qed.

Lemma replace_class_squeeze p rep fuel : forall s,
  (length s < fuel)%nat ->
  replace_all_loop fuel (Plus (Class p)) rep s = squeezeBy p rep false s.
Proof.
  induction fuel as [| fuel IH]; intros s Hl; [lia |].
  cbn [replace_all_loop]. rewrite rmatch_plus_accept.
  destruct s as [| a s]; [reflexivity |].
  cbn [squeezeBy]. destruct (p a) eqn:Ha.
  - pose proof (length_dropWhile p s) as Hd.
    replace (length (dropWhile p s) <? length (a :: s))%nat
      with true by (symmetry; apply Nat.ltb_lt; cbn [length]; lia).
    rewrite IH by (cbn [length] in Hl; lia).
    rewrite squeezeBy_true_dropWhile. reflexivity.
  - rewrite IH by (cbn [length] in Hl; lia). reflexivity.
Qed.

Lemma replace_class_each p rep fuel : forall s,
  (length s < fuel)%nat ->
  replace_all_loop fuel (Class p) rep s
  = flat_map (fun c => if p c then rep else [c]) s.
Proof.
  induction fuel as [| fuel IH]; intros s Hl; [lia |].
  cbn [replace_all_loop rmatch]. destruct s as [| a s]; [reflexivity |].
  cbn [flat_map]. destruct (p a) eqn:Ha.
  - unfold accept.
    replace (length s <? length (a :: s))%nat
      with true by (symmetry; apply Nat.ltb_lt; cbn [length]; lia).
    rewrite IH by (cbn [length] in Hl; lia). reflexivity.
  - rewrite IH by (cbn [length] in Hl; lia). reflexivity.
Qed.

Lemma squeezeBy_In p rep c : forall s b,
  In c (squeezeBy p rep b s) -> In c rep \/ (In c s /\ p c = false).
Proof.
  induction s as [| a s IH]; intros b H; [contradiction |].
  cbn [squeezeBy] in H. destruct (p a) eqn:Ha.
  - destruct b.
    + destruct (IH _ H) as [? | [? ?]]; [left | right; split; [right |]]; auto.
    + apply in_app_or in H. destruct H as [H | H]; [left; exact H |].
      destruct (IH _ H) as [? | [? ?]]; [left | right; split; [right |]]; auto.
  - destruct H as [<- | H]; [right; split; [left; reflexivity | exact Ha] |].
    destruct (IH _ H) as [? | [? ?]]; [left | right; split; [right |]]; auto.
Qed.

Lemma squeezeBy_id p rep s :
  forallb (fun c => negb (p c)) s = true -> squeezeBy p rep false s = s.
Proof.
  induction s as [| a s IH]; [reflexivity |]. cbn [forallb squeezeBy].
  intros H. apply andb_true_iff in H. destruct H as [Ha Hs].
  apply negb_true_iff in Ha. rewrite Ha. now rewrite IH.
Qed.

Lemma squeeze_In c : forall s b,
  In c (squeeze b s) -> c = SPACE \/ (In c s /\ isWhiteSpace c = false).
Proof.
  induction s as [| a s IH]; intros b H; [contradiction |].
  cbn [squeeze] in H. destruct (isWhiteSpace a) eqn:Ha.
  - destruct b.
    + destruct (IH _ H) as [? | [? ?]]; [left | right; split; [right |]]; auto.
    + destruct H as [<- | H]; [left; reflexivity |].
      destruct (IH _ H) as [? | [? ?]]; [left | right; split; [right |]]; auto.
  - destruct H as [<- | H]; [right; split; [left; reflexivity | exact Ha] |].
    destruct (IH _ H) as [? | [? ?]]; [left | right; split; [right |]]; auto.
Qed.

Lemma join_In c sep : forall ts,
  In c (join sep ts) -> In c sep \/ exists t, In t ts /\ In c t.
Proof.
  induction ts as [| t ts IH]; intros H; [contradiction |].
  destruct ts as [| t2 ts].
  - right. exists t. split; [left; reflexivity | exact H].
  - change (join sep (t :: t2 :: ts)) with (t ++ sep ++ join sep (t2 :: ts)) in H.
    apply in_app_or in H. destruct H as [H | H].
    + right. exists t. split; [left; reflexivity | exact H].
    + apply in_app_or in H. destruct H as [H | H]; [left; exact H |].
      destruct (IH H) as [? | (t' & Ht' & Hc)]; [left; assumption |].
      right. exists t'. split; [right; exact Ht' | exact Hc].
Qed.

Lemma single_trim s : single s -> single (trim s).
Proof.
  intros H. destruct (trim_Infix s) as (pre & post & E).
  rewrite E in H. apply single_app_r in H. apply single_app_l in H. exact H.
Qed.

(** ** The base name *)

Lemma safeBaseNameOf_eq f :
  safeBaseNameOf f
  = trim (squeeze false
            (squeezeBy isUnsafe [UNDERSCORE] false
               (join [UNDERSCORE] (searchTermsOf f)))).
Proof.
  unfold safeBaseNameOf, replace_all.
  rewrite replace_class_squeeze by lia.
  rewrite replace_ws_squeeze by lia. reflexivity.
Qed.

Lemma safeBaseNameOf_chars f c :
  In c (safeBaseNameOf f) -> isUnsafe c = false /\ c <> COMMA.
Proof.
  rewrite safeBaseNameOf_eq. intros H.
  apply (@Infix_In c _ _ (trim_Infix _)) in H.
  apply squeeze_In in H. destruct H as [-> | [H _]]; [split; [reflexivity | discriminate] |].
  apply squeezeBy_In in H.
  destruct H as [[<- | []] | [H Hu]]; [split; [reflexivity | discriminate] |].
  split; [exact Hu |].
  apply join_In in H. destruct H as [[<- | []] | (t & Ht & Hc)]; [discriminate |].
  pose proof (searchTermsOf_valid f) as V. rewrite Forall_forall in V.
  destruct (V t Ht) as (_ & _ & Hn). intros ->. contradiction.
Qed.

Lemma join_head sep t ts : exists rest, join sep (t :: ts) = t ++ rest.
Proof.
  destruct ts as [| t2 ts]; [exists []; cbn; now rewrite app_nil_r |].
  exists (sep ++ join sep (t2 :: ts)). reflexivity.
Qed.

Lemma safeBaseNameOf_nonempty f :
  searchTermsOf f <> [] -> safeBaseNameOf f <> [].
Proof.
  intros Hne. rewrite safeBaseNameOf_eq.
  pose proof (searchTermsOf_valid f) as V.
  destruct (searchTermsOf f) as [| t ts]; [congruence |].
  inversion V as [| ? ? (Ht & Htr & _) _]. subst.
  destruct (join_head [UNDERSCORE] t ts) as (rest & ->).
  destruct t as [| a t]; [congruence |].
  assert (Ha : isWhiteSpace a = false).
  { pose proof (starts_ws_trim (a :: t)) as S. rewrite Htr in S. exact S. }
  assert (G : forall h x, isWhiteSpace h = false ->
            trim (squeeze false (h :: x)) <> []).
  { intros h x Hh. cbn [squeeze]. rewrite Hh. unfold trim, trimStart.
    cbn [dropWhile]. rewrite Hh. rewrite trimEnd_cons by exact Hh.
    discriminate. }
  cbn [app squeezeBy]. destruct (isUnsafe a).
  - cbn [app]. apply G. reflexivity.
  - apply G. exact Ha.
Qed.

Lemma safeBaseNameOf_tidy f :
  trim (safeBaseNameOf f) = safeBaseNameOf f /\ single (safeBaseNameOf f).
Proof.
  rewrite safeBaseNameOf_eq. split; [apply trim_trim |].
  apply single_trim, single_squeeze.
Qed.

Lemma safeBaseNameOf_fixed f :
  safeBaseNameOf (safeBaseNameOf f) = safeBaseNameOf f.
Proof.
  set (b := safeBaseNameOf f).
  destruct (safeBaseNameOf_tidy f) as [Htr Hsi]. fold b in Htr, Hsi.
  assert (Hc : forall c, In c b -> isUnsafe c = false /\ c <> COMMA)
    by (intros c; apply safeBaseNameOf_chars).
  destruct b as [| x b'] eqn:Eb; [reflexivity |]. rewrite <- Eb in *.
  assert (St : searchTermsOf b = [b]).
  { unfold searchTermsOf. rewrite splitOn_single.
    - cbn [map filter]. rewrite Htr, Eb. reflexivity.
    - intros Hi. destruct (Hc _ Hi) as [_ N]. congruence. }
  rewrite (safeBaseNameOf_eq b), St. cbn [join].
  rewrite squeezeBy_id.
  - rewrite (squeeze_single _ Hsi). exact Htr.
  - apply forallb_forall. intros c Hi. destruct (Hc _ Hi) as [U _].
    now rewrite U.
Qed.

Section SaveProperties.

Variable FS : Type.
Variable toISOString : Z -> str.
Variable fs_mkdir : str -> FS -> option JsError * FS.
Variable XLSX_writeFile : Workbook -> str -> FS -> option JsError * FS.

Local Abbreviation save :=
  (saveXLSXForTelegram toISOString fs_mkdir XLSX_writeFile).

(** X13.  Saving the report never throws: it creates the directory, writes
    the workbook to [./temp/] followed by the file name and reports these,
    or reports the message of the error of the step that failed (a failed
    [mkdir] means nothing is written).  When the name text has at least
    one term, the file name is the base name and [.xlsx]; the base name is
    not empty, has none of the characters that are unsafe in a file name -
    in particular no slash and no backslash, so that the file is a direct
    entry of the directory - and no comma, has no white space at its ends
    and only single spaces inside, and is unchanged when it is used as the
    name text again.  When there is no name text or it has no term, the
    name is [donations_], the ISO time stamp with colons and dot turned
    into hyphens, and [.xlsx]. *)
Theorem saveXLSXForTelegram_name (xlsxContent : Workbook)
    (filename : option str) (now : Z) (fs : FS) :
  let name := fileNameOf filename (toISOString now) in
  let path := ustr "./temp/" ++ name in
  (exists r fs', save xlsxContent filename now fs = (r, fs') /\
     match r with
     | Saved filePath fileName =>
       fileName = name /\ filePath = path /\
       exists fs1, fs_mkdir (ustr "./temp") fs = (None, fs1) /\
                   XLSX_writeFile xlsxContent path fs1 = (None, fs')
     | SaveFailed error =>
       (exists e, fs_mkdir (ustr "./temp") fs = (Some e, fs') /\
                  error = message e) \/
       (exists e fs1, fs_mkdir (ustr "./temp") fs = (None, fs1) /\
                      XLSX_writeFile xlsxContent path fs1 = (Some e, fs') /\
                      error = message e)
     end) /\
  (forall f, filename = Some f -> searchTermsOf f <> [] ->
     let b := safeBaseNameOf f in
     name = b ++ ustr ".xlsx" /\ b <> [] /\
     Forall (fun c => isUnsafe c = false /\ c <> COMMA) b /\
     trim b = b /\ single b /\
     safeBaseNameOf b = b) /\
  (filename = None \/ (exists f, filename = Some f /\ searchTermsOf f = []) ->
   name = ustr "donations_"
          ++ flat_map (fun c => if isColonOrDot c then [HYPHEN] else [c])
                      (toISOString now)
          ++ ustr ".xlsx").
Proof.
  cbn zeta. split; [| split].
  - unfold saveXLSXForTelegram.
    destruct (fs_mkdir (ustr "./temp") fs) as [[e |] fs1] eqn:M.
    + eexists. eexists. split; [reflexivity |]. left.
      exists e. split; reflexivity.
    + destruct (XLSX_writeFile xlsxContent _ fs1) as [[e |] fs2] eqn:W.
      * eexists. eexists. split; [reflexivity |]. right.
        exists e, fs1. repeat split. exact W.
      * eexists. eexists. split; [reflexivity |].
        split; [reflexivity |]. split; [reflexivity |].
        exists fs1. split; [reflexivity | exact W].
  - intros f -> Hne.
    pose proof (@safeBaseNameOf_nonempty f Hne) as Hb.
    destruct (safeBaseNameOf_tidy f) as [Htr Hsi].
    split; [| split; [exact Hb | split; [| split; [exact Htr | split;
      [exact Hsi | apply safeBaseNameOf_fixed]]]]].
    + unfold fileNameOf. destruct f as [| a f]; [exfalso; apply Hne; reflexivity |].
      cbn [truthyStr]. destruct (safeBaseNameOf (a :: f)); [congruence | reflexivity].
    + apply Forall_forall. intros c. apply safeBaseNameOf_chars.
  - intros Hf.
    assert (T : replace_all (toISOString now) (Class isColonOrDot) [HYPHEN]
                = flat_map (fun c => if isColonOrDot c then [HYPHEN] else [c])
                           (toISOString now)).
    { unfold replace_all. apply replace_class_each. lia. }
    unfold fileNameOf. rewrite T.
    destruct Hf as [-> | (f & -> & Hs)]; [reflexivity |].
    destruct (truthyStr f); [| reflexivity].
    rewrite safeBaseNameOf_eq, Hs. reflexivity.
Qed.

End SaveProperties.

(* ===================================================================== *)
(** * 30. The latest date when dates are invalid                          *)
(* ===================================================================== *)

(** The time values of the records whose date-time the host reads as a
    date. *)
Definition validDates (Date_parse : str -> option Z)
    (ds : list DonationRecord) : list Z :=
  flat_map (fun r => match dateOf Date_parse r with Some v => [v] | None => [] end) ds.

(** X14.  The latest date of the summary is decided by the first record:
    when the host reads its date-time as no date, the result is that
    Invalid Date whatever the other records are (no date compares later
    than it); when it is a date, the result is the latest of the dates the
    host reads, the records whose date-time is no date being passed over.
    Without records there is no date and the summary says so. *)
Theorem latestDate_first_record (Date_parse : str -> option Z)
    (toLocaleDateString : option Z -> str)
    (d : DonationRecord) (ds : list DonationRecord) :
  latestDate Date_parse (d :: ds)
  = match dateOf Date_parse d with
    | None => Some None
    | Some v => Some (Some (fold_left Z.max (validDates Date_parse ds) v))
    end /\
  (dateOf Date_parse d = None ->
   latestDateStr Date_parse toLocaleDateString (d :: ds) = toLocaleDateString None) /\
  latestDate Date_parse [] = None /\
  latestDateStr Date_parse toLocaleDateString [] = ustr "нет данных".
Proof.
  set (step := fun (m : option (option Z)) (r : DonationRecord) =>
         let dt := dateOf Date_parse r in
         match m with
         | None => Some dt
         | Some mv => if laterThan dt mv then Some dt else m
         end).
  assert (I : forall l, fold_left step l (Some None) = Some None).
  { induction l as [| r l IH]; [reflexivity |]. cbn [fold_left].
    replace (step (Some None) r) with (Some (@None Z)); [exact IH |].
    unfold step. cbn zeta. destruct (dateOf Date_parse r); reflexivity. }
  assert (V : forall l v,
    fold_left step l (Some (Some v))
    = Some (Some (fold_left Z.max (validDates Date_parse l) v))).
  { induction l as [| r l IH]; intros v; [reflexivity |].
    cbn [fold_left]. unfold validDates. cbn [flat_map].
    fold (validDates Date_parse l). unfold step at 2. cbn zeta.
    destruct (dateOf Date_parse r) as [x |]; cbn [laterThan app].
    - cbn [fold_left]. destruct (Z.ltb_spec v x).
      + rewrite IH. do 3 f_equal. lia.
      + rewrite IH. do 3 f_equal. lia.
    - apply IH. }
  assert (L : latestDate Date_parse (d :: ds)
              = match dateOf Date_parse d with
                | None => Some None
                | Some v => Some (Some (fold_left Z.max (validDates Date_parse ds) v))
                end).
  { unfold latestDate. cbn [fold_left]. fold step.
    change (step None d) with (Some (dateOf Date_parse d)).
    destruct (dateOf Date_parse d) as [v |]; [apply V | apply I]. }
  split; [exact L |]. split; [| split; reflexivity].
  intros E. unfold latestDateStr. rewrite L, E. reflexivity.
Qed.

(** A line whose date is not in the calendar is accepted all the same;
    the sample host reads its date-time as no date. *)
Example impossible_date_accepted :
  match parseDonationMessage
          (ustr "WebPay 01.13.2025 25:00:00 сено 5.00 0.01 4.99 BYN") with
  | Some r => dateTime r = ustr "01.13.2025 25:00:00" /\
              isoLike r = ustr "2025-13-01 25:00:00" /\
              dateOf Sample.Date_parse r = None
  | None => False
  end.
Proof. vm_compute. repeat split; reflexivity. Qed.

(* ===================================================================== *)
(** * 31. Saving the report in the puppeteer variant                      *)
(* ===================================================================== *)

Module Puppeteer.

(** [`${filename}`]: a template literal prints [null] as the text null. *)
Definition templateText (filename : option str) : str :=
  match filename with
  | Some f => f
  | None => ustr "null"
  end.

(** [`${filename}.xlsx` || `donations_${timestamp}.xlsx`] *)
Definition fileNameOf (filename : option str) (isoNow : str) : str :=
  let timestamp := replace_all isoNow (Class isColonOrDot) [HYPHEN] in
  let named := templateText filename ++ ustr ".xlsx" in
  if truthyStr named then named
  else ustr "donations_" ++ timestamp ++ ustr ".xlsx".

Section SaveReport.

Variable FS : Type.
Variable toISOString : Z -> str.
Variable fs_mkdir : str -> FS -> option JsError * FS.
Variable XLSX_writeFile : Workbook -> str -> FS -> option JsError * FS.

Definition saveXLSXForTelegram (xlsxContent : Workbook)
    (filename : option str) (now : Z) (fs : FS) : SaveResult * FS :=
  let fileName := fileNameOf filename (toISOString now) in
  let filePath := ustr "./temp/" ++ fileName in
  match fs_mkdir (ustr "./temp") fs with
  | (Some e, fs1) => (SaveFailed (message e), fs1)
  | (None, fs1) =>
    match XLSX_writeFile xlsxContent filePath fs1 with
    | (Some e, fs2) => (SaveFailed (message e), fs2)
    | (None, fs2) => (Saved filePath fileName, fs2)
    end
  end.

(** X15.  In the puppeteer variant the file name is the name text and
    [.xlsx], character for character: nothing is trimmed, removed or
    replaced, so a slash of the text is a slash of the path; the name made
    from the time stamp is never used, and without a name text the file is
    [null.xlsx].  A report that is saved is written to [./temp/] followed
    by that name, after the directory was created. *)
Theorem saveXLSXForTelegram_name_verbatim (xlsxContent : Workbook)
    (filename : option str) (now : Z) (fs : FS) :
  fileNameOf filename (toISOString now)
    = match filename with
      | Some f => f ++ ustr ".xlsx"
      | None => ustr "null.xlsx"
      end /\
  (forall f filePath fileName fs',
     filename = Some f ->
     saveXLSXForTelegram xlsxContent filename now fs
       = (Saved filePath fileName, fs') ->
     filePath = ustr "./temp/" ++ f ++ ustr ".xlsx" /\
     (forall c, In c f -> In c filePath) /\
     exists fs1, fs_mkdir (ustr "./temp") fs = (None, fs1) /\
                 XLSX_writeFile xlsxContent filePath fs1 = (None, fs')).
Proof.
  assert (N : fileNameOf filename (toISOString now)
              = match filename with
                | Some f => f ++ ustr ".xlsx"
                | None => ustr "null.xlsx"
                end).
  { unfold fileNameOf. cbn zeta. destruct filename as [f |]; [| reflexivity].
    cbn [templateText]. destruct f; reflexivity. }
  split; [exact N |].
  intros f filePath fileName fs' -> H. unfold saveXLSXForTelegram in H.
  rewrite N in H.
  destruct (fs_mkdir (ustr "./temp") fs) as [[e |] fs1]; [discriminate |].
  destruct (XLSX_writeFile xlsxContent _ fs1) as [[e |] fs2] eqn:W;
    [discriminate |].
  assert (Ep : filePath = ustr "./temp/" ++ f ++ ustr ".xlsx") by congruence.
  assert (Ef : fs2 = fs') by congruence.
  clear H. subst filePath fs2. split; [reflexivity |]. split.
  - intros c Hc. apply in_or_app. right. apply in_or_app. left. exact Hc.
  - exists fs1. split; [reflexivity | exact W].
Qed.

End SaveReport.

End Puppeteer.

Example sample_file_name_verbatim :
  Puppeteer.fileNameOf (Some (ustr "../x, y")) (ustr "2025-01-13T10:46:08.123Z")
    = ustr "../x, y.xlsx" /\
  fileNameOf (Some (ustr "../x, y")) (ustr "2025-01-13T10:46:08.123Z")
    = ustr ".._x_y.xlsx".
Proof. vm_compute. split; reflexivity. Qed.

(* ===================================================================== *)
(** * 32. The request queue: [processQueue]                               *)
(* ===================================================================== *)

(** An entry of [requestQueue]: the task, which is the body of
    [processTelegramRequest] closed over the arguments of the call, and
    the [resolve] of the promise the call returned, named by a ticket.
    The task catches every error itself, so [reject] is never used. *)
Record Entry : Type := mkEntry {
  e_forumUrl : str;
  e_searchTerms : str;
  e_options : UserOptions;
  e_ticket : nat
}.

(** The module state between two turns of the event loop.  [awaited] is
    the task the loop of [processQueue] is waiting for: its entry and the
    value its promise is going to be fulfilled with; [settled] lists the
    promises resolved so far with their values. *)
Record QueueState : Type := mkQueueState {
  requestQueue : list Entry;
  isProcessingQueue : bool;
  awaited : option (Entry * Payload);
  scraperInstance : option Scraper;
  world : World;
  settled : list (nat * Payload)
}.

(** The steps of a run are the turns of the event loop and the passing of
    time between them: a call of [processTelegramRequest], the settling of
    the awaited task, and the wall clock moving on.  A task works on the
    scraper and the world only and a call touches the queue only, so the
    work of a task is done here in the turn in which the task starts: its
    test of the cache reads the clock of that moment, and the time that
    its requests and waits take is added by the task itself.  The value of
    the task is handed over in the turn in which it settles. *)
Inductive Turn : Type :=
| Call (e : Entry)
| Settle
| Elapse (ms : N).

(** The wall clock moves on by [ms] milliseconds. *)
Definition advance (ms : N) (w : World) : World :=
  mkWorld (heap w) (clock w + Z.of_N ms) (requests w) (trace w).

Section Queue.

Variable toLowerCase : str -> str.
Variable Date_parse : str -> option Z.
Variable Array_sort : Comparator -> list DonationRecord -> list DonationRecord.
Variable network : nat -> str -> Response.
Variable paginationLinks : str -> list (str * option str).
Variable paginationCaption : str -> str.
Variable postContents : str -> list str.
Variable toFixed2 : number -> str.
Variable toLocaleDateString : option Z -> str.

Definition task (e : Entry) (inst : option Scraper) (w : World)
    : Payload * option Scraper * World :=
  processTelegramRequest toLowerCase Date_parse Array_sort network
    paginationLinks paginationCaption postContents toFixed2
    toLocaleDateString
    (e_forumUrl e) (e_searchTerms e) (e_options e) inst w.

(** The test of the [while] loop and, when the queue is not empty, the
    [shift] and the call of the task, which runs up to the [await]. *)
Definition loopHead (q : QueueState) : QueueState :=
  match requestQueue q with
  | e :: rest =>
    let '(payload, inst', w') := task e (scraperInstance q) (world q) in
    mkQueueState rest (isProcessingQueue q) (Some (e, payload)) inst' w'
                 (settled q)
  | [] =>
    mkQueueState [] false None (scraperInstance q) (world q) (settled q)
  end.

Definition processQueue (q : QueueState) : QueueState :=
  if isProcessingQueue q
     || match requestQueue q with [] => true | _ :: _ => false end
  then q
  else loopHead (mkQueueState (requestQueue q) true (awaited q)
                              (scraperInstance q) (world q) (settled q)).

(** [requestQueue.push({ task, resolve, reject }); processQueue()] *)
Definition call (e : Entry) (q : QueueState) : QueueState :=
  processQueue (mkQueueState (requestQueue q ++ [e]) (isProcessingQueue q)
                             (awaited q) (scraperInstance q) (world q)
                             (settled q)).

(** [resolve(await task())] and the next turn of the loop. *)
Definition settle (q : QueueState) : QueueState :=
  match awaited q with
  | Some (e, payload) =>
    loopHead (mkQueueState (requestQueue q) (isProcessingQueue q) None
                           (scraperInstance q) (world q)
                           (settled q ++ [(e_ticket e, payload)]))
  | None => q
  end.

Definition elapse (ms : N) (q : QueueState) : QueueState :=
  mkQueueState (requestQueue q) (isProcessingQueue q) (awaited q)
               (scraperInstance q) (advance ms (world q)) (settled q).

Definition turn (q : QueueState) (t : Turn) : QueueState :=
  match t with
  | Call e => call e q
  | Settle => settle q
  | Elapse ms => elapse ms q
  end.

Definition run (turns : list Turn) (q : QueueState) : QueueState :=
  fold_left turn turns q.

(** The module state at start-up. *)
Definition startUp (w : World) : QueueState :=
  mkQueueState [] false None None w [].

(** The calls of a run in their order. *)
Definition calls_of (turns : list Turn) : list Entry :=
  flat_map (fun t => match t with Call e => [e] | _ => [] end) turns.

(** The values computed so far: those handed over and that of the task
    in service. *)
Definition outcomes (q : QueueState) : list (nat * Payload) :=
  settled q ++ match awaited q with
               | Some (e, payload) => [(e_ticket e, payload)]
               | None => []
               end.

(** ** One request after the other

    A program without a queue: it runs a request to its end, or lets time
    pass. *)
Inductive Step : Type :=
| Run (e : Entry)
| Pause (ms : N).

Fixpoint serve (steps : list Step) (inst : option Scraper) (w : World)
    : list (nat * Payload) * option Scraper * World :=
  match steps with
  | [] => ([], inst, w)
  | Run e :: steps' =>
    let '(payload, inst1, w1) := task e inst w in
    let '(rest, inst2, w2) := serve steps' inst1 w1 in
    ((e_ticket e, payload) :: rest, inst2, w2)
  | Pause ms :: steps' => serve steps' inst (advance ms w)
  end.

Definition runs (steps : list Step) : list Entry :=
  flat_map (fun s => match s with Run e => [e] | Pause _ => [] end) steps.

(** The schedule of a single server met by the turns of a run: a call
    that finds the server idle is run at once, a call that finds it busy
    waits its turn and is run when the request before it settles, and
    time passes where it passes in the run.  The state of the schedule is
    whether the server is busy, and the calls that wait. *)
Definition plan (acc : list Step * bool * list Entry) (t : Turn)
    : list Step * bool * list Entry :=
  let '(steps, busy, waiting) := acc in
  match t with
  | Call e =>
    if busy then (steps, true, waiting ++ [e])
    else (steps ++ [Run e], true, [])
  | Settle =>
    if busy then
      match waiting with
      | e :: rest => (steps ++ [Run e], true, rest)
      | [] => (steps, false, [])
      end
    else acc
  | Elapse ms => (steps ++ [Pause ms], busy, waiting)
  end.

Definition schedule (turns : list Turn) : list Step :=
  fst (fst (fold_left plan turns ([], false, []))).

Lemma serve_app steps1 steps2 : forall inst w,
  serve (steps1 ++ steps2) inst w
  = let '(d1, i1, w1) := serve steps1 inst w in
    let '(d2, i2, w2) := serve steps2 i1 w1 in
    (d1 ++ d2, i2, w2).
Proof.
  induction steps1 as [| s steps1 IH]; intros inst w; cbn [app serve].
  - destruct (serve steps2 inst w) as [[d i] w1]. reflexivity.
  - destruct s as [e | ms].
    + destruct (task e inst w) as [[p i] w1]. rewrite IH.
      destruct (serve steps1 i w1) as [[d1 i1] w2].
      destruct (serve steps2 i1 w2) as [[d2 i2] w3]. reflexivity.
    + apply IH.
Qed.

Lemma serve_tickets steps : forall inst w,
  map fst (fst (fst (serve steps inst w))) = map e_ticket (runs steps).
Proof.
  induction steps as [| s steps IH]; intros inst w; [reflexivity |].
  destruct s as [e | ms]; cbn [serve runs flat_map app].
  - destruct (task e inst w) as [[p i] w1].
    specialize (IH i w1). destruct (serve steps i w1) as [[d i2] w2].
    cbn in *. unfold runs in IH. now rewrite IH.
  - apply IH.
Qed.

Lemma runs_app a b : runs (a ++ b) = runs a ++ runs b.
Proof. apply flat_map_app. Qed.

(** What every run keeps true. *)
Definition Serialized (w0 : World) (turns : list Turn) : Prop :=
  let q := run turns (startUp w0) in
  let '(steps, busy, waiting) := fold_left plan turns ([], false, []) in
  busy = isProcessingQueue q /\ waiting = requestQueue q /\
  calls_of turns = runs steps ++ requestQueue q /\
  serve steps None w0 = (outcomes q, scraperInstance q, world q) /\
  (isProcessingQueue q = true <-> awaited q <> None) /\
  (awaited q = None -> requestQueue q = []).

Lemma calls_of_snoc turns t :
  calls_of (turns ++ [t])
  = calls_of turns ++ match t with Call e => [e] | _ => [] end.
Proof.
  unfold calls_of. rewrite flat_map_app. cbn. now rewrite app_nil_r.
Qed.

Lemma run_Serialized w0 : forall turns, Serialized w0 turns.
Proof.
  induction turns as [| t turns IH] using rev_ind.
  - cbn. repeat split; congruence.
  - unfold Serialized, run in *. rewrite !fold_left_app. cbn [fold_left].
    rewrite calls_of_snoc.
    remember (fold_left turn turns (startUp w0)) as q eqn:Eq. clear Eq.
    destruct (fold_left plan turns ([], false, [])) as [[steps busy] waiting].
    destruct IH as (Hb & Hw & Hc & Hs & Hf & Hi). rewrite Hc. clear Hc.
    destruct q as [queue flag aw inst w st]. unfold outcomes in *.
    cbn [requestQueue isProcessingQueue awaited scraperInstance world settled]
      in *.
    subst busy waiting.
    destruct t as [e | | ms]; cbn [turn plan].
    + (* a call *)
      unfold call, processQueue.
      cbn [requestQueue isProcessingQueue awaited scraperInstance world
           settled].
      destruct aw as [[c pc] |].
      * assert (F : flag = true) by (apply Hf; discriminate). subst flag.
        cbn [orb].
        cbn [requestQueue isProcessingQueue awaited scraperInstance world
             settled].
        split; [reflexivity |]. split; [reflexivity |].
        split; [now rewrite <- app_assoc |]. split; [exact Hs |].
        split; [exact Hf | discriminate].
      * assert (F : flag = false).
        { destruct flag; [| reflexivity].
          exfalso. apply (proj1 Hf); reflexivity. }
        subst flag. rewrite (Hi eq_refl) in *.
        cbn [app orb loopHead requestQueue scraperInstance world
             isProcessingQueue settled].
        destruct (task e inst w) as [[p i] w1] eqn:T.
        cbn [requestQueue isProcessingQueue awaited scraperInstance world
             settled].
        split; [reflexivity |]. split; [reflexivity |].
        split; [rewrite runs_app, !app_nil_r; reflexivity |].
        split.
        { rewrite serve_app, Hs. cbn [serve]. rewrite T.
          rewrite app_nil_r. reflexivity. }
        split; [split; [discriminate | reflexivity] | discriminate].
    + (* the awaited task settles *)
      unfold settle. cbn [awaited].
      destruct aw as [[c pc] |].
      * assert (F : flag = true) by (apply Hf; discriminate). subst flag.
        unfold loopHead.
        cbn [requestQueue isProcessingQueue awaited scraperInstance world
             settled].
        destruct queue as [| e rest].
        -- cbn [requestQueue isProcessingQueue awaited scraperInstance world
                settled].
           split; [reflexivity |]. split; [reflexivity |].
           split; [rewrite !app_nil_r; reflexivity |].
           split; [rewrite app_nil_r; exact Hs |].
           split; [split; [discriminate | intros H; now contradiction H]
                  | reflexivity].
        -- destruct (task e inst w) as [[p i] w1] eqn:T.
           cbn [requestQueue isProcessingQueue awaited scraperInstance world
                settled].
           split; [reflexivity |]. split; [reflexivity |].
           split; [rewrite runs_app, app_nil_r, <- app_assoc; reflexivity |].
           split.
           { rewrite serve_app, Hs. cbn [serve]. rewrite T.
             rewrite <- app_assoc. reflexivity. }
           split; [split; [discriminate | reflexivity] | discriminate].
      * assert (F : flag = false).
        { destruct flag; [| reflexivity].
          exfalso. apply (proj1 Hf); reflexivity. }
        subst flag.
        cbn [requestQueue isProcessingQueue awaited scraperInstance world
             settled].
        split; [reflexivity |]. split; [reflexivity |].
        split; [now rewrite app_nil_r |]. split; [exact Hs |].
        split; [exact Hf | exact Hi].
    + (* time passes *)
      unfold elapse.
      cbn [requestQueue isProcessingQueue awaited scraperInstance world
           settled].
      split; [reflexivity |]. split; [reflexivity |].
      split; [rewrite runs_app, !app_nil_r; reflexivity |].
      split; [rewrite serve_app, Hs; cbn [serve]; rewrite app_nil_r;
              reflexivity |].
      split; [exact Hf | exact Hi].
Qed.

(** X16.  Requests are served one at a time in the order of their calls,
    whatever time passes between the turns.  After any sequence of calls,
    settlings and lapses of time since start-up: the calls made are, in
    their order, those that were started and then those in the queue -
    none is lost, repeated or overtaken; the values computed, the scraper
    and the world are those of a program without a queue that runs the
    started requests to their end one after the other, each on the state
    left by the one before and each at the moment at which it is started -
    at its call when no request is in service, and else when the request
    before it settles; the processing flag is set exactly while a request
    is in service, and a request waits in the queue only while another is
    in service. *)
Theorem processQueue_serializes (w0 : World) (turns : list Turn) :
  let q := run turns (startUp w0) in
  calls_of turns = runs (schedule turns) ++ requestQueue q /\
  serve (schedule turns) None w0
    = (outcomes q, scraperInstance q, world q) /\
  map fst (outcomes q) = map e_ticket (runs (schedule turns)) /\
  (isProcessingQueue q = true <-> awaited q <> None) /\
  (awaited q = None -> requestQueue q = []).
Proof.
  cbn zeta. pose proof (run_Serialized w0 turns) as H.
  unfold Serialized, schedule in *.
  destruct (fold_left plan turns ([], false, [])) as [[steps busy] waiting].
  destruct H as (_ & _ & Hc & Hs & Hf & Hi). cbn [fst].
  split; [exact Hc |]. split; [exact Hs |]. split.
  - rewrite <- (serve_tickets steps None w0), Hs. reflexivity.
  - split; [exact Hf | exact Hi].
Qed.

End Queue.


(* ===================================================================== *)
(** * 33. More theorems at sample inputs                                  *)
(* ===================================================================== *)

Lemma fetchPageHtml_no_attempts_witness :
  maxRetries (options noRetries) = 0 /\
  fetchPageHtml Sample.online 2 noRetries Sample.freshWorld
    = (Thrown unknownLoadError, noRetries,
       mkWorld (heap Sample.freshWorld) (clock Sample.freshWorld)
               (requests Sample.freshWorld)
               (trace Sample.freshWorld ++ [EvFetchPage 2])) /\
  (cacheHit noRetries (clock Sample.freshWorld) = None ->
   scrapeAllDonations Sample.Date_parse Sample.Array_sort Sample.online Sample.paginationLinks
     Sample.paginationCaption Sample.postContents noRetries Sample.freshWorld
     = (Thrown unknownLoadError, noRetries,
        mkWorld (heap Sample.freshWorld) (clock Sample.freshWorld)
                (requests Sample.freshWorld)
                (trace Sample.freshWorld ++ [EvFetchPage 1]))).
Proof.
  split; [reflexivity |].
  assert (H : maxRetries (options noRetries) <= 0) by (cbn; lia).
  destruct (@fetchPageHtml_no_attempts Sample.Date_parse Sample.Array_sort Sample.online
              Sample.paginationLinks Sample.paginationCaption
              Sample.postContents noRetries Sample.freshWorld 2 H)
    as (A & _ & _).
  destruct (@fetchPageHtml_no_attempts Sample.Date_parse Sample.Array_sort Sample.online
              Sample.paginationLinks Sample.paginationCaption
              Sample.postContents noRetries Sample.freshWorld 1 H)
    as (_ & B & _).
  split; [exact A | exact B].
Defined.

Lemma scrape_collects_every_page_witness :
  exists l this' w' firstHtml more,
    scrapeAllDonations Sample.Date_parse Sample.Array_sort Sample.online
      Sample.paginationLinks
      Sample.paginationCaption Sample.postContents Sample.fresh
      Sample.freshWorld = (Returned l, this', w') /\
    let pages := firstHtml :: more in
    let extracted :=
      flat_map (extractDonationsFromHtml Sample.postContents) pages in
    (exactNumbers Sample.paginationLinks Sample.paginationCaption firstHtml ->
     length pages
     = Z.to_nat (pageCount (options Sample.fresh)
                   (determineTotalPages Sample.paginationLinks
                      Sample.paginationCaption firstHtml))) /\
    (exactOffsets (Z.of_nat (length pages)) ->
     Forall2 (fun q html =>
                exists k t,
                  (requests Sample.freshWorld <= k < requests w')%nat /\
                  Sample.online k (buildPageUrl (baseUrl Sample.fresh) q)
                    = RespOk html t)
             (pagesFrom 1 (length pages)) pages) /\
    deref (heap w') l
      = sortDonations Sample.Date_parse Sample.Array_sort extracted /\
    (forall r, In r extracted -> parsed r /\ comment r <> Some []) /\
    (SortContract Sample.Array_sort ->
     Permutation extracted (deref (heap w') l) /\
     (forall r, In r (deref (heap w') l) <->
                exists html,
                  In html pages /\
                  In r (extractDonationsFromHtml Sample.postContents html)) /\
     ((forall r, In r extracted -> dateOf Sample.Date_parse r <> None) ->
      StronglySorted (instantLe Sample.Date_parse) (deref (heap w') l) /\
      (readsCalendar Sample.Date_parse extracted ->
       StronglySorted chronoLe (deref (heap w') l)))).
Proof.
  destruct (scrapeAllDonations Sample.Date_parse Sample.Array_sort
      Sample.online
      Sample.paginationLinks Sample.paginationCaption Sample.postContents
      Sample.fresh Sample.freshWorld) as [[o this'] w'] eqn:E.
  destruct o as [l | e]; [| exfalso; vm_compute in E; discriminate].
  destruct (@scrape_collects_every_page Sample.Date_parse Sample.Array_sort
              Sample.online
              Sample.paginationLinks Sample.paginationCaption
              Sample.postContents Sample.fresh Sample.freshWorld l this' w'
              eq_refl E)
    as (firstHtml & more & H).
  exists l, this', w', firstHtml, more.
  split; [reflexivity | exact H].
Defined.

Lemma scrape_fills_cache_witness :
  exists l this' w',
    scrapeAllDonations Sample.Date_parse Sample.Array_sort Sample.online Sample.paginationLinks
      Sample.paginationCaption Sample.postContents Sample.fresh
      Sample.freshWorld = (Returned l, this', w') /\
    donations this' = l /\
    cache this' = mkCache (Some l) (clock w')
                    (Some (generateXLSX (deref (heap w') l))) /\
    (forall w2, clock w2 - clock w' < cacheTtl (options Sample.fresh) ->
       scrapeAllDonations Sample.Date_parse Sample.Array_sort Sample.online Sample.paginationLinks
         Sample.paginationCaption Sample.postContents this' w2
       = (Returned l, this', w2)).
Proof.
  destruct (scrapeAllDonations Sample.Date_parse Sample.Array_sort Sample.online
      Sample.paginationLinks Sample.paginationCaption Sample.postContents
      Sample.fresh Sample.freshWorld) as [[o this'] w'] eqn:E.
  destruct o as [l | e]; [| exfalso; vm_compute in E; discriminate].
  destruct (@scrape_fills_cache Sample.Date_parse Sample.Array_sort Sample.online
              Sample.paginationLinks Sample.paginationCaption
              Sample.postContents Sample.fresh Sample.freshWorld l this' w'
              eq_refl E)
    as (A & B & C & _).
  exists l, this', w'. split; [reflexivity |]. split; [exact A |].
  split; [exact B | exact C].
Defined.

Lemma scrape_failure_state_witness :
  exists e this' w',
    scrapeAllDonations Sample.Date_parse Sample.Array_sort
      Sample.secondPageDown
      Sample.paginationLinks Sample.paginationCaption Sample.postContents
      Sample.expired Sample.lateWorld = (Thrown e, this', w') /\
    cache this' = cache Sample.expired /\
    ((this' = Sample.expired /\ heap w' = heap Sample.lateWorld /\
      fetchPageHtml Sample.secondPageDown 1 Sample.expired Sample.lateWorld
        = (Thrown e, Sample.expired, w')) \/
     (exists firstHtml more w1 wk,
        fetchPageHtml Sample.secondPageDown 1 Sample.expired Sample.lateWorld
          = (Returned firstHtml, Sample.expired, w1) /\
        (exactNumbers Sample.paginationLinks Sample.paginationCaption
           firstHtml ->
         Z.of_nat (S (length more))
         < pageCount (options Sample.expired)
             (determineTotalPages Sample.paginationLinks
                Sample.paginationCaption firstHtml)) /\
        this' = withDonations Sample.expired (length (heap Sample.lateWorld)) /\
        deref (heap w') (donations this')
          = flat_map (extractDonationsFromHtml Sample.postContents)
                     (firstHtml :: more) /\
        heap wk = heap w' /\
        (requests wk <= requests w')%nat /\
        (exactOffsets (2 + Z.of_nat (length more)) ->
         Forall2 (fun q html =>
                    exists k t,
                      (requests Sample.lateWorld <= k < requests wk)%nat /\
                      Sample.secondPageDown k
                        (buildPageUrl (baseUrl Sample.expired) q)
                      = RespOk html t)
                 (pagesFrom 1 (S (length more))) (firstHtml :: more) /\
         fetchPageHtml Sample.secondPageDown (2 + Z.of_nat (length more))
           this' wk = (Thrown e, this', w')))).
Proof.
  destruct (scrapeAllDonations Sample.Date_parse Sample.Array_sort
      Sample.secondPageDown
      Sample.paginationLinks Sample.paginationCaption Sample.postContents
      Sample.expired Sample.lateWorld) as [[o this'] w'] eqn:E.
  destruct o as [l | e]; [exfalso; vm_compute in E; discriminate |].
  exists e, this', w'. split; [reflexivity |].
  exact (@scrape_failure_state Sample.Date_parse Sample.Array_sort
           Sample.secondPageDown
           Sample.paginationLinks Sample.paginationCaption
           Sample.postContents Sample.expired Sample.lateWorld e this' w' E).
Defined.

(** Two requests for the same forum, the second called after the first
    was answered.  Called at once, it is served from the cache; called
    when the time to live has passed, it fetches both pages again. *)
Definition ask (ticket : nat) : Entry :=
  mkEntry Sample.forumUrl (ustr "корм") noOptions ticket.

Example sample_queue_after_ttl :
  let run turns :=
    run Sample.toLowerCase Sample.Date_parse Sample.Array_sort Sample.online
      Sample.paginationLinks Sample.paginationCaption Sample.postContents
      Sample.toFixed2 Sample.toLocaleDateString turns
      (startUp Sample.freshWorld) in
  let soon := run [Call (ask 1); Settle; Call (ask 2); Settle] in
  let late := run [Call (ask 1); Settle; Elapse 1800000; Call (ask 2); Settle] in
  fetchedPages (trace (world soon)) = [1; 2] /\
  fetchedPages (trace (world late)) = [1; 2; 1; 2] /\
  map fst (settled soon) = [1; 2]%nat /\
  map fst (settled late) = [1; 2]%nat.
Proof. vm_compute. repeat split; reflexivity. Qed.

Example sample_page_urls :
  buildPageUrl Sample.forumUrl 1 = Sample.forumUrl /\
  buildPageUrl Sample.forumUrl 3 = Sample.forumUrl ++ ustr "&start=40" /\
  buildPageUrl (ustr "https://forum.zooshans.by/topic") 2
    = ustr "https://forum.zooshans.by/topic?start=20" /\
  buildPageUrl (ustr "https://forum.zooshans.by/viewtopic.php?t=54158&start=100&x=1") 2
    = ustr "https://forum.zooshans.by/viewtopic.php?t=54158&start=20&x=1".
Proof. vm_compute. repeat split; reflexivity. Qed.

Example sample_file_names :
  fileNameOf (Some (ustr "лошади, сено")) (ustr "2025-01-13T10:46:08.123Z")
    = ustr "лошади_сено.xlsx" /\
  fileNameOf (Some (ustr " корм/кот:  2025 ")) (ustr "2025-01-13T10:46:08.123Z")
    = ustr "корм_кот_ 2025.xlsx" /\
  fileNameOf (Some (ustr " , ,")) (ustr "2025-01-13T10:46:08.123Z")
    = ustr "donations_2025-01-13T10-46-08-123Z.xlsx" /\
  fileNameOf None (ustr "2025-01-13T10:46:08.123Z")
    = ustr "donations_2025-01-13T10-46-08-123Z.xlsx".
Proof. vm_compute. repeat split; reflexivity. Qed.

